(** * The event registry of [adapter.d.ts]: a shallow embedding

    The executable part of the source file is the [EventEmitter] class with
    its two private helpers [clearEvent] and [addListener] and the listener
    record [EE].  The embedding below follows that code function by function.

    - JavaScript values are the inductive type [value]; function references
      are compared by identity, so a function is its identifier.
    - [_events] is a JavaScript [Map]: an association list kept in insertion
      order ([JsMap]).
    - The arrays stored in the map are mutable objects that [emit] keeps a
      reference to while listeners run, so they live in an explicit heap and
      the map stores their addresses.  [push] updates an array in place,
      [removeListener] allocates a fresh one.
    - A listener body is a program over the registry's own operations
      ([prog]); what else a body computes is of no concern here.  Re-entrant
      [emit] makes dispatch possibly non-terminating, hence the fuel. *)

From stdpp Require Import base numbers list strings.

Local Open Scope Z_scope.
Local Open Scope nat_scope.

(** ** Values *)

(** Objects and functions are compared by identity, so each is its
    identifier; numbers are the integers and [NaN].  [VTypeError] is the
    error object that [addListener] throws. *)
Inductive value :=
| VUndefined
| VNull
| VBool (b : bool)
| VNum (n : Z)
| VNaN
| VStr (s : string)
| VObj (id : nat)
| VFun (id : nat)
| VTypeError (msg : string).

#[global] Instance value_eq_dec : EqDecision value.
Proof. solve_decision. Defined.

(** JavaScript truthiness, as used by [||], [&&], [!] and [if]. *)
Definition truthy (v : value) : bool :=
  match v with
  | VUndefined | VNull | VNaN => false
  | VBool b => b
  | VNum n => negb (Z.eqb n 0)
  | VStr s => negb (String.eqb s EmptyString)
  | VObj _ | VFun _ | VTypeError _ => true
  end.

(** [typeof v === 'function'] *)
Definition is_function (v : value) : bool :=
  match v with VFun _ => true | _ => false end.

(** [a !== b] *)
Definition strict_neq (a b : value) : bool :=
  match a, b with
  | VNaN, _ | _, VNaN => true
  | _, _ => negb (bool_decide (a = b))
  end.

(** Event identifiers: strings or symbols. *)
Inductive EventName :=
| EvStr (s : string)
| EvSym (id : nat).

#[global] Instance EventName_eq_dec : EqDecision EventName.
Proof. solve_decision. Defined.

(** Truthiness of an optional event argument ([if (event)]). *)
Definition event_given (evt : option EventName) : bool :=
  match evt with
  | None => false
  | Some (EvStr s) => negb (String.eqb s EmptyString)
  | Some (EvSym _) => true
  end.

(** The registry instance itself, as a value. *)
Definition emitter : value := VObj 0.

(** ** [class EE] *)

Module EE.
Record t := new { fn : nat; context : value; once : bool }.
End EE.

#[global] Instance EE_eq_dec : EqDecision EE.t.
Proof. solve_decision. Defined.

(** ** The JavaScript [Map] holding [_events] *)

Abbreviation loc := nat (only parsing).

(** Keys are kept in insertion order, as [Map] keeps them; [set] on a key
    already present keeps its place, so keys stay unique. *)
Module JsMap.
Definition t := list (EventName * loc).

Fixpoint get (k : EventName) (m : t) : option loc :=
  match m with
  | [] => None
  | (k', v) :: m' => if decide (k = k') then Some v else get k m'
  end.

Definition has (k : EventName) (m : t) : bool :=
  match get k m with Some _ => true | None => false end.

Fixpoint set (k : EventName) (v : loc) (m : t) : t :=
  match m with
  | [] => [(k, v)]
  | (k', v') :: m' =>
      if decide (k = k') then (k, v) :: m' else (k', v') :: set k v m'
  end.

Definition delete (k : EventName) (m : t) : t :=
  List.filter (fun p => negb (bool_decide (fst p = k))) m.

Definition keys (m : t) : list EventName := List.map fst m.
End JsMap.

(** ** The state of one registry *)

(** One entry of the dispatch log (ghost state): [emit] at nesting depth
    [depth] called [EE.fn who] with receiver [EE.context who] and arguments
    [passed]. *)
Record invocation := Invoked { who : EE.t; passed : list value; depth : nat }.

#[global] Instance invocation_eq_dec : EqDecision invocation.
Proof. solve_decision. Defined.

(** [_events] is the map of the instance, [heap] holds the arrays it points
    to, [log] is the dispatch log. *)
Record world := World {
  _events : JsMap.t;
  heap : list (list EE.t);
  log : list invocation
}.

Definition empty_world : world := World [] [] [].

Definition with_events (m : JsMap.t) (w : world) : world :=
  World m (heap w) (log w).

(** The array stored at address [a]. *)
Definition array_at (w : world) (a : loc) : list EE.t :=
  default [] (heap w !! a).

(** [new Array]: allocate [arr], return its address. *)
Definition alloc (arr : list EE.t) (w : world) : loc * world :=
  (length (heap w), World (_events w) (heap w ++ [arr]) (log w)).

(** [array.push(x)]: in place. *)
Definition push (a : loc) (x : EE.t) (w : world) : world :=
  World (_events w) (alter (fun arr => arr ++ [x]) a (heap w)) (log w).

(** Write an entry to the dispatch log. *)
Definition record (i : invocation) (w : world) : world :=
  World (_events w) (heap w) (log w ++ [i]).

(** How a call ends: it returns, it throws, or the fuel ran out. *)
Inductive outcome (A : Type) :=
| Returned (x : A) (w : world)
| Threw (err : value) (w : world)
| OutOfFuel.
Arguments Returned {A} x w.
Arguments Threw {A} err w.
Arguments OutOfFuel {A}.

(** ** The private helpers *)

(** [emitter._events.delete(evt)] *)
Definition clearEvent (evt : EventName) (w : world) : world :=
  with_events (JsMap.delete evt (_events w)) w.

(** [addListener(emitter, event, fn, context, once)]: throws unless
    [typeof fn === 'function']; the listener is [new EE(fn, context ||
    emitter, once)]; it starts a new array if the key is absent and is
    pushed onto the array of the key otherwise. *)
Definition addListener (evt : EventName) (fn context : value) (once : bool)
    (w : world) : outcome unit :=
  match fn with
  | VFun f =>
      let listener := EE.new f (if truthy context then context else emitter) once in
      if negb (JsMap.has evt (_events w)) then
        let '(a, w1) := alloc [listener] w in
        Returned tt (with_events (JsMap.set evt a (_events w1)) w1)
      else
        match JsMap.get evt (_events w) with
        | Some array => Returned tt (push array listener w)
        | None => Returned tt w
        end
  | _ => Threw (VTypeError "The listener must be a function") w
  end.

(** ** [class EventEmitter] *)

(** [[...this._events.keys()]] *)
Definition eventNames (w : world) : list EventName := JsMap.keys (_events w).

(** The functions of the handlers of [evt], [[]] if there are none. *)
Definition listeners (evt : EventName) (w : world) : list nat :=
  match JsMap.get evt (_events w) with
  | None => []
  | Some handlers => List.map EE.fn (array_at w handlers)
  end.

Definition listenerCount (evt : EventName) (w : world) : nat :=
  match JsMap.get evt (_events w) with
  | None => 0
  | Some listeners => length (array_at w listeners)
  end.

Definition on (evt : EventName) (fn context : value) (w : world) : outcome unit :=
  addListener evt fn context false w.

Definition once (evt : EventName) (fn context : value) (w : world) : outcome unit :=
  addListener evt fn context true w.

(** The condition under which [removeListener] keeps listener [l]:
    [l.fn !== fn || (once && !l.once) || (context && l.context !== context)]. *)
Definition retained (fn context : value) (once : bool) (l : EE.t) : bool :=
  strict_neq (VFun (EE.fn l)) fn
  || (once && negb (EE.once l))
  || (truthy context && strict_neq (EE.context l) context).

(** [removeListener(event, fn, context, once)]: nothing to do without the
    key; without [fn] the key is deleted; otherwise the listeners to keep
    are collected in a new array [events], stored under the key if it is
    not empty, and the key is deleted if it is. *)
Definition removeListener (evt : EventName) (fn context : value) (once : bool)
    (w : world) : world :=
  if negb (JsMap.has evt (_events w)) then w else
  match JsMap.get evt (_events w) with
  | None => clearEvent evt w
  | Some listeners =>
      if negb (truthy fn) then clearEvent evt w else
      let events := List.filter (retained fn context once) (array_at w listeners) in
      if negb (Nat.eqb (length events) 0) then
        let '(a, w1) := alloc events w in
        with_events (JsMap.set evt a (_events w1)) w1
      else clearEvent evt w
  end.

(** [removeAllListeners(event)]: [if (event)] delete its key if present,
    else [this._events = new Map()].  [None] is the argument left out. *)
Definition removeAllListeners (evt : option EventName) (w : world) : world :=
  if event_given evt then
    match evt with
    | Some e => if JsMap.has e (_events w) then clearEvent e w else w
    | None => w
    end
  else with_events [] w.

Definition off (evt : EventName) (fn context : value) (once : bool) (w : world) : world :=
  removeListener evt fn context once w.

(** The method [addListener(event, fn, context)] of the class (the helper
    above has the name). *)
Definition addListener_method (evt : EventName) (fn context : value) (w : world)
    : outcome unit :=
  on evt fn context w.

(** ** Listener bodies *)

(** What a body may ask of the registry, and what it gets back.  A call that
    throws hands the error to the body ([RThrown]), which may rethrow it. *)
Inductive op :=
| OpOn (evt : EventName) (fn context : value)
| OpOnce (evt : EventName) (fn context : value)
| OpAddListener (evt : EventName) (fn context : value)
| OpRemoveListener (evt : EventName) (fn context : value) (once : bool)
| OpOff (evt : EventName) (fn context : value) (once : bool)
| OpRemoveAllListeners (evt : option EventName)
| OpEmit (evt : EventName) (args : list value)
| OpListeners (evt : EventName)
| OpListenerCount (evt : EventName)
| OpEventNames.

Inductive reply :=
| RThis
| RBool (b : bool)
| RCount (n : nat)
| RFns (fns : list nat)
| RNames (names : list EventName)
| RThrown (err : value).

(** A body: it returns, it throws, or it calls the registry and goes on
    according to the answer. *)
Inductive prog :=
| Done
| Raise (err : value)
| Call (o : op) (k : reply -> prog).

Definition reply_of (r : outcome unit) : option (reply * world) :=
  match r with
  | Returned _ w => Some (RThis, w)
  | Threw err w => Some (RThrown err, w)
  | OutOfFuel => None
  end.

Section Dispatch.
(** [bodies f this args w]: what function [f] does when called with receiver
    [this] and arguments [args].  A closure may keep private state between
    its calls; that state is a function of what has happened so far, which
    the world, with its log, records: hence the last argument. *)
Variable bodies : nat -> value -> list value -> world -> prog.

Section Knot.
(** The re-entrant [emit], one unit of fuel down. *)
Variable emit_rec : nat -> EventName -> list value -> world -> outcome bool.

Definition perform (d : nat) (o : op) (w : world) : option (reply * world) :=
  match o with
  | OpOn evt fn context => reply_of (on evt fn context w)
  | OpOnce evt fn context => reply_of (once evt fn context w)
  | OpAddListener evt fn context => reply_of (addListener_method evt fn context w)
  | OpRemoveListener evt fn context once =>
      Some (RThis, removeListener evt fn context once w)
  | OpOff evt fn context once => Some (RThis, off evt fn context once w)
  | OpRemoveAllListeners evt => Some (RThis, removeAllListeners evt w)
  | OpEmit evt args =>
      match emit_rec d evt args w with
      | Returned b w' => Some (RBool b, w')
      | Threw err w' => Some (RThrown err, w')
      | OutOfFuel => None
      end
  | OpListeners evt => Some (RFns (listeners evt w), w)
  | OpListenerCount evt => Some (RCount (listenerCount evt w), w)
  | OpEventNames => Some (RNames (eventNames w), w)
  end.

Fixpoint run (d : nat) (p : prog) (w : world) : outcome unit :=
  match p with
  | Done => Returned tt w
  | Raise err => Threw err w
  | Call o k =>
      match perform d o w with
      | Some (r, w') => run d (k r) w'
      | None => OutOfFuel
      end
  end.

(** [if (listeners[i].once) this.removeListener(event, listeners[i].fn,
    undefined, true)] *)
Definition select (evt : EventName) (l : EE.t) (w : world) : world :=
  if EE.once l then removeListener evt (VFun (EE.fn l)) VUndefined true w
  else w.

(** [listeners[i].fn.call(listeners[i].context, ...args)] *)
Definition call (d : nat) (l : EE.t) (args : list value) (w : world)
    : outcome unit :=
  let w0 := record (Invoked l args d) w in
  run (S d) (bodies (EE.fn l) (EE.context l) args w0) w0.

(** The [for] loop of [emit] over the captured array [listeners], with
    [remaining = length - i].  [listeners[i]] is read from the array as it
    is in the heap now; [removeListener] writes to no existing array, so the
    reads of [listeners[i]] before and after it see the same listener. *)
Fixpoint emit_loop (d : nat) (evt : EventName) (args : list value)
    (listeners : loc) (remaining i : nat) (w : world) : outcome bool :=
  match remaining with
  | 0 => Returned true w
  | S remaining' =>
      match array_at w listeners !! i with
      | None =>
          Threw (VTypeError "Cannot read properties of undefined") w
      | Some l =>
          match call d l args (select evt l w) with
          | Returned _ w' => emit_loop d evt args listeners remaining' (S i) w'
          | Threw err w' => Threw err w'
          | OutOfFuel => OutOfFuel
          end
      end
  end.

(** [emit(event, ...args)]: [false] if [!listeners?.length], else the loop
    up to the length the array has now. *)
Definition emit_body (d : nat) (evt : EventName) (args : list value)
    (w : world) : outcome bool :=
  match JsMap.get evt (_events w) with
  | None => Returned false w
  | Some listeners =>
      let length := length (array_at w listeners) in
      if Nat.eqb length 0 then Returned false w
      else emit_loop d evt args listeners length 0 w
  end.
End Knot.

(** [emit fuel d evt args]: dispatch with at most [fuel] nested [emit]
    calls; [d] is the nesting depth written to the log. *)
Fixpoint emit (fuel : nat) (d : nat) (evt : EventName) (args : list value)
    (w : world) : outcome bool :=
  match fuel with
  | 0 => OutOfFuel
  | S fuel' => emit_body (emit fuel') d evt args w
  end.
End Dispatch.

(** ** Derived views and the table invariant *)

(** The listener sequence of an event: empty when the key is absent. *)
Definition sequence_of (evt : EventName) (w : world) : list EE.t :=
  match JsMap.get evt (_events w) with
  | None => []
  | Some a => array_at w a
  end.

(** The invariant of the event table, in the words of the registry's own
    queries: the map has a key exactly when the event has listeners. *)
Definition present_iff_nonempty (w : world) : Prop :=
  forall evt, JsMap.has evt (_events w) = true <-> listenerCount evt w <> 0.

(** The same invariant on the representation: a key is present only with a
    live, non-empty array. *)
Definition table_ok (w : world) : Prop :=
  forall e a, JsMap.get e (_events w) = Some a ->
    exists ls, heap w !! a = Some ls /\ ls <> [].

(** A decidable form of [table_ok]. *)
Definition table_okb (w : world) : bool :=
  forallb (fun p => match heap w !! snd p with Some (_ :: _) => true | _ => false end)
    (_events w).

(** The listener [addListener] builds. *)
Definition listener_for (f : nat) (context : value) (once : bool) : EE.t :=
  EE.new f (if truthy context then context else emitter) once.

(** What [removeListener] leaves of a sequence. *)
Definition after_removal (fn context : value) (once : bool) (ls : list EE.t)
    : list EE.t :=
  if truthy fn then List.filter (retained fn context once) ls else [].

(** The listeners that [off(evt, f, context, once)] takes away: those of
    function [f]; if the context given is truthy, only those bound to it; if
    the one-shot filter is set, only the one-shot ones. *)
Definition taken (f : nat) (context : value) (o : bool) (l : EE.t) : bool :=
  Nat.eqb (EE.fn l) f
  && (if truthy context then bool_decide (EE.context l = context) else true)
  && (if o then EE.once l else true).

(** ** What every operation preserves *)

(** Arrays are only ever extended at their end. *)
Definition heap_kept (w w' : world) : Prop :=
  forall a ls, heap w !! a = Some ls ->
    exists more, heap w' !! a = Some (ls ++ more).

(** The log is only ever extended, by entries of depth [d] or deeper. *)
Definition log_grown (d : nat) (w w' : world) : Prop :=
  exists new, log w' = log w ++ new /\ Forall (fun i => d <= depth i) new.

Definition evolves (d : nat) (w w' : world) : Prop :=
  table_ok w' /\ heap_kept w w' /\ log_grown d w w'.

(** [r], if it is a state at all, is one that [w] evolves to. *)
Definition sound {A : Type} (d : nat) (w : world) (r : outcome A) : Prop :=
  match r with
  | Returned _ w' | Threw _ w' => evolves d w w'
  | OutOfFuel => True
  end.

(** [P] holds of the state an operation ends in, returning or throwing. *)
Definition settled {A : Type} (P : world -> Prop) (r : outcome A) : Prop :=
  match r with
  | Returned _ w' | Threw _ w' => P w'
  | OutOfFuel => True
  end.

(** ** Reading the log *)

(** The entries [emit] writes when it calls the listeners [ls] in turn. *)
Definition entries (d : nat) (args : list value) (ls : list EE.t) : list invocation :=
  List.map (fun l => Invoked l args d) ls.

(** The entries of a log segment that [emit] at depth [d] wrote itself;
    those of the dispatches nested in it are deeper. *)
Definition direct (d : nat) (new : list invocation) : list invocation :=
  List.filter (fun i => Nat.eqb (depth i) d) new.

(** [emit] at depth [d] wrote exactly the entries of [ls] itself. *)
Definition dispatched (d : nat) (args : list value) (ls : list EE.t)
    (w w' : world) : Prop :=
  exists new, log w' = log w ++ new /\
    direct d new = entries d args ls /\
    Forall (fun i => d <= depth i) new.

(** ** Classes of listener bodies *)

Definition is_emit (o : op) : bool :=
  match o with OpEmit _ _ => true | _ => false end.

(** The callback of a registration. *)
Definition is_registration (o : op) : option value :=
  match o with
  | OpOn _ fn _ | OpOnce _ fn _ | OpAddListener _ fn _ => Some fn
  | _ => None
  end.

(** [on] or [once], by a flag. *)
Definition registration (one : bool) (evt : EventName) (g : nat) (c : value) : op :=
  if one then OpOnce evt (VFun g) c else OpOn evt (VFun g) c.

(** The body never calls [emit]. *)
Inductive no_emit : prog -> Prop :=
| no_emit_done : no_emit Done
| no_emit_raise err : no_emit (Raise err)
| no_emit_call o k :
    is_emit o = false -> (forall r, no_emit (k r)) -> no_emit (Call o k).

(** The body never throws, whatever it is answered. *)
Inductive no_raise : prog -> Prop :=
| no_raise_done : no_raise Done
| no_raise_call o k : (forall r, no_raise (k r)) -> no_raise (Call o k).

(** Neither: the body only registers, removes and inspects. *)
Definition tame (p : prog) : Prop := no_emit p /\ no_raise p.

Definition tame_at (bodies : nat -> value -> list value -> world -> prog)
    (args : list value) (l : EE.t) : Prop :=
  forall w0, tame (bodies (EE.fn l) (EE.context l) args w0).

(** The body does nothing with the registry at all. *)
Definition quiet_at (bodies : nat -> value -> list value -> world -> prog)
    (args : list value) (l : EE.t) : Prop :=
  forall w0, bodies (EE.fn l) (EE.context l) args w0 = Done.

(** ** The loop of [emit] over quiet listeners, in closed form *)

(** One iteration of the loop whose body does nothing. *)
Definition pass (d : nat) (evt : EventName) (args : list value) (l : EE.t)
    (w : world) : world :=
  record (Invoked l args d) (select evt l w).

Definition sweep (d : nat) (evt : EventName) (args : list value)
    (seg : list EE.t) (w : world) : world :=
  fold_left (fun w l => pass d evt args l w) seg w.

(** [x] is a one-shot listener of the function of [l]. *)
Definition same_shot (l x : EE.t) : bool :=
  EE.once x && Nat.eqb (EE.fn x) (EE.fn l).

(** Listener [x] is not removed when [l] is selected for its call. *)
Definition spared_by (l x : EE.t) : bool :=
  negb (EE.once l) || negb (EE.once x) || negb (Nat.eqb (EE.fn x) (EE.fn l)).

(** Listener [x] is not removed when the listeners of [seg] are selected. *)
Definition outlives (seg : list EE.t) (x : EE.t) : bool :=
  forallb (fun l => spared_by l x) seg.

Definition persistent (x : EE.t) : bool := negb (EE.once x).

(** [emit(evt, ...args)] once for each argument list of [argss], in turn. *)
Fixpoint emit_each (bodies : nat -> value -> list value -> world -> prog)
    (fuel d : nat) (evt : EventName) (argss : list (list value)) (w : world)
    : outcome unit :=
  match argss with
  | [] => Returned tt w
  | args :: rest =>
      match emit bodies fuel d evt args w with
      | Returned _ w' => emit_each bodies fuel d evt rest w'
      | Threw err w' => Threw err w'
      | OutOfFuel => OutOfFuel
      end
  end.

(** ** Registries and listener bodies to run the operations on *)

(** The state an operation ends in. *)
Definition unwrap {A : Type} (r : outcome A) : world :=
  match r with Returned _ w | Threw _ w => w | OutOfFuel => empty_world end.

(** [on('x', f1); once('x', f2)] on a fresh registry. *)
Definition demo_world : world :=
  unwrap (once (EvStr "x") (VFun 2) VUndefined
            (unwrap (on (EvStr "x") (VFun 1) VUndefined empty_world))).

(** [on('', f1); on('x', f2)] on a fresh registry. *)
Definition unnamed_world : world :=
  unwrap (on (EvStr "x") (VFun 2) VUndefined
            (unwrap (on (EvStr EmptyString) (VFun 1) VUndefined empty_world))).

(** [on('x', f1, obj7)] on a fresh registry. *)
Definition bound_world : world :=
  unwrap (on (EvStr "x") (VFun 1) (VObj 7) empty_world).

(** [once('x', f5); once('x', f5)] on a fresh registry. *)
Definition twin_world : world :=
  unwrap (once (EvStr "x") (VFun 5) VUndefined
            (unwrap (once (EvStr "x") (VFun 5) VUndefined empty_world))).

(** [once('x', f1); once('x', f2)] on a fresh registry. *)
Definition once_pair_world : world :=
  unwrap (once (EvStr "x") (VFun 2) VUndefined
            (unwrap (once (EvStr "x") (VFun 1) VUndefined empty_world))).

(** No function does anything. *)
Definition quiet_bodies : nat -> value -> list value -> world -> prog :=
  fun _ _ _ _ => Done.

(** [f1] takes the listeners of [f2] off ['x'], then clears ['x']. *)
Definition removing_bodies : nat -> value -> list value -> world -> prog :=
  fun f _ _ _ =>
    match f with
    | 1 => Call (OpOff (EvStr "x") (VFun 2) VUndefined false)
             (fun _ => Call (OpRemoveAllListeners (Some (EvStr "x"))) (fun _ => Done))
    | _ => Done
    end.

(** [f1] takes the listeners of [f2] off ['x']. *)
Definition taking_bodies : nat -> value -> list value -> world -> prog :=
  fun f _ _ _ =>
    match f with
    | 1 => Call (OpOff (EvStr "x") (VFun 2) VUndefined false) (fun _ => Done)
    | _ => Done
    end.

(** [f2] throws. *)
Definition throwing_bodies : nat -> value -> list value -> world -> prog :=
  fun f _ _ _ => match f with 2 => Raise (VStr "boom") | _ => Done end.

(** [f5] throws the [listenerCount] of ['x'] that it reads. *)
Definition counting_bodies : nat -> value -> list value -> world -> prog :=
  fun f _ _ _ =>
    match f with
    | 5 => Call (OpListenerCount (EvStr "x"))
             (fun r => match r with
                       | RCount n => Raise (VNum (Z.of_nat n))
                       | _ => Done
                       end)
    | _ => Done
    end.

(** Called with [1], [f1] emits ['x'] again, with [2]. *)
Definition reentrant_bodies : nat -> value -> list value -> world -> prog :=
  fun f _ args _ =>
    match f, args with
    | 1, [VNum 1%Z] => Call (OpEmit (EvStr "x") [VNum 2]) (fun _ => Done)
    | _, _ => Done
    end.

(** [f1] registers [f2] by [once]. *)
Definition adding_bodies : nat -> value -> list value -> world -> prog :=
  fun f _ _ _ =>
    match f with
    | 1 => Call (OpOnce (EvStr "x") (VFun 2) VUndefined) (fun _ => Done)
    | _ => Done
    end.

(** [f1] registers [f3] by [on]. *)
Definition adding_on_bodies : nat -> value -> list value -> world -> prog :=
  fun f _ _ _ =>
    match f with
    | 1 => Call (OpOn (EvStr "x") (VFun 3) VUndefined) (fun _ => Done)
    | _ => Done
    end.

(** ** The shape of a registry built by its operations *)

(** No two keys hold the same array. *)
Definition unshared (w : world) : Prop :=
  forall e1 e2 a,
    JsMap.get e1 (_events w) = Some a -> JsMap.get e2 (_events w) = Some a ->
    e1 = e2.

(** Every key holds an array of its own, which is not empty, and no key
    occurs twice. *)
Definition well_formed (w : world) : Prop :=
  table_ok w /\ unshared w /\ NoDup (eventNames w).

(** The listener that the registration [(f, context, one)] builds: by [once]
    if [one], by [on] if not. *)
Definition registered (reg : nat * value * bool) : EE.t :=
  let '(f, context, one) := reg in listener_for f context one.

(** Register [regs] for [evt], one after the other. *)
Fixpoint register_all (evt : EventName) (regs : list (nat * value * bool))
    (w : world) : world :=
  match regs with
  | [] => w
  | (f, context, one) :: rest =>
      register_all evt rest
        (unwrap ((if one then once else on) evt (VFun f) context w))
  end.

(** ** Bodies by the operations they use *)

Definition is_removal (o : op) : bool :=
  match o with
  | OpRemoveListener _ _ _ _ | OpOff _ _ _ _ | OpRemoveAllListeners _ => true
  | _ => false
  end.

Definition is_once (o : op) : bool :=
  match o with OpOnce _ _ _ => true | _ => false end.

(** The body calls the registry only by operations that [ok] admits; it may
    throw. *)
Inductive within (ok : op -> bool) : prog -> Prop :=
| within_done : within ok Done
| within_raise err : within ok (Raise err)
| within_call o k :
    ok o = true -> (forall r, within ok (k r)) -> within ok (Call o k).

Definition not_emit_nor_removal (o : op) : bool :=
  negb (is_emit o) && negb (is_removal o).

(** The functions of the one-shot listeners of [ls]. *)
Definition once_fns (ls : list EE.t) : list nat :=
  List.map EE.fn (List.filter EE.once ls).

(** No one-shot listener of [ls] has a function of [fs]. *)
Definition no_shot (fs : list nat) (ls : list EE.t) : Prop :=
  Forall (fun x => EE.once x = true -> ~ In (EE.fn x) fs) ls.

(** [emit(evt, ...args)] once for each argument list of [argss], in turn,
    going on after an [emit] that throws (the caller catching the error). *)
Fixpoint emit_series (bodies : nat -> value -> list value -> world -> prog)
    (fuel d : nat) (evt : EventName) (argss : list (list value)) (w : world)
    : option world :=
  match argss with
  | [] => Some w
  | args :: rest =>
      match emit bodies fuel d evt args w with
      | Returned _ w' | Threw _ w' => emit_series bodies fuel d evt rest w'
      | OutOfFuel => None
      end
  end.

(** What became of the listener [L] at position [i] of the sequence [seq]
    that an [emit] found, by the result [r] of that [emit]: if it returned,
    its own [i]-th call was the call of [L]; if it threw, it stopped at some
    position [k] having called the listeners up to [k], so [L] was called
    unless the listener that threw came before it. *)
Definition reaches (d : nat) (args : list value) (seq : list EE.t) (i : nat)
    (L : EE.t) (w : world) (r : outcome bool) : Prop :=
  match r with
  | Returned _ w' =>
      exists new, log w' = log w ++ new /\
        direct d new !! i = Some (Invoked L args d)
  | Threw _ w' =>
      exists new k, log w' = log w ++ new /\
        k < length seq /\
        direct d new = entries d args (take (S k) seq) /\
        (i <= k -> direct d new !! i = Some (Invoked L args d)) /\
        (k < i -> direct d new !! i = None)
  | OutOfFuel => True
  end.

(** [f1] takes the listeners of [f2] off ['x'] and throws. *)
Definition taking_and_throwing_bodies : nat -> value -> list value -> world -> prog :=
  fun f _ _ _ =>
    match f with
    | 1 => Call (OpOff (EvStr "x") (VFun 2) VUndefined false)
             (fun _ => Raise (VStr "boom"))
    | _ => Done
    end.

(** Called with [1], [f1] registers [f3] by [on] and emits ['x'] again, with
    [2]. *)
Definition adding_and_emitting_bodies : nat -> value -> list value -> world -> prog :=
  fun f _ args _ =>
    match f, args with
    | 1, [VNum 1%Z] =>
        Call (OpOn (EvStr "x") (VFun 3) VUndefined)
          (fun _ => Call (OpEmit (EvStr "x") [VNum 2]) (fun _ => Done))
    | _, _ => Done
    end.

(** [f1] registers [f3] by [on]; [f2] throws. *)
Definition adding_on_throwing_bodies : nat -> value -> list value -> world -> prog :=
  fun f _ _ _ =>
    match f with
    | 1 => Call (OpOn (EvStr "x") (VFun 3) VUndefined) (fun _ => Done)
    | 2 => Raise (VStr "boom")
    | _ => Done
    end.

(** [f1] reads [listenerCount('x')], takes the listeners of [f9] off ['x'],
    registers [f3] by [on]; [f2] throws when called with [1]. *)
Definition busy_bodies : nat -> value -> list value -> world -> prog :=
  fun f _ args _ =>
    match f, args with
    | 1, _ => Call (OpListenerCount (EvStr "x"))
                (fun _ => Call (OpOff (EvStr "x") (VFun 9) VUndefined false)
                   (fun _ => Call (OpOn (EvStr "x") (VFun 3) VUndefined) (fun _ => Done)))
    | 2, [VNum 1%Z] => Raise (VStr "boom")
    | _, _ => Done
    end.

(** [on('x', f1); on('x', f2)] on a fresh registry. *)
Definition on_pair_world : world :=
  unwrap (on (EvStr "x") (VFun 2) VUndefined
            (unwrap (on (EvStr "x") (VFun 1) VUndefined empty_world))).

(** ** One-shot functions, and registration from inside a body *)

(** Every operation but [once(evt, g)] for a function [g] of [F]. *)
Definition not_once_of (evt : EventName) (F : nat -> bool) (o : op) : bool :=
  match o with
  | OpOnce e (VFun g) _ => negb (bool_decide (e = evt) && F g)
  | _ => true
  end.

(** The functions of [F] among those of the one-shot listeners that the log
    segment [new] shows called at depth [d]. *)
Definition shots (F : nat -> bool) (d : nat) (new : list invocation) : list nat :=
  List.filter F (once_fns (List.map who (direct d new))).

(** The body, whichever way it goes, registers [g] for [evt] with context
    [c], by [once] if [one] and by [on] if not, after any operations but
    [emit]; from then on it neither removes nor calls [emit].  It may throw
    once it has registered. *)
Inductive registers (evt : EventName) (g : nat) (c : value) (one : bool)
    : prog -> Prop :=
| registers_now rest :
    (forall r, within not_emit_nor_removal (rest r)) ->
    registers evt g c one (Call (registration one evt g c) rest)
| registers_later o k :
    is_emit o = false -> (forall r, registers evt g c one (k r)) ->
    registers evt g c one (Call o k).

(** The body of the listener [l] neither removes nor calls [emit]; it may
    register, inspect and throw. *)
Definition adding_at (bodies : nat -> value -> list value -> world -> prog)
    (args : list value) (l : EE.t) : Prop :=
  forall w0, within not_emit_nor_removal (bodies (EE.fn l) (EE.context l) args w0).

(** [f2] registers itself again by [once]. *)
Definition renewing_bodies : nat -> value -> list value -> world -> prog :=
  fun f _ _ _ =>
    match f with
    | 2 => Call (OpOnce (EvStr "x") (VFun 2) VUndefined) (fun _ => Done)
    | _ => Done
    end.

(** [f1] registers [f3] by [on]; [f2] takes the listeners of [f3] off
    ['x']. *)
Definition adding_then_taking_bodies : nat -> value -> list value -> world -> prog :=
  fun f _ _ _ =>
    match f with
    | 1 => Call (OpOn (EvStr "x") (VFun 3) VUndefined) (fun _ => Done)
    | 2 => Call (OpOff (EvStr "x") (VFun 3) VUndefined false) (fun _ => Done)
    | _ => Done
    end.

(** [f1] takes the listeners of [f9] off ['x']; [f2] reads
    [listenerCount('x')], then registers [f3] by [on]; [f4] registers [f5]
    for ['y'] and throws. *)
Definition relaying_bodies : nat -> value -> list value -> world -> prog :=
  fun f _ _ _ =>
    match f with
    | 1 => Call (OpOff (EvStr "x") (VFun 9) VUndefined false) (fun _ => Done)
    | 2 => Call (OpListenerCount (EvStr "x"))
             (fun _ => Call (OpOn (EvStr "x") (VFun 3) VUndefined) (fun _ => Done))
    | 4 => Call (OpOn (EvStr "y") (VFun 5) VUndefined)
             (fun _ => Raise (VStr "boom"))
    | _ => Done
    end.

(** [on('x', f1); on('x', f2); once('x', f4)] on a fresh registry. *)
Definition trio_world : world :=
  unwrap (once (EvStr "x") (VFun 4) VUndefined on_pair_world).

(** ** The scenario of the specification *)

(** [on('x', f1); once('x', f2); emit('x', 1)]: both are called, [f1]
    stays. *)
Example scenario_on_once_emit :
  exists w3,
    emit quiet_bodies 1 0 (EvStr "x") [VNum 1] demo_world = Returned true w3 /\
    log w3 = [Invoked (EE.new 1 emitter false) [VNum 1] 0;
              Invoked (EE.new 2 emitter true) [VNum 1] 0] /\
    listeners (EvStr "x") w3 = [1] /\
    listenerCount (EvStr "x") w3 = 1.
Proof. eexists. repeat split; reflexivity. Qed.

(** ** Facts about the map *)

Module JsMapFacts.
Import JsMap.

Lemma has_get k m : has k m = true <-> exists a, get k m = Some a.
Proof.
  unfold has. destruct (get k m); split; eauto; try discriminate.
  intros [a Ha]. discriminate.
Qed.

Lemma has_false k m : has k m = false <-> get k m = None.
Proof. unfold has. destruct (get k m); split; congruence. Qed.

Lemma get_set_eq k v m : get k (set k v m) = Some v.
Proof.
  induction m as [|[k' v'] m IH]; simpl.
  - by rewrite decide_True.
  - destruct (decide (k = k')) as [->|Hne]; simpl.
    + by rewrite decide_True.
    + by rewrite decide_False.
Qed.

Lemma get_set_ne k k' v m : k' <> k -> get k' (set k v m) = get k' m.
Proof.
  intros Hne. induction m as [|[k0 v0] m IH]; simpl.
  - by rewrite decide_False.
  - destruct (decide (k = k0)) as [->|Hk]; simpl.
    + by rewrite !decide_False.
    + destruct (decide (k' = k0)); auto.
Qed.

Lemma get_delete_eq k m : get k (delete k m) = None.
Proof.
  induction m as [|[k0 v0] m IH]; simpl; auto.
  case_bool_decide; simpl; auto.
  by rewrite decide_False.
Qed.

Lemma get_delete_ne k k' m : k' <> k -> get k' (delete k m) = get k' m.
Proof.
  intros Hne. induction m as [|[k0 v0] m IH]; simpl; auto.
  case_bool_decide; simpl in *; subst.
  - by rewrite decide_False.
  - destruct (decide (k' = k0)); auto.
Qed.

Lemma get_Some_keys k a m : get k m = Some a -> In k (keys m).
Proof.
  induction m as [|[k0 v0] m IH]; simpl; [discriminate|].
  destruct (decide (k = k0)); auto.
Qed.

Lemma keys_get k m : In k (keys m) -> exists a, get k m = Some a.
Proof.
  induction m as [|[k0 v0] m IH]; simpl; [tauto|].
  intros [->|Hin].
  - rewrite decide_True; eauto.
  - destruct (decide (k = k0)); eauto.
Qed.

Lemma keys_delete k m :
  keys (delete k m) = List.filter (fun k' => negb (bool_decide (k' = k))) (keys m).
Proof.
  induction m as [|[k0 v0] m IH]; simpl; auto.
  case_bool_decide; simpl; by rewrite IH.
Qed.
End JsMapFacts.

(** ** How registration and removal act on a listener sequence *)

Lemma array_at_lookup w a ls : heap w !! a = Some ls -> array_at w a = ls.
Proof. unfold array_at. by intros ->. Qed.

Lemma listenerCount_sequence evt w : listenerCount evt w = length (sequence_of evt w).
Proof. unfold listenerCount, sequence_of. by destruct (JsMap.get _ _). Qed.

Lemma listeners_sequence evt w : listeners evt w = List.map EE.fn (sequence_of evt w).
Proof. unfold listeners, sequence_of. by destruct (JsMap.get _ _). Qed.

Lemma table_ok_empty : table_ok empty_world.
Proof. intros e a. discriminate. Qed.

Lemma table_ok_sequence evt w :
  table_ok w -> (JsMap.has evt (_events w) = true <-> sequence_of evt w <> []).
Proof.
  intros Hok. unfold sequence_of. rewrite JsMapFacts.has_get. split.
  - intros [a Ha]. rewrite Ha. destruct (Hok _ _ Ha) as (ls & Hls & Hne).
    by rewrite (array_at_lookup _ _ _ Hls).
  - destruct (JsMap.get _ _); eauto. congruence.
Qed.

Lemma addListener_function evt f context once w :
  table_ok w ->
  exists w', addListener evt (VFun f) context once w = Returned tt w' /\
    table_ok w' /\
    log w' = log w /\
    sequence_of evt w' = sequence_of evt w ++ [listener_for f context once] /\
    (forall a ls, heap w !! a = Some ls ->
       exists more, heap w' !! a = Some (ls ++ more)).
Proof.
  intros Hok. unfold addListener. fold (listener_for f context once).
  set (l := listener_for f context once).
  destruct (JsMap.has evt (_events w)) eqn:Hhas; simpl.
  - apply JsMapFacts.has_get in Hhas as [a Ha]. rewrite Ha.
    destruct (Hok _ _ Ha) as (ls & Hls & Hne).
    eexists; split; [reflexivity|]. repeat split.
    + intros e b Hb. simpl in Hb. destruct (Hok _ _ Hb) as (ls' & Hls' & Hne').
      simpl. destruct (decide (b = a)) as [->|Hba].
      * rewrite list_lookup_alter_eq, Hls'. simpl. eexists; split; eauto.
        by destruct ls'.
      * rewrite list_lookup_alter_ne by done. eauto.
    + unfold sequence_of, array_at. simpl. rewrite Ha.
      by rewrite list_lookup_alter_eq, Hls.
    + intros b ls' Hb. simpl. destruct (decide (b = a)) as [->|Hba].
      * rewrite list_lookup_alter_eq, Hb. simpl. eauto.
      * rewrite list_lookup_alter_ne by done. exists []. by rewrite app_nil_r.
  - apply JsMapFacts.has_false in Hhas.
    eexists; split; [reflexivity|]. repeat split.
    + intros e b. simpl. destruct (decide (e = evt)) as [->|Hne].
      * rewrite JsMapFacts.get_set_eq. intros [= <-].
        exists [l]. split; [|done].
        by rewrite lookup_app_r, Nat.sub_diag.
      * rewrite JsMapFacts.get_set_ne by done. intros Hb.
        destruct (Hok _ _ Hb) as (ls & Hls & Hnil). exists ls. split; [|done].
        by rewrite lookup_app_l by (by eapply lookup_lt_Some).
    + unfold sequence_of, array_at. simpl. rewrite JsMapFacts.get_set_eq, Hhas.
      by rewrite lookup_app_r, Nat.sub_diag.
    + intros b ls Hb. simpl. exists [].
      rewrite lookup_app_l by (by eapply lookup_lt_Some). by rewrite app_nil_r.
Qed.

Lemma addListener_not_function evt fn context once w :
  is_function fn = false ->
  addListener evt fn context once w
  = Threw (VTypeError "The listener must be a function") w.
Proof. by destruct fn. Qed.

Lemma removeListener_spec evt fn context once w :
  table_ok w ->
  let w' := removeListener evt fn context once w in
  table_ok w' /\
  log w' = log w /\
  sequence_of evt w' = after_removal fn context once (sequence_of evt w) /\
  (forall e, e <> evt -> sequence_of e w' = sequence_of e w) /\
  (forall a ls, heap w !! a = Some ls -> heap w' !! a = Some ls).
Proof.
  intros Hok. unfold removeListener, after_removal, sequence_of.
  assert (Hclear : forall e b, JsMap.get e (JsMap.delete evt (_events w)) = Some b ->
            exists ls, heap w !! b = Some ls /\ ls <> []).
  { intros e b. destruct (decide (e = evt)) as [->|Hne].
    - by rewrite JsMapFacts.get_delete_eq.
    - rewrite JsMapFacts.get_delete_ne by done. apply Hok. }
  destruct (JsMap.has evt (_events w)) eqn:Hhas; simpl.
  2:{ apply JsMapFacts.has_false in Hhas. rewrite Hhas.
      repeat split; auto. by destruct (truthy fn). }
  apply JsMapFacts.has_get in Hhas as [a Ha]. rewrite Ha.
  destruct (Hok _ _ Ha) as (ls & Hls & Hnil).
  rewrite (array_at_lookup _ _ _ Hls).
  destruct (truthy fn) eqn:Hfn; simpl.
  2:{ repeat split; auto.
      - by rewrite JsMapFacts.get_delete_eq.
      - intros e Hne. by rewrite JsMapFacts.get_delete_ne. }
  destruct (List.filter _ ls) as [|x kept] eqn:Hkept; simpl.
  { repeat split; auto.
    - by rewrite JsMapFacts.get_delete_eq.
    - intros e Hne. by rewrite JsMapFacts.get_delete_ne. }
  repeat split.
  - intros e b. simpl. destruct (decide (e = evt)) as [->|Hne].
    + rewrite JsMapFacts.get_set_eq. intros [= <-].
      exists (x :: kept). split; [|done]. by rewrite lookup_app_r, Nat.sub_diag.
    + rewrite JsMapFacts.get_set_ne by done. intros Hb.
      destruct (Hok _ _ Hb) as (ls' & Hls' & Hnil'). exists ls'. split; [|done].
      by rewrite lookup_app_l by (by eapply lookup_lt_Some).
  - simpl. rewrite JsMapFacts.get_set_eq. unfold array_at. simpl.
    by rewrite lookup_app_r, Nat.sub_diag.
  - intros e Hne. simpl. rewrite JsMapFacts.get_set_ne by done.
    destruct (JsMap.get e (_events w)) as [b|] eqn:Hb; [|done].
    destruct (Hok _ _ Hb) as (ls' & Hls' & _). unfold array_at. simpl.
    by rewrite lookup_app_l by (by eapply lookup_lt_Some).
  - intros b ls' Hb. simpl. by rewrite lookup_app_l by (by eapply lookup_lt_Some).
Qed.

(** ** What every operation preserves *)

Lemma heap_kept_refl w : heap_kept w w.
Proof. intros a ls H. exists []. by rewrite app_nil_r. Qed.

Lemma heap_kept_trans w1 w2 w3 : heap_kept w1 w2 -> heap_kept w2 w3 -> heap_kept w1 w3.
Proof.
  intros H12 H23 a ls H. destruct (H12 _ _ H) as [m1 H1].
  destruct (H23 _ _ H1) as [m2 H2]. exists (m1 ++ m2). by rewrite app_assoc.
Qed.

Lemma log_grown_refl d w : log_grown d w w.
Proof. exists []. by rewrite app_nil_r. Qed.

Lemma log_grown_trans d w1 w2 w3 : log_grown d w1 w2 -> log_grown d w2 w3 -> log_grown d w1 w3.
Proof.
  intros (n1 & H1 & F1) (n2 & H2 & F2). exists (n1 ++ n2). split.
  - by rewrite H2, H1, app_assoc.
  - by apply Forall_app.
Qed.

Lemma log_grown_le d d' w w' : d' <= d -> log_grown d w w' -> log_grown d' w w'.
Proof.
  intros Hle (n & H & F). exists n. split; [done|].
  eapply Forall_impl; [exact F|]. simpl. intros; lia.
Qed.

Lemma evolves_refl d w : table_ok w -> evolves d w w.
Proof. intros H. split; [done|]. split; [apply heap_kept_refl|apply log_grown_refl]. Qed.

Lemma evolves_trans d w1 w2 w3 : evolves d w1 w2 -> evolves d w2 w3 -> evolves d w1 w3.
Proof.
  intros (_ & H1 & L1) (T & H2 & L2). split; [done|]. split.
  - by eapply heap_kept_trans.
  - by eapply log_grown_trans.
Qed.

Lemma evolves_le d d' w w' : d' <= d -> evolves d w w' -> evolves d' w w'.
Proof. intros Hle (T & H & L). repeat split; auto. by eapply log_grown_le. Qed.

Lemma addListener_sound d evt fn context once w :
  table_ok w -> sound d w (addListener evt fn context once w).
Proof.
  intros Hok. destruct (is_function fn) eqn:Hfn.
  - destruct fn; try discriminate.
    destruct (addListener_function evt id context once w Hok)
      as (w' & -> & T & L & _ & H).
    simpl. repeat split; auto. exists []. by rewrite L, app_nil_r.
  - rewrite addListener_not_function by done. by apply evolves_refl.
Qed.

Lemma removeListener_evolves d evt fn context once w :
  table_ok w -> evolves d w (removeListener evt fn context once w).
Proof.
  intros Hok.
  destruct (removeListener_spec evt fn context once w Hok) as (T & L & _ & _ & H).
  repeat split; auto.
  - intros a ls Ha. exists []. rewrite app_nil_r. auto.
  - exists []. by rewrite L, app_nil_r.
Qed.

Lemma clearEvent_ok evt w : table_ok w -> table_ok (clearEvent evt w).
Proof.
  intros Hok e a. simpl. destruct (decide (e = evt)) as [->|Hne].
  - by rewrite JsMapFacts.get_delete_eq.
  - rewrite JsMapFacts.get_delete_ne by done. apply Hok.
Qed.

Lemma removeAllListeners_ok evt w : table_ok w -> table_ok (removeAllListeners evt w).
Proof.
  intros Hok. unfold removeAllListeners.
  destruct (event_given evt).
  - destruct evt as [e|]; [|done].
    destruct (JsMap.has e (_events w)); [by apply clearEvent_ok|done].
  - intros e a. discriminate.
Qed.

Lemma removeAllListeners_evolves d evt w :
  table_ok w -> evolves d w (removeAllListeners evt w).
Proof.
  intros Hok. split; [by apply removeAllListeners_ok|].
  assert (heap (removeAllListeners evt w) = heap w /\
          log (removeAllListeners evt w) = log w) as [Hh Hl].
  { unfold removeAllListeners. destruct (event_given evt); [|done].
    destruct evt as [e|]; [|done]. by destruct (JsMap.has e (_events w)). }
  split.
  - intros a ls Ha. exists []. by rewrite app_nil_r, Hh.
  - exists []. by rewrite Hl, app_nil_r.
Qed.

Lemma direct_deeper d new : Forall (fun i => S d <= depth i) new -> direct d new = [].
Proof.
  induction 1 as [|i new Hi _ IH]; simpl; [done|].
  destruct (Nat.eqb_spec (depth i) d); [lia|done].
Qed.

Lemma direct_app d l1 l2 : direct d (l1 ++ l2) = direct d l1 ++ direct d l2.
Proof. apply List.filter_app. Qed.

Section Soundness.
Variable bodies : nat -> value -> list value -> world -> prog.
Variable emit_rec : nat -> EventName -> list value -> world -> outcome bool.
Hypothesis rec_sound :
  forall d evt args w, table_ok w -> sound d w (emit_rec d evt args w).

Lemma perform_sound d o w r w' :
  table_ok w -> perform emit_rec d o w = Some (r, w') -> evolves d w w'.
Proof.
  intros Hok. destruct o; simpl.
  1-3: unfold addListener_method, on, once;
    match goal with |- context [addListener ?e ?f ?c ?o ?x] =>
      pose proof (addListener_sound d e f c o x Hok) as Hs;
      destruct (addListener e f c o x); simpl in *; intros [= <- <-]; auto end.
  1-2: intros [= <- <-]; by apply removeListener_evolves.
  - intros [= <- <-]. by apply removeAllListeners_evolves.
  - pose proof (rec_sound d evt args w Hok) as Hs.
    destruct (emit_rec d evt args w); simpl in *; intros [= <- <-]; auto.
  - intros [= <- <-]. by apply evolves_refl.
  - intros [= <- <-]. by apply evolves_refl.
  - intros [= <- <-]. by apply evolves_refl.
Qed.

Lemma run_sound p : forall d w, table_ok w -> sound d w (run emit_rec d p w).
Proof.
  induction p as [| |o k IH]; intros d w Hok; simpl.
  - by apply evolves_refl.
  - by apply evolves_refl.
  - destruct (perform emit_rec d o w) as [[r w1]|] eqn:Hp; [|done].
    pose proof (perform_sound _ _ _ _ _ Hok Hp) as H1.
    specialize (IH r d w1 (proj1 H1)).
    destruct (run emit_rec d (k r) w1); simpl in *; auto;
      by eapply evolves_trans.
Qed.

Lemma select_spec evt l w :
  table_ok w ->
  table_ok (select evt l w) /\
  log (select evt l w) = log w /\
  (forall a ls, heap w !! a = Some ls -> heap (select evt l w) !! a = Some ls).
Proof.
  intros Hok. unfold select. destruct (EE.once l); [|done].
  destruct (removeListener_spec evt (VFun (EE.fn l)) VUndefined true w Hok)
    as (T & L & _ & _ & H).
  auto.
Qed.

(** A call writes its own entry, then only deeper ones. *)
Lemma call_spec d l args w :
  table_ok w ->
  match call bodies emit_rec d l args w with
  | Returned _ w' | Threw _ w' =>
      table_ok w' /\ heap_kept w w' /\
      exists new, log w' = log w ++ Invoked l args d :: new /\
                  Forall (fun i => S d <= depth i) new
  | OutOfFuel => True
  end.
Proof.
  intros Hok. unfold call.
  set (w0 := record (Invoked l args d) w).
  assert (Hok0 : table_ok w0) by exact Hok.
  pose proof (run_sound (bodies (EE.fn l) (EE.context l) args w0) (S d) w0 Hok0) as Hs.
  destruct (run emit_rec (S d) _ w0) as [x w'|err w'|]; simpl in Hs; [| |done].
  all: destruct Hs as (T & H & new & L & F); repeat split; auto.
  all: exists new; split; [|done]; rewrite L; simpl; by rewrite <- app_assoc.
Qed.

Lemma emit_loop_spec d evt args a ls :
  forall r i w more,
    table_ok w -> heap w !! a = Some (ls ++ more) -> i + r = length ls ->
    match emit_loop bodies emit_rec d evt args a r i w with
    | Returned b w' =>
        b = true /\ table_ok w' /\ heap_kept w w' /\
        dispatched d args (drop i ls) w w'
    | Threw err w' =>
        table_ok w' /\ heap_kept w w' /\
        exists k, k < r /\ dispatched d args (take (S k) (drop i ls)) w w' /\
          exists l wk, ls !! (i + k) = Some l /\
            call bodies emit_rec d l args wk = Threw err w'
    | OutOfFuel => True
    end.
Proof.
  induction r as [|r IH]; intros i w more Hok Ha Hlen; simpl.
  - repeat split; auto using heap_kept_refl.
    exists []. rewrite app_nil_r, drop_ge by lia. by repeat split.
  - rewrite (array_at_lookup _ _ _ Ha).
    destruct (lookup_lt_is_Some_2 ls i) as [l Hl]; [lia|].
    rewrite (lookup_app_l_Some _ _ _ _ Hl).
    destruct (select_spec evt l w Hok) as (T1 & L1 & H1).
    pose proof (call_spec d l args (select evt l w) T1) as Hc.
    rewrite (drop_S _ _ _ Hl).
    destruct (call bodies emit_rec d l args (select evt l w))
    as [x w2|err w2|] eqn:Hcall; [| |done].
    + destruct Hc as (T2 & H2 & new & L2 & F2).
      destruct (H2 _ _ (H1 _ _ Ha)) as [m2 Ha2].
      rewrite <- app_assoc in Ha2.
      specialize (IH (S i) w2 _ T2 Ha2 ltac:(lia)).
      assert (H02 : heap_kept w w2).
      { intros b lb Hb. apply H2, H1, Hb. }
      assert (Hd : forall tl, direct d (Invoked l args d :: new ++ tl)
                     = Invoked l args d :: direct d tl).
      { intros tl. simpl. rewrite Nat.eqb_refl, direct_app.
        by rewrite (direct_deeper _ _ F2). }
      assert (Hf : Forall (fun i => d <= depth i) (Invoked l args d :: new)).
      { constructor; [simpl; lia|]. eapply Forall_impl; [exact F2|].
        simpl; intros; lia. }
      destruct (emit_loop bodies emit_rec d evt args a r (S i) w2)
        as [b w3|err w3|]; [| |done].
      * destruct IH as (-> & T3 & H3 & n3 & L3 & D3 & F3).
        repeat split; auto. { by eapply heap_kept_trans. }
        exists ((Invoked l args d :: new) ++ n3). repeat split.
        -- by rewrite L3, L2, L1, <- !app_assoc.
        -- simpl app. rewrite Hd, D3. done.
        -- by apply Forall_app.
      * destruct IH as (T3 & H3 & k & Hk & (n3 & L3 & D3 & F3) & l' & wk & Hl' & Hk').
      repeat split; auto. { by eapply heap_kept_trans. }
      exists (S k). split; [lia|]. split.
      -- exists ((Invoked l args d :: new) ++ n3). repeat split.
         ++ by rewrite L3, L2, L1, <- !app_assoc.
         ++ simpl app. rewrite Hd, D3. done.
         ++ by apply Forall_app.
      -- exists l', wk. split; [|done]. by replace (i + S k) with (S i + k) by lia.
    + destruct Hc as (T2 & H2 & new & L2 & F2).
      repeat split; auto.
      { intros b lb Hb. apply H2, H1, Hb. }
      exists 0. split; [lia|]. split.
    * exists (Invoked l args d :: new). repeat split.
      -- by rewrite L2, L1.
      -- simpl. rewrite Nat.eqb_refl. fold (direct d new).
         by rewrite (direct_deeper _ _ F2).
      -- constructor; [simpl; lia|]. eapply Forall_impl; [exact F2|].
         simpl; intros; lia.
    * exists l, (select evt l w). by rewrite Nat.add_0_r.
Qed.

Lemma emit_body_spec d evt args w :
  table_ok w ->
  match emit_body bodies emit_rec d evt args w with
  | Returned b w' =>
      b = negb (Nat.eqb (listenerCount evt w) 0) /\
      table_ok w' /\ heap_kept w w' /\
      dispatched d args (sequence_of evt w) w w'
  | Threw err w' =>
    table_ok w' /\ heap_kept w w' /\
    exists k, k < listenerCount evt w /\
      dispatched d args (take (S k) (sequence_of evt w)) w w' /\
      exists l wk, sequence_of evt w !! k = Some l /\
        call bodies emit_rec d l args wk = Threw err w'
  | OutOfFuel => True
  end.
Proof.
  intros Hok. unfold emit_body, listenerCount, sequence_of.
  destruct (JsMap.get evt (_events w)) as [a|] eqn:Ha.
  2:{ repeat split; auto using heap_kept_refl.
      exists []. by rewrite app_nil_r. }
  destruct (Hok _ _ Ha) as (ls & Hls & Hne).
  rewrite (array_at_lookup _ _ _ Hls).
  destruct (Nat.eqb_spec (length ls) 0) as [H0|H0].
  { destruct ls; [done|discriminate]. }
  pose proof (emit_loop_spec d evt args a ls (length ls) 0 w [] Hok) as Hl.
  rewrite app_nil_r in Hl. specialize (Hl Hls eq_refl).
  rewrite drop_0 in Hl.
  destruct (emit_loop bodies emit_rec d evt args a (length ls) 0 w); auto.
Qed.
End Soundness.

(** ** Dispatch, for arbitrary listener bodies *)

Lemma dispatched_sound d args ls w w' :
  table_ok w' -> heap_kept w w' ->
  dispatched d args ls w w' -> evolves d w w'.
Proof.
  intros T H (new & L & _ & F). repeat split; auto. by exists new.
Qed.

Lemma emit_sound bodies fuel :
  forall d evt args w, table_ok w -> sound d w (emit bodies fuel d evt args w).
Proof.
  induction fuel as [|fuel IH]; intros d evt args w Hok; [done|].
  simpl. pose proof (emit_body_spec bodies (emit bodies fuel) IH d evt args w Hok) as Hs.
  destruct (emit_body bodies (emit bodies fuel) d evt args w); simpl; [| |done].
  - destruct Hs as (_ & T & H & D). by eapply dispatched_sound.
  - destruct Hs as (T & H & k & _ & D & _). by eapply dispatched_sound.
Qed.

(** Whatever the bodies do, an [emit] call that comes back called the
    listeners of the sequence it found, in order, and nothing else itself;
    one that throws stopped at the listener whose call threw. *)
Lemma emit_dispatch bodies fuel d evt args w :
  table_ok w ->
  match emit bodies (S fuel) d evt args w with
  | Returned b w' =>
      b = negb (Nat.eqb (listenerCount evt w) 0) /\
      table_ok w' /\ heap_kept w w' /\
      dispatched d args (sequence_of evt w) w w'
  | Threw err w' =>
      table_ok w' /\ heap_kept w w' /\
      exists k, k < listenerCount evt w /\
        dispatched d args (take (S k) (sequence_of evt w)) w w' /\
        exists l wk, sequence_of evt w !! k = Some l /\
          call bodies (emit bodies fuel) d l args wk = Threw err w'
  | OutOfFuel => True
  end.
Proof.
  intros Hok. simpl.
  apply (emit_body_spec bodies (emit bodies fuel) (emit_sound bodies fuel)); auto.
Qed.

Lemma table_okb_sound w : table_okb w = true -> table_ok w.
Proof.
  unfold table_okb, table_ok. intros Hall e a Hget.
  assert (Hin : In (e, a) (_events w)).
  { clear Hall. induction (_events w) as [|[k v] m IH]; simpl in *; [discriminate|].
    destruct (decide (e = k)) as [->|]; [left; congruence|right; auto]. }
  rewrite forallb_forall in Hall. specialize (Hall _ Hin). simpl in Hall.
  destruct (heap w !! a) as [[|x ls]|]; try discriminate. by exists (x :: ls).
Qed.

Lemma sequence_of_lookup evt w ls :
  sequence_of evt w = ls -> ls <> [] ->
  exists a, JsMap.get evt (_events w) = Some a /\ heap w !! a = Some ls.
Proof.
  unfold sequence_of, array_at. intros Hs Hne.
  destruct (JsMap.get evt (_events w)) as [a|]; [|congruence].
  exists a. split; [done|]. destruct (heap w !! a); simpl in *; congruence.
Qed.

(** ** Bodies that stay out of [emit], bodies that never throw *)

Lemma removeAllListeners_frame evt w :
  heap (removeAllListeners evt w) = heap w /\
  log (removeAllListeners evt w) = log w.
Proof.
  unfold removeAllListeners. destruct (event_given evt); [|done].
  destruct evt as [e|]; [|done]. by destruct (JsMap.has e (_events w)).
Qed.

Section Local.
Variable emit_rec : nat -> EventName -> list value -> world -> outcome bool.

Lemma perform_local d o w :
  is_emit o = false -> table_ok w ->
  exists r w', perform emit_rec d o w = Some (r, w') /\
    table_ok w' /\ heap_kept w w' /\ log w' = log w.
Proof.
  intros Ho Hok. destruct o; try discriminate; simpl.
  1-3: unfold addListener_method, on, once;
    match goal with |- context [addListener ?e ?f ?c ?o ?x] =>
      destruct (is_function f) eqn:Hf;
      [ destruct f; try discriminate;
        destruct (addListener_function e id c o x Hok) as (w' & -> & T & L & _ & H);
        simpl; eauto 10
      | rewrite (addListener_not_function e f c o x Hf); simpl;
        eauto 10 using heap_kept_refl ] end.
  1-2: unfold off; match goal with |- context [removeListener ?e ?f ?c ?o ?x] =>
      destruct (removeListener_spec e f c o x Hok) as (T & L & _ & _ & H) end;
    do 2 eexists; split; [reflexivity|]; repeat split; auto;
    intros a ls Ha; exists []; rewrite app_nil_r; auto.
  - destruct (removeAllListeners_frame evt w) as [Hh Hl].
    do 2 eexists; split; [reflexivity|]. repeat split; auto.
    + by apply removeAllListeners_ok.
    + intros a ls Ha. exists []. by rewrite app_nil_r, Hh.
  - eauto 10 using heap_kept_refl.
  - eauto 10 using heap_kept_refl.
  - eauto 10 using heap_kept_refl.
Qed.

Lemma run_no_raise d p : no_raise p -> forall w err w', run emit_rec d p w <> Threw err w'.
Proof.
  induction 1 as [|o k _ IH]; intros w err w'; simpl; [discriminate|].
  destruct (perform emit_rec d o w) as [[r w1]|]; [apply IH|discriminate].
Qed.

(** A body that stays out of [emit] always comes back, and logs nothing. *)
Lemma run_local d p :
  no_emit p -> forall w, table_ok w ->
  exists w', (run emit_rec d p w = Returned tt w' \/
              exists err, run emit_rec d p w = Threw err w') /\
    table_ok w' /\ heap_kept w w' /\ log w' = log w.
Proof.
  induction 1 as [|err|o k Ho _ IH]; intros w Hok; simpl.
  - exists w. eauto using heap_kept_refl.
  - exists w. eauto 10 using heap_kept_refl.
  - destruct (perform_local d o w Ho Hok) as (r & w1 & -> & T1 & H1 & L1).
    destruct (IH r w1 T1) as (w' & Hrun & T & H & L).
    exists w'. repeat split; auto.
    + by eapply heap_kept_trans.
    + congruence.
Qed.

Lemma run_tame d p w :
  tame p -> table_ok w ->
  exists w', run emit_rec d p w = Returned tt w' /\
    table_ok w' /\ heap_kept w w' /\ log w' = log w.
Proof.
  intros [Hne Hnr] Hok.
  destruct (run_local d p Hne w Hok) as (w' & [Hrun|[err Hrun]] & Hrest).
  - eauto.
  - by apply run_no_raise in Hrun.
Qed.
End Local.

(** ** Dispatch over tame bodies always completes *)

Lemma quiet_tame bodies args l : quiet_at bodies args l -> tame_at bodies args l.
Proof. intros H w0. rewrite H. split; constructor. Qed.

Section Tame.
Variable bodies : nat -> value -> list value -> world -> prog.
Variable emit_rec : nat -> EventName -> list value -> world -> outcome bool.

Lemma call_tame d l args w :
  tame_at bodies args l -> table_ok w ->
  exists w', call bodies emit_rec d l args w = Returned tt w' /\
    table_ok w' /\ heap_kept w w' /\ log w' = log w ++ [Invoked l args d].
Proof.
  intros Ht Hok. unfold call.
  set (w0 := record (Invoked l args d) w).
  destruct (run_tame emit_rec (S d) _ w0 (Ht w0) Hok) as (w' & -> & T & H & L).
  exists w'. auto.
Qed.

Lemma emit_loop_tame d evt args a ls :
  Forall (tame_at bodies args) ls ->
  forall r i w more,
    table_ok w -> heap w !! a = Some (ls ++ more) -> i + r = length ls ->
    exists w', emit_loop bodies emit_rec d evt args a r i w = Returned true w' /\
      table_ok w' /\ heap_kept w w' /\
      log w' = log w ++ entries d args (drop i ls).
Proof.
  intros Hall. induction r as [|r IH]; intros i w more Hok Ha Hlen; simpl.
  - exists w. rewrite drop_ge by lia. simpl. rewrite app_nil_r.
    auto using heap_kept_refl.
  - rewrite (array_at_lookup _ _ _ Ha).
    destruct (lookup_lt_is_Some_2 ls i) as [l Hl]; [lia|].
    rewrite (lookup_app_l_Some _ _ _ _ Hl), (drop_S _ _ _ Hl).
    destruct (select_spec evt l w Hok) as (T1 & L1 & H1).
    assert (Hl' : tame_at bodies args l).
    { rewrite Forall_forall in Hall. apply Hall. by eapply list_elem_of_lookup_2. }
    destruct (call_tame d l args _ Hl' T1) as (w2 & -> & T2 & H2 & L2).
    destruct (H2 _ _ (H1 _ _ Ha)) as [m2 Ha2]. rewrite <- app_assoc in Ha2.
    destruct (IH (S i) w2 _ T2 Ha2 ltac:(lia)) as (w3 & -> & T3 & H3 & L3).
    exists w3. repeat split; auto.
    + eapply heap_kept_trans; [|exact H3]. intros b lb Hb. apply H2, H1, Hb.
    + rewrite L3, L2, L1. simpl. by rewrite <- app_assoc.
Qed.
End Tame.

(** With tame bodies, [emit] calls every listener of the sequence it finds,
    in order, and returns [true]. *)
Lemma emit_tame bodies fuel d evt args w ls :
  table_ok w -> sequence_of evt w = ls -> ls <> [] ->
  Forall (tame_at bodies args) ls ->
  exists w', emit bodies (S fuel) d evt args w = Returned true w' /\
    table_ok w' /\ heap_kept w w' /\ log w' = log w ++ entries d args ls.
Proof.
  intros Hok Hseq Hne Hall.
  destruct (sequence_of_lookup _ _ _ Hseq Hne) as (a & Ha & Hls).
  simpl. unfold emit_body. rewrite Ha, (array_at_lookup _ _ _ Hls).
  destruct (Nat.eqb_spec (length ls) 0) as [H0|H0].
  { destruct ls; [done|discriminate]. }
  apply (emit_loop_tame bodies (emit bodies fuel) d evt args a ls Hall
           (length ls) 0 w []); auto.
  by rewrite app_nil_r.
Qed.

(** ** Dispatch over quiet bodies, in closed form *)

Lemma filter_all {A} (P : A -> bool) (l : list A) :
  (forall x, In x l -> P x = true) -> List.filter P l = l.
Proof.
  induction l as [|x l IH]; simpl; intros H; [done|].
  rewrite (H x) by auto. f_equal. auto.
Qed.

Lemma filter_twice {A} (P Q : A -> bool) (l : list A) :
  List.filter P (List.filter Q l) = List.filter (fun x => Q x && P x) l.
Proof.
  induction l as [|x l IH]; simpl; [done|].
  destruct (Q x); simpl; [destruct (P x)|]; by rewrite IH.
Qed.

Lemma strict_neq_fun f g : strict_neq (VFun f) (VFun g) = negb (Nat.eqb f g).
Proof.
  simpl. f_equal. destruct (Nat.eqb_spec f g) as [->|Hne].
  - by rewrite bool_decide_eq_true_2.
  - rewrite bool_decide_eq_false_2; [done|]. congruence.
Qed.

Lemma retained_one_shot l x :
  EE.once l = true ->
  retained (VFun (EE.fn l)) VUndefined true x = spared_by l x.
Proof.
  intros Hl. unfold retained, spared_by. rewrite strict_neq_fun, Hl. simpl.
  destruct (Nat.eqb _ _), (EE.once x); reflexivity.
Qed.

Lemma retained_taken f context o l :
  retained (VFun f) context o l = negb (taken f context o l).
Proof.
  unfold retained, taken. rewrite strict_neq_fun.
  destruct (Nat.eqb (EE.fn l) f); simpl; [|done].
  assert (Hc : truthy context = true ->
               strict_neq (EE.context l) context = negb (bool_decide (EE.context l = context))).
  { intros Ht. destruct context; try discriminate; destruct (EE.context l);
      simpl; try reflexivity; by rewrite bool_decide_eq_false_2. }
  destruct o, (EE.once l), (truthy context); simpl; auto;
    rewrite ?Hc by done; by destruct (bool_decide _).
Qed.

Lemma select_sequence evt l w :
  table_ok w ->
  sequence_of evt (select evt l w) = List.filter (spared_by l) (sequence_of evt w) /\
  (forall e, e <> evt -> sequence_of e (select evt l w) = sequence_of e w).
Proof.
  intros Hok. unfold select. destruct (EE.once l) eqn:Hl.
  - destruct (removeListener_spec evt (VFun (EE.fn l)) VUndefined true w Hok)
      as (_ & _ & S & O & _).
    split; [|done]. rewrite S. unfold after_removal. simpl.
    apply List.filter_ext. intros x. by apply retained_one_shot.
  - split; [|done]. symmetry. apply filter_all. intros x _.
    unfold spared_by. by rewrite Hl.
Qed.

Lemma pass_spec d evt args l w :
  table_ok w ->
  table_ok (pass d evt args l w) /\
  log (pass d evt args l w) = log w ++ [Invoked l args d] /\
  (forall a ls, heap w !! a = Some ls -> heap (pass d evt args l w) !! a = Some ls) /\
  sequence_of evt (pass d evt args l w) = List.filter (spared_by l) (sequence_of evt w) /\
  (forall e, e <> evt -> sequence_of e (pass d evt args l w) = sequence_of e w).
Proof.
  intros Hok. destruct (select_spec evt l w Hok) as (T & L & H).
  destruct (select_sequence evt l w Hok) as (S & O).
  unfold pass. repeat split; auto. simpl. by rewrite L.
Qed.

Lemma sweep_spec d evt args seg :
  forall w, table_ok w ->
  table_ok (sweep d evt args seg w) /\
  log (sweep d evt args seg w) = log w ++ entries d args seg /\
  (forall a ls, heap w !! a = Some ls -> heap (sweep d evt args seg w) !! a = Some ls) /\
  sequence_of evt (sweep d evt args seg w) = List.filter (outlives seg) (sequence_of evt w) /\
  (forall e, e <> evt -> sequence_of e (sweep d evt args seg w) = sequence_of e w).
Proof.
  induction seg as [|l seg IH]; intros w Hok.
  - simpl. rewrite app_nil_r. repeat split; auto.
    symmetry. by apply filter_all.
  - change (sweep d evt args (l :: seg) w)
      with (sweep d evt args seg (pass d evt args l w)).
    destruct (pass_spec d evt args l w Hok) as (T1 & L1 & H1 & S1 & O1).
    destruct (IH _ T1) as (T2 & L2 & H2 & S2 & O2).
    repeat split; auto.
    + rewrite L2, L1. simpl. by rewrite <- app_assoc.
    + rewrite S2, S1. apply filter_twice.
    + intros e He. rewrite O2, O1; auto.
Qed.

Lemma sweep_app d evt args s1 s2 w :
  sweep d evt args (s1 ++ s2) w = sweep d evt args s2 (sweep d evt args s1 w).
Proof. apply fold_left_app. Qed.

Section Quiet.
Variable bodies : nat -> value -> list value -> world -> prog.
Variable emit_rec : nat -> EventName -> list value -> world -> outcome bool.

Lemma call_quiet d l args w :
  quiet_at bodies args l ->
  call bodies emit_rec d l args w = Returned tt (record (Invoked l args d) w).
Proof. intros H. unfold call. by rewrite H. Qed.

(** The loop runs through a quiet segment of the captured array as [sweep]. *)
Lemma emit_loop_quiet d evt args a seg :
  Forall (quiet_at bodies args) seg ->
  forall r i w,
    table_ok w ->
    (forall j l, seg !! j = Some l -> array_at w a !! (i + j) = Some l) ->
    emit_loop bodies emit_rec d evt args a (length seg + r) i w
    = emit_loop bodies emit_rec d evt args a r (i + length seg) (sweep d evt args seg w).
Proof.
  induction 1 as [|l seg Hl _ IH]; intros r i w Hok Hat.
  - simpl. by rewrite Nat.add_0_r.
  - change (sweep d evt args (l :: seg) w)
      with (sweep d evt args seg (pass d evt args l w)).
    simpl. pose proof (Hat 0 l eq_refl) as H0. rewrite Nat.add_0_r in H0. rewrite H0.
    rewrite (call_quiet d l args _ Hl). fold (pass d evt args l w).
    destruct (pass_spec d evt args l w Hok) as (T1 & _ & H1 & _).
    rewrite IH; auto.
    + by replace (S i + length seg) with (i + S (length seg)) by lia.
    + intros j x Hj. specialize (Hat (S j) x Hj).
      replace (S i + j) with (i + S j) by lia.
      unfold array_at in *. destruct (heap w !! a) as [ls|] eqn:Ha.
      * by rewrite (H1 _ _ Ha).
      * simpl in Hat. by rewrite lookup_nil in Hat.
Qed.
End Quiet.

Lemma emit_quiet bodies fuel d evt args w ls :
  table_ok w -> sequence_of evt w = ls -> ls <> [] ->
  Forall (quiet_at bodies args) ls ->
  emit bodies (S fuel) d evt args w = Returned true (sweep d evt args ls w).
Proof.
  intros Hok Hseq Hne Hall.
  destruct (sequence_of_lookup _ _ _ Hseq Hne) as (a & Ha & Hls).
  simpl. unfold emit_body. rewrite Ha, (array_at_lookup _ _ _ Hls).
  destruct (Nat.eqb_spec (length ls) 0) as [H0|H0].
  { destruct ls; [done|discriminate]. }
  pose proof (emit_loop_quiet bodies (emit bodies fuel) d evt args a ls Hall 0 0 w Hok) as Hq.
  rewrite Nat.add_0_r in Hq. rewrite Hq; [done|].
  intros j l Hj. by rewrite (array_at_lookup _ _ _ Hls).
Qed.

Lemma emit_loop_step bodies emit_rec d evt args a r i w l :
  array_at w a !! i = Some l ->
  emit_loop bodies emit_rec d evt args a (S r) i w
  = match call bodies emit_rec d l args (select evt l w) with
    | Returned _ w' => emit_loop bodies emit_rec d evt args a r (S i) w'
    | Threw err w' => Threw err w'
    | OutOfFuel => OutOfFuel
    end.
Proof. intros H. simpl. by rewrite H. Qed.

Lemma emit_loop_quiet_all bodies emit_rec d evt args a seg i w :
  Forall (quiet_at bodies args) seg ->
  table_ok w ->
  (forall j l, seg !! j = Some l -> array_at w a !! (i + j) = Some l) ->
  emit_loop bodies emit_rec d evt args a (length seg) i w
  = Returned true (sweep d evt args seg w).
Proof.
  intros Hq Hok Hat.
  pose proof (emit_loop_quiet bodies emit_rec d evt args a seg Hq 0 i w Hok Hat) as H.
  by rewrite Nat.add_0_r in H.
Qed.

Lemma outlives_app s1 s2 x : outlives (s1 ++ s2) x = outlives s1 x && outlives s2 x.
Proof. apply forallb_app. Qed.

Lemma entries_app d args l1 l2 :
  entries d args (l1 ++ l2) = entries d args l1 ++ entries d args l2.
Proof. apply List.map_app. Qed.

Lemma emit_none bodies fuel d evt args w :
  listenerCount evt w = 0 ->
  emit bodies (S fuel) d evt args w = Returned false w.
Proof.
  unfold listenerCount. simpl. unfold emit_body.
  destruct (JsMap.get evt (_events w)); [|done]. by intros ->.
Qed.

(** A one-shot listener does not outlive a pass over a sequence it is in;
    a persistent one outlives any pass. *)
Lemma outlives_self ls x : In x ls -> outlives ls x = negb (EE.once x).
Proof.
  intros Hin. unfold outlives. destruct (EE.once x) eqn:Hx; simpl.
  - apply not_true_is_false. rewrite forallb_forall. intros Hall.
    specialize (Hall x Hin). unfold spared_by in Hall.
    by rewrite Hx, Nat.eqb_refl in Hall.
  - apply forallb_forall. intros l _. unfold spared_by. rewrite Hx.
    by destruct (EE.once l).
Qed.

Lemma outlives_persistent seg x : persistent x = true -> outlives seg x = true.
Proof.
  unfold persistent. intros Hx. apply forallb_forall. intros l _.
  unfold spared_by. rewrite Hx. by destruct (EE.once l).
Qed.

Lemma filter_outlives_self ls : List.filter (outlives ls) ls = List.filter persistent ls.
Proof. apply List.filter_ext_in. intros x Hin. by apply outlives_self. Qed.

(** ** The properties of the specification *)

(** C1.  Dispatch to listeners that neither throw nor touch the registry:
    when the event has at least one listener, [emit] returns [true] and has
    called exactly the listeners of the event's sequence, in that (the
    registration) order, each with the arguments of the call and with its
    own bound context as receiver; when the event has no listener, [emit]
    returns [false] and the registry is exactly as before. *)
Theorem emit_calls_every_listener_in_order bodies fuel d evt args w :
  (table_ok w ->
   listenerCount evt w >= 1 ->
   Forall (quiet_at bodies args) (sequence_of evt w) ->
   exists w',
     emit bodies (S fuel) d evt args w = Returned true w' /\
     log w' = log w ++ entries d args (sequence_of evt w)) /\
  (listenerCount evt w = 0 ->
   emit bodies (S fuel) d evt args w = Returned false w).
Proof.
  split.
  - intros Hok Hn Hall.
    assert (Hne : sequence_of evt w <> []).
    { rewrite listenerCount_sequence in Hn. destruct (sequence_of evt w); simpl in *; [lia|done]. }
    rewrite (emit_quiet bodies fuel d evt args w _ Hok eq_refl Hne Hall).
    eexists. split; [reflexivity|].
    by destruct (sweep_spec d evt args (sequence_of evt w) w Hok) as (_ & L & _).
  - apply emit_none.
Qed.

Lemma emit_calls_every_listener_in_order_witness :
  table_ok demo_world /\
  listenerCount (EvStr "x") demo_world >= 1 /\
  Forall (quiet_at quiet_bodies [VNum 1]) (sequence_of (EvStr "x") demo_world) /\
  exists w',
    emit quiet_bodies 1 0 (EvStr "x") [VNum 1] demo_world = Returned true w' /\
    log w' = log demo_world ++
             entries 0 [VNum 1] [EE.new 1 emitter false; EE.new 2 emitter true].
Proof.
  assert (Hok : table_ok demo_world) by (apply table_okb_sound; reflexivity).
  assert (Hn : listenerCount (EvStr "x") demo_world >= 1) by (vm_compute; lia).
  assert (Hq : Forall (quiet_at quiet_bodies [VNum 1]) (sequence_of (EvStr "x") demo_world)).
  { apply Forall_forall. intros l _ w0. reflexivity. }
  repeat split; auto.
  exact (proj1 (emit_calls_every_listener_in_order quiet_bodies 0 0 (EvStr "x")
                  [VNum 1] demo_world) Hok Hn Hq).
Defined.

(** Dispatch in which one listener, [K], makes one call to the registry
    (not [emit]) and the others do nothing. *)
Lemma emit_one_call bodies fuel d evt args w pre K post o :
  table_ok w ->
  sequence_of evt w = pre ++ K :: post ->
  Forall (quiet_at bodies args) pre ->
  Forall (quiet_at bodies args) post ->
  (forall w0, bodies (EE.fn K) (EE.context K) args w0 = Call o (fun _ => Done)) ->
  is_emit o = false ->
  exists r wK,
    perform (emit bodies fuel) (S d) o (sweep d evt args (pre ++ [K]) w) = Some (r, wK) /\
    table_ok wK /\
    log wK = log w ++ entries d args (pre ++ [K]) /\
    emit bodies (S fuel) d evt args w = Returned true (sweep d evt args post wK).
Proof.
  intros Hok Hseq Hpre Hpost HK Ho.
  set (ls := pre ++ K :: post) in *.
  destruct (sequence_of_lookup _ _ _ Hseq ltac:(by destruct pre)) as (a & Ha & Hls).
  destruct (sweep_spec d evt args pre w Hok) as (Tp & _ & Hp & _).
  destruct (sweep_spec d evt args (pre ++ [K]) w Hok) as (TK & LK & HKh & _).
  destruct (perform_local (emit bodies fuel) (S d) o _ Ho TK)
    as (r & wK & Hperf & TN & HN & LN).
  exists r, wK. split; [exact Hperf|]. split; [exact TN|].
  split; [by rewrite LN, LK|].
  simpl. unfold emit_body. rewrite Ha, (array_at_lookup _ _ _ Hls).
  assert (Hlen : length ls = length pre + S (length post)).
  { unfold ls. by rewrite length_app. }
  rewrite Hlen.
  destruct (Nat.eqb_spec (length pre + S (length post)) 0) as [H0|_]; [lia|].
  rewrite (emit_loop_quiet bodies (emit bodies fuel) d evt args a pre Hpre
             (S (length post)) 0 w Hok).
  2:{ intros j l Hj. rewrite (array_at_lookup _ _ _ Hls). simpl.
      by apply lookup_app_l_Some. }
  rewrite (emit_loop_step _ _ _ _ _ _ _ _ _ K).
  2:{ rewrite (array_at_lookup _ _ _ (Hp _ _ Hls)). simpl.
      by apply list_lookup_middle. }
  unfold call. rewrite HK.
  change (record (Invoked K args d) (select evt K (sweep d evt args pre w)))
    with (sweep d evt args [K] (sweep d evt args pre w)).
  rewrite <- sweep_app. cbn [run]. rewrite Hperf. cbn [run].
  destruct (HN _ _ (HKh _ _ Hls)) as [more HaN].
  apply emit_loop_quiet_all; auto.
  intros j l Hj. rewrite (array_at_lookup _ _ _ HaN).
  apply lookup_app_l_Some. unfold ls.
  rewrite lookup_app_r by (simpl; lia).
  replace (S (0 + length pre) + j - length pre) with (S j) by lia. done.
Qed.

(** [emit('x')] on [on('x', f1); once('x', f2)] where [f1] removes [f2]:
    [f2] is called all the same, and is gone afterwards. *)
Example removal_during_emit :
  exists w',
    emit removing_bodies 1 0 (EvStr "x") [] demo_world = Returned true w' /\
    log w' = [Invoked (EE.new 1 emitter false) [] 0;
              Invoked (EE.new 2 emitter true) [] 0] /\
    sequence_of (EvStr "x") w' = [].
Proof. eexists. repeat split; reflexivity. Qed.

Lemma addListener_returns evt f context once w :
  exists w', addListener evt (VFun f) context once w = Returned tt w'.
Proof.
  unfold addListener. destruct (negb _); simpl; [eauto|].
  destruct (JsMap.get _ _); eauto.
Qed.

(** C5.  Registration ([on], [once], [addListener]) throws exactly when the
    callback is not a function, the error is the [TypeError] of
    [addListener], and the registry is then unchanged.  No other operation
    throws of its own: an operation other than [emit] that answers with an
    error is a registration of a non-function, and an error that comes out
    of [emit] is the error of the call of one of the listeners in the
    sequence, whose body threw it. *)
Theorem only_registration_of_a_non_function_throws evt fn context w :
  ((exists err w', on evt fn context w = Threw err w') <-> is_function fn = false) /\
  ((exists err w', once evt fn context w = Threw err w') <-> is_function fn = false) /\
  ((exists err w', addListener_method evt fn context w = Threw err w')
     <-> is_function fn = false) /\
  (forall err w',
     on evt fn context w = Threw err w' \/
     once evt fn context w = Threw err w' \/
     addListener_method evt fn context w = Threw err w' ->
     err = VTypeError "The listener must be a function" /\ w' = w) /\
  (forall emit_rec d o err w',
     is_emit o = false ->
     perform emit_rec d o w = Some (RThrown err, w') ->
     exists f, is_registration o = Some f /\ is_function f = false /\ w' = w) /\
  (forall bodies fuel d args err w',
     table_ok w ->
     emit bodies (S fuel) d evt args w = Threw err w' ->
     exists l wk,
       In l (sequence_of evt w) /\
       call bodies (emit bodies fuel) d l args wk = Threw err w' /\
       exists w0, ~ no_raise (bodies (EE.fn l) (EE.context l) args w0)).
Proof.
  assert (Hadd : forall o,
            (exists err w', addListener evt fn context o w = Threw err w')
            <-> is_function fn = false).
  { intros o. split.
    - intros (err & w' & H). destruct fn; try reflexivity.
      destruct (addListener_returns evt id context o w) as [w1 H1]. congruence.
    - intros H. rewrite addListener_not_function by done. eauto. }
  assert (Hwhich : forall o err w',
            addListener evt fn context o w = Threw err w' ->
            err = VTypeError "The listener must be a function" /\ w' = w).
  { intros o err w' H. destruct (is_function fn) eqn:Hf.
    - destruct fn; try discriminate.
      destruct (addListener_returns evt id context o w) as [w1 H1]. congruence.
    - rewrite addListener_not_function in H by done. by injection H as <- <-. }
  split; [apply Hadd|]. split; [apply Hadd|]. split; [apply Hadd|].
  split; [|split].
  - intros err w' [H|[H|H]]; by apply Hwhich in H.
  - intros emit_rec d o err w' Ho Hp.
    destruct o; try discriminate; simpl in *.
    1-3: unfold addListener_method, on, once in *;
      match goal with H : reply_of (addListener ?e ?f ?c ?o ?x) = _ |- _ =>
        destruct (is_function f) eqn:Hf;
        [ destruct f; try discriminate;
          destruct (addListener_returns e id c o x) as [w1 H1];
          rewrite H1 in H; discriminate
        | rewrite addListener_not_function in H by done;
          injection H as <- <-; eauto ] end.
  - intros bodies fuel d args err w' Hok He.
    pose proof (emit_dispatch bodies fuel d evt args w Hok) as Hd.
    rewrite He in Hd. destruct Hd as (_ & _ & k & _ & _ & l & wk & Hl & Hc).
    exists l, wk. repeat split; auto.
    + apply list_elem_of_In. by eapply list_elem_of_lookup_2.
    + exists (record (Invoked l args d) wk). intros Hnr.
      unfold call in Hc. by apply run_no_raise in Hc.
Qed.

Lemma only_registration_of_a_non_function_throws_witness :
  (exists err w', on (EvStr "x") (VStr "f") VUndefined demo_world = Threw err w') /\
  ~ (exists err w', on (EvStr "x") (VFun 3) VUndefined demo_world = Threw err w').
Proof.
  destruct (only_registration_of_a_non_function_throws (EvStr "x") (VStr "f")
              VUndefined demo_world) as [H1 _].
  destruct (only_registration_of_a_non_function_throws (EvStr "x") (VFun 3)
              VUndefined demo_world) as [H2 _].
  split.
  - apply H1. reflexivity.
  - intros H. apply H2 in H. discriminate.
Defined.

Lemma present_iff_table_ok w : present_iff_nonempty w <-> table_ok w.
Proof.
  split.
  - intros Hinv e a Ha.
    assert (Hhas : JsMap.has e (_events w) = true) by (apply JsMapFacts.has_get; eauto).
    apply Hinv in Hhas. unfold listenerCount, array_at in Hhas. rewrite Ha in Hhas.
    destruct (heap w !! a) as [ls|]; [|done]. exists ls. split; [done|].
    by intros ->.
  - intros Hok evt. rewrite (table_ok_sequence evt w Hok), listenerCount_sequence.
    destruct (sequence_of evt w); simpl; split; congruence.
Qed.

Lemma eventNames_has evt w : In evt (eventNames w) <-> JsMap.has evt (_events w) = true.
Proof.
  rewrite JsMapFacts.has_get. unfold eventNames. split.
  - apply JsMapFacts.keys_get.
  - intros [a Ha]. by eapply JsMapFacts.get_Some_keys.
Qed.

(** C7.  A key is in the event table exactly when its listener sequence is
    not empty.  This holds of a fresh registry and every operation
    preserves it: registration (also when it throws), removal, clearing,
    and [emit] with arbitrary listener bodies (also when a listener throws).
    Consequently an event is among [eventNames()] exactly when its
    [listenerCount] is not 0, and a removal that leaves no listener of the
    event takes the event out of [eventNames()] and makes its
    [listenerCount] 0. *)
Theorem key_present_iff_sequence_nonempty :
  present_iff_nonempty empty_world /\
  forall w, present_iff_nonempty w ->
    (forall evt fn context,
       settled present_iff_nonempty (on evt fn context w) /\
       settled present_iff_nonempty (once evt fn context w) /\
       settled present_iff_nonempty (addListener_method evt fn context w)) /\
    (forall evt fn context o,
       present_iff_nonempty (removeListener evt fn context o w) /\
       present_iff_nonempty (off evt fn context o w)) /\
    (forall evt, present_iff_nonempty (removeAllListeners evt w)) /\
    (forall bodies fuel d evt args,
       settled present_iff_nonempty (emit bodies fuel d evt args w)) /\
    (forall evt, In evt (eventNames w) <-> listenerCount evt w <> 0) /\
    (forall evt fn context o,
       after_removal fn context o (sequence_of evt w) = [] ->
       let w' := removeListener evt fn context o w in
       ~ In evt (eventNames w') /\ listenerCount evt w' = 0).
Proof.
  split; [apply present_iff_table_ok, table_ok_empty|].
  intros w Hinv. apply present_iff_table_ok in Hinv as Hok.
  assert (Hadd : forall evt fn context o,
            settled present_iff_nonempty (addListener evt fn context o w)).
  { intros evt fn context o.
    pose proof (addListener_sound 0 evt fn context o w Hok) as Hs.
    destruct (addListener evt fn context o w); simpl in *; auto;
      apply present_iff_table_ok, Hs. }
  assert (Hrem : forall evt fn context o,
            present_iff_nonempty (removeListener evt fn context o w)).
  { intros. apply present_iff_table_ok. by apply removeListener_spec. }
  split; [|split; [|split; [|split; [|split]]]].
  - intros. repeat split; apply Hadd.
  - intros. split; apply Hrem.
  - intros. by apply present_iff_table_ok, removeAllListeners_ok.
  - intros bodies fuel d evt args.
    pose proof (emit_sound bodies fuel d evt args w Hok) as Hs.
    destruct (emit bodies fuel d evt args w); simpl in *; auto;
      apply present_iff_table_ok, Hs.
  - intros evt. rewrite eventNames_has. apply Hinv.
  - intros evt fn context o Hlast w'.
    destruct (removeListener_spec evt fn context o w Hok) as (_ & _ & S & _).
    fold w' in S. rewrite Hlast in S.
    assert (Hc : listenerCount evt w' = 0) by (by rewrite listenerCount_sequence, S).
    split; [|done]. rewrite eventNames_has. intros Hhas.
    by apply (Hrem evt fn context o) in Hhas.
Qed.

Lemma key_present_iff_sequence_nonempty_witness :
  present_iff_nonempty demo_world /\
  (In (EvStr "x") (eventNames demo_world) <-> listenerCount (EvStr "x") demo_world <> 0) /\
  (let w' := removeListener (EvStr "x") VUndefined VUndefined false demo_world in
   ~ In (EvStr "x") (eventNames w') /\ listenerCount (EvStr "x") w' = 0).
Proof.
  assert (Hinv : present_iff_nonempty demo_world).
  { apply present_iff_table_ok, table_okb_sound. reflexivity. }
  destruct (proj2 key_present_iff_sequence_nonempty demo_world Hinv)
    as (_ & _ & _ & _ & Hnames & Hlast).
  split; [exact Hinv|]. split; [exact (Hnames (EvStr "x"))|].
  exact (Hlast (EvStr "x") VUndefined VUndefined false eq_refl).
Defined.

(** Dispatch up to a listener that throws: the listeners before it are
    quiet, its own body throws [v] at once. *)
Lemma emit_throwing bodies fuel d evt args w pre L post v :
  table_ok w ->
  sequence_of evt w = pre ++ L :: post ->
  Forall (quiet_at bodies args) pre ->
  (forall w0, bodies (EE.fn L) (EE.context L) args w0 = Raise v) ->
  emit bodies (S fuel) d evt args w = Threw v (sweep d evt args (pre ++ [L]) w).
Proof.
  intros Hok Hseq Hpre HL.
  destruct (sequence_of_lookup _ _ _ Hseq ltac:(by destruct pre)) as (a & Ha & Hls).
  simpl. unfold emit_body. rewrite Ha, (array_at_lookup _ _ _ Hls).
  rewrite length_app. simpl length.
  destruct (Nat.eqb_spec (length pre + S (length post)) 0) as [H0|_]; [lia|].
  rewrite (emit_loop_quiet bodies (emit bodies fuel) d evt args a pre Hpre
             (S (length post)) 0 w Hok).
  2:{ intros j l Hj. rewrite (array_at_lookup _ _ _ Hls). simpl.
      by apply lookup_app_l_Some. }
  destruct (sweep_spec d evt args pre w Hok) as (_ & _ & Hh & _).
  simpl. rewrite (array_at_lookup _ _ _ (Hh _ _ Hls)).
  rewrite list_lookup_middle by done.
  unfold call. rewrite HL. simpl.
  by rewrite sweep_app.
Qed.

(** C8.  A listener that throws ends the dispatch.  Whatever the bodies do,
    when [emit] throws [err] in state [w'], then [err] and [w'] are exactly
    what the call of one listener [l] of the sequence, at some position [k],
    threw and left behind; [emit] itself has called the listeners up to
    position [k] and none after it; and the table in [w'] satisfies its
    invariant.  In particular, when the listeners before [L] are quiet and
    the body of [L] throws [v], [emit] throws [v], has called exactly the
    listeners up to [L], and the event's sequence is the one it found less
    the one-shot listeners removed on the way, which stay removed. *)
Theorem listener_error_ends_dispatch bodies fuel d evt args w :
  table_ok w ->
  (forall err w',
     emit bodies (S fuel) d evt args w = Threw err w' ->
     present_iff_nonempty w' /\
     exists k l wk,
       sequence_of evt w !! k = Some l /\
       call bodies (emit bodies fuel) d l args wk = Threw err w' /\
       exists new,
         log w' = log w ++ new /\
         direct d new = entries d args (take (S k) (sequence_of evt w))) /\
  (forall pre L post v,
     sequence_of evt w = pre ++ L :: post ->
     Forall (quiet_at bodies args) pre ->
     (forall w0, bodies (EE.fn L) (EE.context L) args w0 = Raise v) ->
     exists w',
       emit bodies (S fuel) d evt args w = Threw v w' /\
       log w' = log w ++ entries d args (pre ++ [L]) /\
       present_iff_nonempty w' /\
       sequence_of evt w' = List.filter (outlives (pre ++ [L])) (sequence_of evt w) /\
       (forall x, In x (pre ++ [L]) -> EE.once x = true -> ~ In x (sequence_of evt w')) /\
       (forall e, e <> evt -> sequence_of e w' = sequence_of e w)).
Proof.
  intros Hok. split.
  - intros err w' He.
    pose proof (emit_dispatch bodies fuel d evt args w Hok) as Hd.
    rewrite He in Hd.
    destruct Hd as (T & _ & k & _ & (new & Hlog & Hdir & _) & l & wk & Hl & Hc).
    split; [by apply present_iff_table_ok|].
    exists k, l, wk. repeat split; auto. by exists new.
  - intros pre L post v Hseq Hpre HL.
    rewrite (emit_throwing bodies fuel d evt args w pre L post v Hok Hseq Hpre HL).
    destruct (sweep_spec d evt args (pre ++ [L]) w Hok) as (T & Hlog & _ & S & O).
    eexists. split; [reflexivity|]. repeat split; auto.
    + by apply present_iff_table_ok.
    + by apply present_iff_table_ok.
    + intros x Hin Hx. rewrite S. intros Hf. apply List.filter_In in Hf as [_ Hf].
      rewrite (outlives_self _ _ Hin), Hx in Hf. discriminate.
Qed.

Lemma listener_error_ends_dispatch_witness :
  table_ok demo_world /\
  exists w',
    emit throwing_bodies 1 0 (EvStr "x") [] demo_world = Threw (VStr "boom") w' /\
    log w' = log demo_world ++
             entries 0 [] ([EE.new 1 emitter false] ++ [EE.new 2 emitter true]) /\
    present_iff_nonempty w' /\
    sequence_of (EvStr "x") w'
    = List.filter (outlives ([EE.new 1 emitter false] ++ [EE.new 2 emitter true]))
        (sequence_of (EvStr "x") demo_world).
Proof.
  assert (Hok : table_ok demo_world) by (apply table_okb_sound; reflexivity).
  split; [exact Hok|].
  destruct (proj2 (listener_error_ends_dispatch throwing_bodies 0 0 (EvStr "x") []
                     demo_world Hok)
              [EE.new 1 emitter false] (EE.new 2 emitter true) [] (VStr "boom"))
    as (w' & He & Hlog & Hinv & Hseq & _).
  - reflexivity.
  - repeat constructor.
  - reflexivity.
  - exists w'. auto.
Defined.

(** C10.  A falsy context given at registration ([undefined], [null], [0],
    the empty string, [false]) is as good as none: the call is the call
    with the context left out, and the listener it appends is bound to the
    registry itself. *)
Theorem falsy_context_binds_the_emitter evt f context w :
  truthy context = false ->
  on evt (VFun f) context w = on evt (VFun f) VUndefined w /\
  once evt (VFun f) context w = once evt (VFun f) VUndefined w /\
  addListener_method evt (VFun f) context w
  = addListener_method evt (VFun f) VUndefined w /\
  (table_ok w ->
   (exists w', on evt (VFun f) context w = Returned tt w' /\
      sequence_of evt w' = sequence_of evt w ++ [EE.new f emitter false]) /\
   (exists w', once evt (VFun f) context w = Returned tt w' /\
      sequence_of evt w' = sequence_of evt w ++ [EE.new f emitter true]) /\
   (exists w', addListener_method evt (VFun f) context w = Returned tt w' /\
      sequence_of evt w' = sequence_of evt w ++ [EE.new f emitter false])) /\
  Forall (fun v => truthy v = false)
    [VUndefined; VNull; VNum 0; VStr EmptyString; VBool false].
Proof.
  intros Hc.
  assert (Heq : forall o, addListener evt (VFun f) context o w
                          = addListener evt (VFun f) VUndefined o w).
  { intros o. unfold addListener. by rewrite Hc. }
  assert (Hbound : forall o, table_ok w ->
            exists w', addListener evt (VFun f) context o w = Returned tt w' /\
              sequence_of evt w' = sequence_of evt w ++ [EE.new f emitter o]).
  { intros o Hok.
    destruct (addListener_function evt f context o w Hok) as (w' & He & _ & _ & S & _).
    exists w'. split; [done|]. rewrite S. unfold listener_for. by rewrite Hc. }
  unfold addListener_method, on, once.
  repeat split; auto. repeat constructor.
Qed.

Lemma falsy_context_binds_the_emitter_witness :
  truthy (VNum 0) = false /\
  on (EvStr "x") (VFun 3) (VNum 0) demo_world
  = on (EvStr "x") (VFun 3) VUndefined demo_world /\
  exists w', on (EvStr "x") (VFun 3) (VNum 0) demo_world = Returned tt w' /\
    sequence_of (EvStr "x") w'
    = sequence_of (EvStr "x") demo_world ++ [EE.new 3 emitter false].
Proof.
  destruct (falsy_context_binds_the_emitter (EvStr "x") 3 (VNum 0) demo_world eq_refl)
    as (Hon & _ & _ & Hb & _).
  split; [reflexivity|]. split; [exact Hon|].
  apply Hb. apply table_okb_sound. reflexivity.
Defined.

(** C9 as stated fails for the event named by the empty string: given as
    the argument, it empties the whole table, and the listeners of ['x'] go
    with it. *)
Lemma removeAllListeners_empty_name_clears_all :
  sequence_of (EvStr "x") unnamed_world = [EE.new 2 emitter false] /\
  sequence_of (EvStr "x") (removeAllListeners (Some (EvStr EmptyString)) unnamed_world) = [] /\
  sequence_of (EvStr "x") (removeAllListeners (Some (EvStr EmptyString)) unnamed_world)
  <> sequence_of (EvStr "x") unnamed_world.
Proof. repeat split; try reflexivity. discriminate. Qed.

(** C9, amended.  For an event identifier that is truthy (any symbol, any
    string but the empty one), [removeAllListeners(evt)] removes the entry
    of [evt] and nothing else: the other entries, the order of the other
    keys and the arrays are as before.  With the argument left out, or
    falsy, the table is replaced by an empty one and [eventNames()] is
    empty.  The operation is a total function: it cannot throw. *)
Theorem removeAllListeners_clears_one_or_all evt w :
  (event_given (Some evt) = true ->
   let w' := removeAllListeners (Some evt) w in
   sequence_of evt w' = [] /\
   ~ In evt (eventNames w') /\
   (forall e, e <> evt ->
      JsMap.get e (_events w') = JsMap.get e (_events w) /\
      sequence_of e w' = sequence_of e w) /\
   eventNames w'
   = List.filter (fun e => negb (bool_decide (e = evt))) (eventNames w) /\
   heap w' = heap w) /\
  (eventNames (removeAllListeners None w) = [] /\
   _events (removeAllListeners None w) = [] /\
   forall e, sequence_of e (removeAllListeners None w) = []) /\
  (event_given (Some evt) = false ->
   removeAllListeners (Some evt) w = removeAllListeners None w).
Proof.
  split; [|split].
  - intros Hg w'.
    assert (Hev : _events w' = JsMap.delete evt (_events w)).
    { unfold w', removeAllListeners. rewrite Hg.
      destruct (JsMap.has evt (_events w)) eqn:Hhas; [done|].
      apply JsMapFacts.has_false in Hhas. unfold JsMap.delete.
      symmetry. apply filter_all. intros [k a] Hin. simpl.
      case_bool_decide; [|done]. subst k.
      assert (In evt (JsMap.keys (_events w))) as Hk.
      { apply in_map_iff. by exists (evt, a). }
      apply JsMapFacts.keys_get in Hk as [b Hb]. congruence. }
    assert (Hh : heap w' = heap w) by apply removeAllListeners_frame.
    unfold sequence_of, eventNames, array_at. rewrite Hev, Hh.
    repeat split.
    + by rewrite JsMapFacts.get_delete_eq.
    + intros Hin. apply JsMapFacts.keys_get in Hin as [a Ha].
      by rewrite JsMapFacts.get_delete_eq in Ha.
    + by apply JsMapFacts.get_delete_ne.
    + by rewrite JsMapFacts.get_delete_ne.
    + apply JsMapFacts.keys_delete.
  - done.
  - intros Hg. unfold removeAllListeners. by rewrite Hg.
Qed.

Lemma removeAllListeners_clears_one_or_all_witness :
  event_given (Some (EvStr "x")) = true /\
  sequence_of (EvStr "x") (removeAllListeners (Some (EvStr "x")) unnamed_world) = [] /\
  sequence_of (EvStr EmptyString) (removeAllListeners (Some (EvStr "x")) unnamed_world)
  = sequence_of (EvStr EmptyString) unnamed_world.
Proof.
  destruct (proj1 (removeAllListeners_clears_one_or_all (EvStr "x") unnamed_world) eq_refl)
    as (Hgone & _ & Hothers & _).
  split; [reflexivity|]. split; [exact Hgone|].
  apply Hothers. discriminate.
Defined.

Lemma keys_set_present k v m :
  JsMap.has k m = true -> JsMap.keys (JsMap.set k v m) = JsMap.keys m.
Proof.
  unfold JsMap.has. induction m as [|[k0 v0] m IH]; simpl; [discriminate|].
  destruct (decide (k = k0)) as [->|Hne]; simpl; [done|].
  intros H. f_equal. auto.
Qed.

Lemma removeListener_eventNames_kept evt fn context o w :
  List.filter (retained fn context o) (sequence_of evt w) <> [] ->
  truthy fn = true ->
  eventNames (removeListener evt fn context o w) = eventNames w.
Proof.
  unfold removeListener, sequence_of, eventNames. intros Hne Hfn.
  destruct (JsMap.has evt (_events w)) eqn:Hhas; simpl; [|done].
  destruct (JsMap.get evt (_events w)) as [a|] eqn:Ha.
  2:{ apply JsMapFacts.has_get in Hhas as [b Hb]. congruence. }
  rewrite Hfn. simpl.
  destruct (List.filter _ _) eqn:Hf; [done|]. simpl.
  by apply keys_set_present.
Qed.

(** C6 as stated fails for a context that is given but falsy: [off('x', f1,
    0)] removes the listener bound to [obj7], whose context is not [0]. *)
Lemma off_with_falsy_context_ignores_context :
  sequence_of (EvStr "x") bound_world = [EE.new 1 (VObj 7) false] /\
  VObj 7 <> VNum 0 /\
  sequence_of (EvStr "x") (off (EvStr "x") (VFun 1) (VNum 0) false bound_world) = [].
Proof. repeat split; try reflexivity. discriminate. Qed.

(** C6, amended.  [off(evt, f, context, once)] leaves of the event's
    sequence, in their order, the listeners that are not [taken]: it takes
    the listeners of function [f], whatever their context when the context
    argument is left out or falsy, only those bound to the context when that
    is truthy, and only the one-shot ones when the one-shot filter is set.
    The sequences of the other events are untouched.  When no listener is
    taken, no sequence and no event name changes; when the event has no
    entry, the registry is returned as it is.  The operation is a total
    function: it cannot throw. *)
Theorem off_takes_the_matching_listeners evt f context o w :
  table_ok w ->
  let w' := off evt (VFun f) context o w in
  sequence_of evt w'
  = List.filter (fun l => negb (taken f context o l)) (sequence_of evt w) /\
  (forall e, e <> evt -> sequence_of e w' = sequence_of e w) /\
  (truthy context = false ->
   sequence_of evt w'
   = List.filter (fun l => negb (Nat.eqb (EE.fn l) f && (if o then EE.once l else true)))
       (sequence_of evt w)) /\
  (truthy context = true -> o = false ->
   sequence_of evt w'
   = List.filter (fun l => negb (Nat.eqb (EE.fn l) f && bool_decide (EE.context l = context)))
       (sequence_of evt w)) /\
  (Forall (fun l => taken f context o l = false) (sequence_of evt w) ->
   (forall e, sequence_of e w' = sequence_of e w) /\ eventNames w' = eventNames w) /\
  (JsMap.has evt (_events w) = false -> w' = w) /\
  removeListener evt (VFun f) context o w = w'.
Proof.
  intros Hok w'. unfold w', off.
  destruct (removeListener_spec evt (VFun f) context o w Hok) as (_ & _ & S & O & _).
  unfold after_removal in S. simpl in S.
  assert (Hseq : sequence_of evt (removeListener evt (VFun f) context o w)
                 = List.filter (fun l => negb (taken f context o l)) (sequence_of evt w)).
  { rewrite S. apply List.filter_ext. intros l. apply retained_taken. }
  split; [exact Hseq|]. split; [exact O|]. split; [|split; [|split; [|split]]].
  - intros Hc. rewrite Hseq. apply List.filter_ext. intros l.
    unfold taken. rewrite Hc. by rewrite andb_true_r.
  - intros Hc ->. rewrite Hseq. apply List.filter_ext. intros l.
    unfold taken. rewrite Hc. by rewrite andb_true_r.
  - intros Hnone.
    assert (Hsame : List.filter (fun l => negb (taken f context o l)) (sequence_of evt w)
                    = sequence_of evt w).
    { apply filter_all. intros l Hin. rewrite Forall_forall in Hnone.
      rewrite (Hnone l); [done|]. by apply list_elem_of_In. }
    split.
    + intros e. destruct (decide (e = evt)) as [->|Hne]; [|by apply O].
      by rewrite Hseq.
    + assert (Hret : List.filter (retained (VFun f) context o) (sequence_of evt w)
                     = sequence_of evt w) by (by rewrite <- S, Hseq).
      destruct (sequence_of evt w) as [|x ls] eqn:Hs.
      * unfold removeListener.
        destruct (JsMap.has evt (_events w)) eqn:Hhas; [|done].
        apply (table_ok_sequence evt w Hok) in Hhas. congruence.
      * apply removeListener_eventNames_kept; [|done]. by rewrite Hs, Hret.
  - intros Hhas. unfold removeListener. by rewrite Hhas.
  - reflexivity.
Qed.

Lemma off_takes_the_matching_listeners_witness :
  table_ok demo_world /\
  sequence_of (EvStr "x") (off (EvStr "x") (VFun 2) VUndefined false demo_world)
  = [EE.new 1 emitter false].
Proof.
  assert (Hok : table_ok demo_world) by (apply table_okb_sound; reflexivity).
  split; [exact Hok|].
  exact (proj1 (off_takes_the_matching_listeners (EvStr "x") 2 VUndefined false
                  demo_world Hok)).
Defined.

(** ** One-shot listeners *)

Lemma spared_same_shot l x :
  EE.once l = true -> spared_by l x = negb (same_shot l x).
Proof.
  intros Hl. unfold spared_by, same_shot. rewrite Hl. simpl.
  by destruct (EE.once x), (Nat.eqb _ _).
Qed.

Lemma filter_split_length {A} (P : A -> bool) (l : list A) :
  length (List.filter (fun x => negb (P x)) l) + length (List.filter P l) = length l.
Proof.
  induction l as [|x l IH]; simpl; [done|].
  destruct (P x); simpl; lia.
Qed.

Lemma emit_quiet_persistent bodies fuel d evt args w ps :
  table_ok w -> sequence_of evt w = ps ->
  forallb persistent ps = true ->
  Forall (quiet_at bodies args) ps ->
  exists b w', emit bodies (S fuel) d evt args w = Returned b w' /\
    table_ok w' /\ sequence_of evt w' = ps /\
    log w' = log w ++ entries d args ps.
Proof.
  intros Hok Hseq Hps Hq. destruct ps as [|p ps'] eqn:E.
  - exists false, w. rewrite emit_none.
    + simpl. by rewrite app_nil_r.
    + by rewrite listenerCount_sequence, Hseq.
  - rewrite <- E in *.
    rewrite (emit_quiet bodies fuel d evt args w ps Hok Hseq ltac:(by rewrite E) Hq).
    destruct (sweep_spec d evt args ps w Hok) as (T & L & _ & S & _).
    exists true. eexists. split; [reflexivity|]. repeat split; auto.
    rewrite S, Hseq. apply filter_all. intros x Hin.
    apply outlives_persistent. rewrite forallb_forall in Hps. auto.
Qed.

Lemma emit_each_quiet_persistent bodies fuel d evt ps argss :
  forallb persistent ps = true ->
  (forall a, In a argss -> Forall (quiet_at bodies a) ps) ->
  forall w, table_ok w -> sequence_of evt w = ps ->
  exists w', emit_each bodies (S fuel) d evt argss w = Returned tt w' /\
    log w' = log w ++ concat (List.map (fun a => entries d a ps) argss).
Proof.
  intros Hps. induction argss as [|args rest IH]; intros Hq w Hok Hseq.
  - exists w. simpl. by rewrite app_nil_r.
  - destruct (emit_quiet_persistent bodies fuel d evt args w ps Hok Hseq Hps)
      as (b & w1 & He & T1 & S1 & L1).
    { apply Hq. by left. }
    destruct (IH (fun a Ha => Hq a (or_intror Ha)) w1 T1 S1) as (w2 & He2 & L2).
    exists w2. cbn [emit_each]. rewrite He. split; [exact He2|].
    rewrite L2, L1. simpl. by rewrite <- app_assoc.
Qed.


(** ** Registration during dispatch *)

(** Dispatch in which one listener, [L], registers a listener for the same
    event and the others do nothing. *)
Lemma emit_registering bodies fuel d evt args w pre L post one g c :
  table_ok w ->
  sequence_of evt w = pre ++ L :: post ->
  Forall (quiet_at bodies args) pre ->
  Forall (quiet_at bodies args) post ->
  (forall w0, bodies (EE.fn L) (EE.context L) args w0
              = Call (registration one evt g c) (fun _ => Done)) ->
  let N := listener_for g c one in
  exists w1,
    emit bodies (S fuel) d evt args w = Returned true w1 /\
    table_ok w1 /\
    log w1 = log w ++ entries d args (pre ++ L :: post) /\
    sequence_of evt w1
    = List.filter persistent (pre ++ L :: post) ++ (if outlives post N then [N] else []).
Proof.
  intros Hok Hseq Hpre Hpost HL N.
  set (ls := pre ++ L :: post) in *.
  destruct (sequence_of_lookup _ _ _ Hseq ltac:(by destruct pre)) as (a & Ha & Hls).
  simpl. unfold emit_body. rewrite Ha, (array_at_lookup _ _ _ Hls).
  assert (Hlen : length ls = length pre + S (length post)).
  { unfold ls. by rewrite length_app. }
  rewrite Hlen.
  destruct (Nat.eqb_spec (length pre + S (length post)) 0) as [H0|_]; [lia|].
  rewrite (emit_loop_quiet bodies (emit bodies fuel) d evt args a pre Hpre
             (S (length post)) 0 w Hok).
  2:{ intros j l Hj. rewrite (array_at_lookup _ _ _ Hls). simpl.
      by apply lookup_app_l_Some. }
  destruct (sweep_spec d evt args pre w Hok) as (Tp & _ & Hp & _).
  rewrite (emit_loop_step _ _ _ _ _ _ _ _ _ L).
  2:{ rewrite (array_at_lookup _ _ _ (Hp _ _ Hls)). simpl.
      by apply list_lookup_middle. }
  unfold call. rewrite HL.
  change (record (Invoked L args d) (select evt L (sweep d evt args pre w)))
    with (sweep d evt args [L] (sweep d evt args pre w)).
  rewrite <- sweep_app.
  destruct (sweep_spec d evt args (pre ++ [L]) w Hok) as (TL & LL & HLh & SL & _).
  set (wL := sweep d evt args (pre ++ [L]) w) in *.
  destruct (addListener_function evt g c one wL TL) as (wN & HeN & TN & LN & SN & HN).
  assert (Hperf : perform (emit bodies fuel) (S d) (registration one evt g c) wL
                  = Some (RThis, wN)).
  { destruct one; unfold perform, registration, once, on; by rewrite HeN. }
  cbn [run]. rewrite Hperf. cbn [run].
  destruct (HN _ _ (HLh _ _ Hls)) as [more HaN].
  rewrite (emit_loop_quiet_all bodies (emit bodies fuel) d evt args a post _ wN Hpost TN).
  2:{ intros j l Hj. rewrite (array_at_lookup _ _ _ HaN).
      apply lookup_app_l_Some. unfold ls.
      rewrite lookup_app_r by (simpl; lia).
      replace (S (0 + length pre) + j - length pre) with (S j) by lia. done. }
  destruct (sweep_spec d evt args post wN TN) as (T1 & L1 & _ & S1 & _).
  eexists. split; [reflexivity|]. repeat split; auto.
  - rewrite L1, LN, LL. unfold ls.
    replace (pre ++ L :: post) with ((pre ++ [L]) ++ post) by (by rewrite <- app_assoc).
    by rewrite (entries_app d args (pre ++ [L]) post), app_assoc.
  - rewrite S1, SN, SL, List.filter_app, filter_twice, Hseq. fold N. f_equal.
    rewrite <- filter_outlives_self. apply List.filter_ext. intros x.
    unfold ls. replace (pre ++ L :: post) with ((pre ++ [L]) ++ post)
      by (by rewrite <- app_assoc).
    symmetry. apply outlives_app.
Qed.


(** ** The shape of the registry is kept *)

Lemma keys_set_absent k v m :
  JsMap.get k m = None -> JsMap.keys (JsMap.set k v m) = JsMap.keys m ++ [k].
Proof.
  induction m as [|[k0 v0] m IH]; simpl; [done|].
  destruct (decide (k = k0)) as [->|Hne]; [discriminate|].
  intros H. simpl. f_equal. auto.
Qed.

Lemma not_has_not_named evt w :
  JsMap.get evt (_events w) = None -> ~ In evt (eventNames w).
Proof.
  intros Hnone Hin. apply JsMapFacts.keys_get in Hin as [a Ha]. congruence.
Qed.

Lemma filter_other_names evt (names : list EventName) :
  ~ In evt names ->
  List.filter (fun e => negb (bool_decide (e = evt))) names = names.
Proof.
  intros Hnot. apply filter_all. intros e He.
  case_bool_decide; [|done]. by subst.
Qed.

(** Storing a new array under [evt], present or not. *)
Lemma set_fresh_unshared evt arr w :
  table_ok w -> unshared w ->
  unshared (with_events (JsMap.set evt (length (heap w)) (_events w))
              (snd (alloc arr w))).
Proof.
  intros Hok Hun e1 e2 a. simpl.
  assert (Hold : forall e, JsMap.get e (_events w) <> Some (length (heap w))).
  { intros e He. destruct (Hok _ _ He) as (ls & Hls & _).
    apply lookup_lt_Some in Hls. lia. }
  destruct (decide (e1 = evt)) as [->|H1], (decide (e2 = evt)) as [->|H2];
    rewrite ?JsMapFacts.get_set_eq, ?JsMapFacts.get_set_ne by done; auto.
  - intros [= <-] H. by apply Hold in H.
  - intros H [= <-]. by apply Hold in H.
  - apply Hun.
Qed.

Lemma clearEvent_well_formed evt w : well_formed w -> well_formed (clearEvent evt w).
Proof.
  intros (Hok & Hun & Hnd). split; [by apply clearEvent_ok|]. split.
  - intros e1 e2 a. simpl.
    destruct (decide (e1 = evt)) as [->|H1]; [by rewrite JsMapFacts.get_delete_eq|].
    destruct (decide (e2 = evt)) as [->|H2]; [by rewrite JsMapFacts.get_delete_eq|].
    rewrite !JsMapFacts.get_delete_ne by done. apply Hun.
  - unfold eventNames. simpl. rewrite JsMapFacts.keys_delete.
    apply NoDup_ListNoDup, List.NoDup_filter. by apply NoDup_ListNoDup.
Qed.

Lemma addListener_well_formed evt fn context o w :
  well_formed w -> settled well_formed (addListener evt fn context o w).
Proof.
  intros (Hok & Hun & Hnd).
  pose proof (addListener_sound 0 evt fn context o w Hok) as Hs.
  unfold addListener in *. destruct fn; simpl; try by repeat split.
  destruct (JsMap.has evt (_events w)) eqn:Hhas; simpl in *.
  - destruct (JsMap.get evt (_events w)); simpl in *; repeat split; auto; apply Hs.
  - apply JsMapFacts.has_false in Hhas. split; [apply Hs|]. split.
    + by apply (set_fresh_unshared evt _ w).
    + unfold eventNames. simpl. rewrite keys_set_absent by done.
      apply NoDup_app. repeat split; auto.
      * intros e He [->|[]]%list_elem_of_In. apply list_elem_of_In in He.
        by apply (not_has_not_named _ w Hhas).
      * apply NoDup_singleton.
Qed.

Lemma removeListener_well_formed evt fn context o w :
  well_formed w -> well_formed (removeListener evt fn context o w).
Proof.
  intros Hwf. pose proof Hwf as (Hok & Hun & Hnd).
  pose proof (proj1 (removeListener_spec evt fn context o w Hok)) as T.
  unfold removeListener in *.
  destruct (JsMap.has evt (_events w)) eqn:Hhas; simpl in *; [|done].
  destruct (JsMap.get evt (_events w)) as [a|]; [|by apply clearEvent_well_formed].
  destruct (truthy fn); simpl in *; [|by apply clearEvent_well_formed].
  destruct (List.filter _ _) as [|x kept] eqn:Hf; simpl in *;
    [by apply clearEvent_well_formed|].
  split; [exact T|]. split.
  - by apply (set_fresh_unshared evt _ w).
  - unfold eventNames. simpl. by rewrite keys_set_present.
Qed.

Lemma removeAllListeners_well_formed evt w :
  well_formed w -> well_formed (removeAllListeners evt w).
Proof.
  intros Hwf. unfold removeAllListeners. destruct (event_given evt).
  - destruct evt as [e|]; [|done].
    destruct (JsMap.has e (_events w)); [by apply clearEvent_well_formed|done].
  - split; [|split].
    + intros e a. discriminate.
    + intros e1 e2 a. discriminate.
    + constructor.
Qed.

(** What registration, removal, clearing and the writing of the log keep,
    [emit] keeps, whatever the listener bodies do. *)
Section Kept.
Variable P : world -> Prop.
Hypothesis P_addListener :
  forall evt fn context o w, P w -> settled P (addListener evt fn context o w).
Hypothesis P_removeListener :
  forall evt fn context o w, P w -> P (removeListener evt fn context o w).
Hypothesis P_removeAllListeners :
  forall evt w, P w -> P (removeAllListeners evt w).
Hypothesis P_record : forall i w, P w -> P (record i w).
Variable bodies : nat -> value -> list value -> world -> prog.

Section Step.
Variable emit_rec : nat -> EventName -> list value -> world -> outcome bool.
Hypothesis P_rec : forall d evt args w, P w -> settled P (emit_rec d evt args w).

Lemma perform_keeps d o w r w' :
  P w -> perform emit_rec d o w = Some (r, w') -> P w'.
Proof.
  intros Hw. destruct o; simpl.
  1-3: unfold addListener_method, on, once;
    match goal with |- context [addListener ?e ?f ?c ?o ?x] =>
      pose proof (P_addListener e f c o x Hw) as Hs;
      destruct (addListener e f c o x); simpl in *; intros [= <- <-]; auto end.
  1-2: intros [= <- <-]; by apply P_removeListener.
  - intros [= <- <-]. by apply P_removeAllListeners.
  - pose proof (P_rec d evt args w Hw) as Hs.
    destruct (emit_rec d evt args w); simpl in *; intros [= <- <-]; auto.
  - by intros [= <- <-].
  - by intros [= <- <-].
  - by intros [= <- <-].
Qed.

Lemma run_keeps p : forall d w, P w -> settled P (run emit_rec d p w).
Proof.
  induction p as [| |o k IH]; intros d w Hw; simpl; auto.
  destruct (perform emit_rec d o w) as [[r w1]|] eqn:Hp; [|done].
  apply IH. by eapply perform_keeps.
Qed.

Lemma emit_loop_keeps d evt args a :
  forall r i w, P w -> settled P (emit_loop bodies emit_rec d evt args a r i w).
Proof.
  induction r as [|r IH]; intros i w Hw; simpl; auto.
  destruct (array_at w a !! i) as [l|]; simpl; auto.
  assert (Hsel : P (select evt l w)).
  { unfold select. destruct (EE.once l); auto. }
  pose proof (run_keeps (bodies (EE.fn l) (EE.context l) args
                           (record (Invoked l args d) (select evt l w)))
                (S d) _ (P_record (Invoked l args d) _ Hsel)) as Hc.
  unfold call.
  destruct (run emit_rec (S d) _ _) as [x w2|err w2|]; simpl in *; auto.
Qed.

Lemma emit_body_keeps d evt args w :
  P w -> settled P (emit_body bodies emit_rec d evt args w).
Proof.
  intros Hw. unfold emit_body.
  destruct (JsMap.get evt (_events w)) as [a|]; simpl; auto.
  destruct (Nat.eqb _ 0); simpl; auto. by apply emit_loop_keeps.
Qed.
End Step.

Lemma emit_keeps fuel :
  forall d evt args w, P w -> settled P (emit bodies fuel d evt args w).
Proof.
  induction fuel as [|fuel IH]; intros d evt args w Hw; [done|].
  simpl. by apply emit_body_keeps.
Qed.
End Kept.

Lemma well_formed_empty : well_formed empty_world.
Proof.
  split; [apply table_ok_empty|]. split; [|constructor].
  intros e1 e2 a. discriminate.
Qed.

Lemma emit_well_formed bodies fuel d evt args w :
  well_formed w -> settled well_formed (emit bodies fuel d evt args w).
Proof.
  apply emit_keeps.
  - apply addListener_well_formed.
  - apply removeListener_well_formed.
  - apply removeAllListeners_well_formed.
  - intros i w0 H. exact H.
Qed.

Lemma well_formed_demo : well_formed demo_world.
Proof.
  exact (addListener_well_formed (EvStr "x") (VFun 2) VUndefined true _
           (addListener_well_formed (EvStr "x") (VFun 1) VUndefined false _
              well_formed_empty)).
Qed.

Lemma well_formed_unnamed : well_formed unnamed_world.
Proof.
  exact (addListener_well_formed (EvStr "x") (VFun 2) VUndefined false _
           (addListener_well_formed (EvStr EmptyString) (VFun 1) VUndefined false _
              well_formed_empty)).
Qed.

(** ** Further properties of the registry *)

(** X1.  Every key of the event table holds a non-empty array of its own
    and [eventNames()] lists no event twice.  This holds of a new registry
    and every operation keeps it: registration (also when it throws),
    removal, clearing, and [emit] with arbitrary listener bodies (also when
    a listener throws). *)
Theorem registry_stays_well_formed :
  well_formed empty_world /\
  forall w, well_formed w ->
    (forall evt fn context,
       settled well_formed (on evt fn context w) /\
       settled well_formed (once evt fn context w) /\
       settled well_formed (addListener_method evt fn context w)) /\
    (forall evt fn context o,
       well_formed (removeListener evt fn context o w) /\
       well_formed (off evt fn context o w)) /\
    (forall evt, well_formed (removeAllListeners evt w)) /\
    (forall bodies fuel d evt args,
       settled well_formed (emit bodies fuel d evt args w)).
Proof.
  split; [apply well_formed_empty|]. intros w Hwf.
  split; [|split; [|split]].
  - intros. repeat split; by apply addListener_well_formed.
  - intros. split; by apply removeListener_well_formed.
  - intros. by apply removeAllListeners_well_formed.
  - intros. by apply emit_well_formed.
Qed.

Lemma registry_stays_well_formed_witness :
  well_formed demo_world /\
  well_formed (off (EvStr "x") (VFun 1) VUndefined false demo_world) /\
  settled well_formed (emit removing_bodies 2 0 (EvStr "x") [] demo_world).
Proof.
  pose proof well_formed_demo as Hwf.
  destruct (proj2 registry_stays_well_formed demo_world Hwf) as (_ & Hoff & _ & Hemit).
  split; [exact Hwf|]. split; [apply Hoff|apply Hemit].
Defined.

Lemma addListener_others evt f context o w w' :
  table_ok w -> unshared w ->
  addListener evt (VFun f) context o w = Returned tt w' ->
  (forall e, e <> evt -> sequence_of e w' = sequence_of e w) /\
  eventNames w'
  = (if JsMap.has evt (_events w) then eventNames w else eventNames w ++ [evt]).
Proof.
  intros Hok Hun. unfold addListener, sequence_of, eventNames, array_at.
  destruct (JsMap.has evt (_events w)) eqn:Hhas; simpl.
  - apply JsMapFacts.has_get in Hhas as [a Ha]. rewrite Ha.
    intros [= <-]. simpl. split; [|done]. intros e He.
    destruct (JsMap.get e (_events w)) as [b|] eqn:Hb; [|done].
    rewrite list_lookup_alter_ne; [done|].
    intros <-. apply He. by apply (Hun e evt a).
  - apply JsMapFacts.has_false in Hhas. intros [= <-]. simpl. split.
    + intros e He. rewrite JsMapFacts.get_set_ne by done.
      destruct (JsMap.get e (_events w)) as [b|] eqn:Hb; [|done].
      destruct (Hok _ _ Hb) as (ls & Hls & _).
      by rewrite lookup_app_l by (by eapply lookup_lt_Some).
    + by apply keys_set_absent.
Qed.

(** X2.  A registration with a function ([on] or [once], by the flag) adds
    exactly one listener, at the end of the event's sequence: [listeners]
    gains the function as its last element, [listenerCount] grows by one,
    the listeners of every other event are as before, and the event's name
    is added at the end of [eventNames()] if it was not there and
    [eventNames()] is unchanged if it was. *)
Theorem registration_appends_one_listener evt f context (one : bool) w :
  well_formed w ->
  exists w',
    (if one then once else on) evt (VFun f) context w = Returned tt w' /\
    sequence_of evt w' = sequence_of evt w ++ [listener_for f context one] /\
    listeners evt w' = listeners evt w ++ [f] /\
    listenerCount evt w' = S (listenerCount evt w) /\
    (forall e, e <> evt -> sequence_of e w' = sequence_of e w) /\
    eventNames w'
    = (if JsMap.has evt (_events w) then eventNames w else eventNames w ++ [evt]) /\
    log w' = log w.
Proof.
  intros (Hok & Hun & _).
  destruct (addListener_function evt f context one w Hok) as (w' & He & _ & L & S & _).
  destruct (addListener_others evt f context one w w' Hok Hun He) as (O & N).
  exists w'. split; [by destruct one|].
  rewrite !listeners_sequence, !listenerCount_sequence, S.
  repeat split; auto.
  - by rewrite List.map_app.
  - rewrite length_app. simpl. lia.
Qed.

Lemma registration_appends_one_listener_witness :
  well_formed unnamed_world /\
  exists w',
    once (EvStr "y") (VFun 3) (VObj 7) unnamed_world = Returned tt w' /\
    listeners (EvStr "y") w' = [3] /\
    listeners (EvStr "x") w' = [2] /\
    eventNames w' = [EvStr EmptyString; EvStr "x"; EvStr "y"].
Proof.
  pose proof well_formed_unnamed as Hwf. split; [exact Hwf|].
  destruct (registration_appends_one_listener (EvStr "y") 3 (VObj 7) true
              unnamed_world Hwf) as (w' & He & _ & Hl & _ & Ho & Hn & _).
  exists w'. split; [exact He|]. split; [exact Hl|]. split; [|exact Hn].
  rewrite listeners_sequence, Ho; [reflexivity|discriminate].
Defined.

Lemma register_all_sequence evt regs :
  forall w, table_ok w ->
  table_ok (register_all evt regs w) /\
  log (register_all evt regs w) = log w /\
  sequence_of evt (register_all evt regs w)
  = sequence_of evt w ++ List.map registered regs.
Proof.
  induction regs as [|[[f context] one] regs IH]; intros w Hok; simpl.
  - by rewrite app_nil_r.
  - destruct (addListener_function evt f context one w Hok) as (w' & He & T & L & S & _).
    assert (Hw : unwrap ((if one then once else on) evt (VFun f) context w) = w').
    { destruct one; unfold once, on; by rewrite He. }
    rewrite Hw. destruct (IH w' T) as (T2 & L2 & S2).
    repeat split; auto; [congruence|]. by rewrite S2, S, <- app_assoc.
Qed.

(** X3.  Registration order is the order of [listeners] and the order of
    dispatch.  After the registrations [regs] for an event, made one after
    the other, [listeners] is what it was followed by the functions of
    [regs] in order and [listenerCount] has grown by their number; [emit]
    then (the bodies leaving the registry alone) returns [true] having
    called the old listeners and then those of [regs], in order, each with
    the context it was registered with, or the registry if that was
    falsy. *)
Theorem listeners_are_called_in_registration_order
    bodies fuel d evt args regs w :
  table_ok w ->
  let w1 := register_all evt regs w in
  let ls := sequence_of evt w ++ List.map registered regs in
  listeners evt w1 = listeners evt w ++ List.map (fun r => fst (fst r)) regs /\
  listenerCount evt w1 = listenerCount evt w + length regs /\
  (ls <> [] -> Forall (quiet_at bodies args) ls ->
   exists w2,
     emit bodies (S fuel) d evt args w1 = Returned true w2 /\
     log w2 = log w ++ entries d args ls).
Proof.
  intros Hok w1 ls.
  destruct (register_all_sequence evt regs w Hok) as (T & L & S). fold w1 in T, L, S.
  rewrite !listeners_sequence, !listenerCount_sequence, S.
  split; [|split].
  - rewrite List.map_app, List.map_map. f_equal.
    apply List.map_ext. by intros [[f c] o].
  - by rewrite length_app, length_map.
  - intros Hne Hq.
    rewrite (emit_quiet bodies fuel d evt args w1 ls T S Hne Hq).
    eexists. split; [reflexivity|].
    destruct (sweep_spec d evt args ls w1 T) as (_ & Hlog & _). by rewrite Hlog, L.
Qed.

Lemma listeners_are_called_in_registration_order_witness :
  let regs := [(4, VObj 9, false); (5, VNull, true); (4, VUndefined, false)] in
  table_ok empty_world /\
  listeners (EvStr "e") (register_all (EvStr "e") regs empty_world) = [4; 5; 4] /\
  exists w2,
    emit quiet_bodies 1 0 (EvStr "e") [VNum 8]
      (register_all (EvStr "e") regs empty_world) = Returned true w2 /\
    log w2 = [Invoked (EE.new 4 (VObj 9) false) [VNum 8] 0;
              Invoked (EE.new 5 emitter true) [VNum 8] 0;
              Invoked (EE.new 4 emitter false) [VNum 8] 0].
Proof.
  intros regs.
  destruct (listeners_are_called_in_registration_order quiet_bodies 0 0 (EvStr "e")
              [VNum 8] regs empty_world table_ok_empty) as (Hl & _ & He).
  split; [apply table_ok_empty|]. split; [exact Hl|].
  apply He; [discriminate|]. apply Forall_forall. intros l _ w0. reflexivity.
Defined.

Lemma removeListener_eventNames evt fn context o w :
  table_ok w ->
  eventNames (removeListener evt fn context o w)
  = match after_removal fn context o (sequence_of evt w) with
    | [] => List.filter (fun e => negb (bool_decide (e = evt))) (eventNames w)
    | _ :: _ => eventNames w
    end.
Proof.
  intros Hok. unfold removeListener, after_removal, sequence_of.
  destruct (JsMap.has evt (_events w)) eqn:Hhas; simpl.
  - apply JsMapFacts.has_get in Hhas as Hget. destruct Hget as [a Ha]. rewrite Ha.
    destruct (truthy fn); simpl; [|apply JsMapFacts.keys_delete].
    destruct (List.filter _ _) as [|x kept]; simpl; [apply JsMapFacts.keys_delete|].
    unfold eventNames. simpl. by apply keys_set_present.
  - apply JsMapFacts.has_false in Hhas. rewrite Hhas.
    rewrite filter_other_names by (by apply not_has_not_named).
    by destruct (truthy fn).
Qed.

Lemma after_removal_twice fn context o ls :
  after_removal fn context o (after_removal fn context o ls)
  = after_removal fn context o ls.
Proof.
  unfold after_removal. destruct (truthy fn); [|done].
  rewrite filter_twice. apply List.filter_ext. intros x.
  by destruct (retained fn context o x).
Qed.

(** X4.  What [removeListener] does to [eventNames()]: the names of the
    other events stay, in their order; the name of the event itself goes
    exactly when the removal leaves the event no listener, and stays in its
    place otherwise. *)
Theorem removal_keeps_the_order_of_event_names evt fn context o w :
  table_ok w ->
  let w' := removeListener evt fn context o w in
  eventNames w'
  = match sequence_of evt w' with
    | [] => List.filter (fun e => negb (bool_decide (e = evt))) (eventNames w)
    | _ :: _ => eventNames w
    end /\
  (forall e, e <> evt -> In e (eventNames w') <-> In e (eventNames w)) /\
  (In evt (eventNames w') <-> sequence_of evt w' <> []) /\
  eventNames (off evt fn context o w) = eventNames w'.
Proof.
  intros Hok w'.
  destruct (removeListener_spec evt fn context o w Hok) as (T & _ & S & _).
  fold w' in T, S.
  assert (Hn := removeListener_eventNames evt fn context o w Hok).
  fold w' in Hn. rewrite <- S in Hn.
  split; [exact Hn|]. split; [|split; [|done]].
  - intros e He. rewrite Hn. destruct (sequence_of evt w'); [|done].
    rewrite List.filter_In. split; [tauto|]. intros Hin. split; [done|].
    by rewrite bool_decide_eq_false_2.
  - rewrite eventNames_has. apply (table_ok_sequence evt w' T).
Qed.

Lemma removal_keeps_the_order_of_event_names_witness :
  table_ok unnamed_world /\
  eventNames (removeListener (EvStr EmptyString) (VFun 1) VUndefined false unnamed_world)
  = [EvStr "x"] /\
  eventNames (removeListener (EvStr EmptyString) (VFun 2) VUndefined false unnamed_world)
  = [EvStr EmptyString; EvStr "x"].
Proof.
  assert (Hok : table_ok unnamed_world) by (apply table_okb_sound; reflexivity).
  split; [exact Hok|]. split.
  - exact (proj1 (removal_keeps_the_order_of_event_names (EvStr EmptyString) (VFun 1)
                    VUndefined false unnamed_world Hok)).
  - exact (proj1 (removal_keeps_the_order_of_event_names (EvStr EmptyString) (VFun 2)
                    VUndefined false unnamed_world Hok)).
Defined.

(** X5.  Removal is idempotent: a second [removeListener] (or [off]) with
    the same arguments changes no listener sequence and no event name. *)
Theorem removal_is_idempotent evt fn context o w :
  table_ok w ->
  let w1 := removeListener evt fn context o w in
  let w2 := removeListener evt fn context o w1 in
  (forall e, sequence_of e w2 = sequence_of e w1) /\
  (forall e, listeners e w2 = listeners e w1) /\
  (forall e, listenerCount e w2 = listenerCount e w1) /\
  eventNames w2 = eventNames w1.
Proof.
  intros Hok w1 w2.
  destruct (removeListener_spec evt fn context o w Hok) as (T1 & _ & S1 & _).
  fold w1 in T1, S1.
  destruct (removeListener_spec evt fn context o w1 T1) as (_ & _ & S2 & O2 & _).
  fold w2 in S2, O2.
  assert (Hseq : forall e, sequence_of e w2 = sequence_of e w1).
  { intros e. destruct (decide (e = evt)) as [->|He]; [|by apply O2].
    by rewrite S2, S1, after_removal_twice. }
  split; [exact Hseq|]. split; [|split].
  - intros e. by rewrite !listeners_sequence, Hseq.
  - intros e. by rewrite !listenerCount_sequence, Hseq.
  - unfold w2. rewrite (removeListener_eventNames evt fn context o w1 T1).
    rewrite S1, after_removal_twice, <- S1.
    destruct (sequence_of evt w1) eqn:E; [|done].
    apply filter_other_names. rewrite eventNames_has.
    rewrite (table_ok_sequence evt w1 T1). congruence.
Qed.

Lemma removal_is_idempotent_witness :
  table_ok demo_world /\
  let w1 := removeListener (EvStr "x") (VFun 2) VUndefined true demo_world in
  let w2 := removeListener (EvStr "x") (VFun 2) VUndefined true w1 in
  (forall e, listeners e w2 = listeners e w1) /\ eventNames w2 = eventNames w1.
Proof.
  assert (Hok : table_ok demo_world) by (apply table_okb_sound; reflexivity).
  split; [exact Hok|].
  destruct (removal_is_idempotent (EvStr "x") (VFun 2) VUndefined true demo_world Hok)
    as (_ & Hl & _ & Hn).
  split; [exact Hl|exact Hn].
Defined.

(** X6.  [off] undoes [on].  Registering [f] for an event and then calling
    [off(evt, f)] leaves every listener sequence and [eventNames()] as a
    plain [off(evt, f)] would have; so when no listener of the event had
    the function [f] before, the registry is back where it was: the same
    listeners for every event, the same event names in the same order. *)
Theorem off_undoes_registration evt f context (one : bool) w :
  well_formed w ->
  exists w1,
    (if one then once else on) evt (VFun f) context w = Returned tt w1 /\
    let w2 := off evt (VFun f) VUndefined false w1 in
    let w0 := off evt (VFun f) VUndefined false w in
    (forall e, sequence_of e w2 = sequence_of e w0) /\
    eventNames w2 = eventNames w0 /\
    (Forall (fun l => EE.fn l <> f) (sequence_of evt w) ->
     (forall e, sequence_of e w2 = sequence_of e w) /\
     eventNames w2 = eventNames w).
Proof.
  intros (Hok & Hun & Hnd).
  destruct (addListener_function evt f context one w Hok) as (w1 & He & T1 & _ & S1 & _).
  destruct (addListener_others evt f context one w w1 Hok Hun He) as (O1 & N1).
  exists w1. split; [by destruct one|]. intros w2 w0. unfold off in *.
  destruct (removeListener_spec evt (VFun f) VUndefined false w1 T1) as (_ & _ & S2 & O2 & _).
  destruct (removeListener_spec evt (VFun f) VUndefined false w Hok) as (_ & _ & S0 & O0 & _).
  fold w2 in S2, O2. fold w0 in S0, O0.
  assert (Hgone : after_removal (VFun f) VUndefined false
                    (sequence_of evt w ++ [listener_for f context one])
                  = after_removal (VFun f) VUndefined false (sequence_of evt w)).
  { unfold after_removal. simpl. rewrite List.filter_app. simpl.
    rewrite retained_taken. unfold taken. simpl. rewrite Nat.eqb_refl. simpl.
    by rewrite app_nil_r. }
  assert (Hseq : forall e, sequence_of e w2 = sequence_of e w0).
  { intros e. destruct (decide (e = evt)) as [->|Hne].
    - by rewrite S2, S1, Hgone, S0.
    - by rewrite O2, O1, O0. }
  assert (Hnames : eventNames w2 = eventNames w0).
  { unfold w2, w0. rewrite !removeListener_eventNames by done.
    rewrite S1, Hgone, N1.
    destruct (after_removal _ _ _ (sequence_of evt w)) as [|x kept] eqn:HR.
    - destruct (JsMap.has evt (_events w)); [done|].
      rewrite List.filter_app. simpl. rewrite bool_decide_eq_true_2 by done.
      simpl. by rewrite app_nil_r.
    - destruct (JsMap.has evt (_events w)) eqn:Hhas; [done|].
      apply JsMapFacts.has_false in Hhas. unfold sequence_of in HR.
      rewrite Hhas in HR. discriminate. }
  split; [exact Hseq|]. split; [exact Hnames|].
  intros Hnew.
  assert (Hkeep : after_removal (VFun f) VUndefined false (sequence_of evt w)
                  = sequence_of evt w).
  { unfold after_removal. simpl. apply filter_all. intros l Hl.
    rewrite Forall_forall in Hnew. specialize (Hnew l ltac:(by apply list_elem_of_In)).
    rewrite retained_taken. unfold taken. simpl.
    destruct (Nat.eqb_spec (EE.fn l) f); [done|done]. }
  split.
  - intros e. rewrite Hseq. destruct (decide (e = evt)) as [->|Hne].
    + by rewrite S0, Hkeep.
    + by apply O0.
  - rewrite Hnames. unfold w0. rewrite removeListener_eventNames by done.
    rewrite Hkeep. destruct (sequence_of evt w) eqn:E; [|done].
    apply filter_other_names. rewrite eventNames_has.
    rewrite (table_ok_sequence evt w Hok). congruence.
Qed.

Lemma off_undoes_registration_witness :
  well_formed demo_world /\
  Forall (fun l => EE.fn l <> 3) (sequence_of (EvStr "y") demo_world) /\
  exists w1,
    on (EvStr "y") (VFun 3) VUndefined demo_world = Returned tt w1 /\
    (forall e, sequence_of e (off (EvStr "y") (VFun 3) VUndefined false w1)
               = sequence_of e demo_world) /\
    eventNames (off (EvStr "y") (VFun 3) VUndefined false w1) = eventNames demo_world.
Proof.
  pose proof well_formed_demo as Hwf.
  split; [exact Hwf|]. split; [constructor|].
  destruct (off_undoes_registration (EvStr "y") 3 VUndefined false demo_world Hwf)
    as (w1 & He & _ & _ & Hback).
  exists w1. split; [exact He|]. apply Hback. constructor.
Defined.

Lemma delete_absent k m : JsMap.get k m = None -> JsMap.delete k m = m.
Proof.
  induction m as [|[k0 v0] m IH]; simpl; [done|].
  destruct (decide (k = k0)) as [->|Hne]; [discriminate|].
  intros H. rewrite bool_decide_eq_false_2 by congruence. simpl. f_equal. auto.
Qed.

(** X7.  [off] (or [removeListener]) without a function clears the event
    and nothing else: the event has no listener and no name afterwards, the
    entries of all other events and all arrays are as before.  For a truthy
    event name this is [removeAllListeners(evt)]; unlike that method it
    also clears just the one event when the name is the empty string. *)
Theorem off_without_function_clears_the_event evt fn context o w :
  truthy fn = false ->
  let w' := off evt fn context o w in
  _events w' = JsMap.delete evt (_events w) /\
  heap w' = heap w /\
  sequence_of evt w' = [] /\
  listenerCount evt w' = 0 /\
  ~ In evt (eventNames w') /\
  (forall e, e <> evt ->
     JsMap.get e (_events w') = JsMap.get e (_events w) /\
     sequence_of e w' = sequence_of e w) /\
  (event_given (Some evt) = true -> w' = removeAllListeners (Some evt) w).
Proof.
  intros Hfn w'.
  assert (Hwhat : w' = if JsMap.has evt (_events w) then clearEvent evt w else w).
  { unfold w', off, removeListener.
    destruct (JsMap.has evt (_events w)) eqn:Hhas; simpl; [|done].
    destruct (JsMap.get evt (_events w)); [|done]. by rewrite Hfn. }
  assert (Hev : _events w' = JsMap.delete evt (_events w)).
  { rewrite Hwhat. destruct (JsMap.has evt (_events w)) eqn:Hhas; [done|].
    apply JsMapFacts.has_false in Hhas. by rewrite delete_absent. }
  assert (Hh : heap w' = heap w).
  { rewrite Hwhat. by destruct (JsMap.has evt (_events w)). }
  split; [exact Hev|]. split; [exact Hh|].
  unfold sequence_of, listenerCount, eventNames, array_at. rewrite Hev, Hh.
  rewrite JsMapFacts.get_delete_eq. repeat split; auto.
  - intros Hin. apply JsMapFacts.keys_get in Hin as [a Ha].
    by rewrite JsMapFacts.get_delete_eq in Ha.
  - by apply JsMapFacts.get_delete_ne.
  - by rewrite JsMapFacts.get_delete_ne.
  - intros Hg. rewrite Hwhat. unfold removeAllListeners. by rewrite Hg.
Qed.

Lemma off_without_function_clears_the_event_witness :
  truthy VUndefined = false /\
  eventNames (off (EvStr EmptyString) VUndefined VUndefined false unnamed_world)
  = [EvStr "x"] /\
  sequence_of (EvStr "x") (off (EvStr EmptyString) VUndefined VUndefined false unnamed_world)
  = sequence_of (EvStr "x") unnamed_world.
Proof.
  destruct (off_without_function_clears_the_event (EvStr EmptyString) VUndefined
              VUndefined false unnamed_world eq_refl)
    as (Hev & _ & _ & _ & _ & Hothers & _).
  split; [reflexivity|]. split.
  - unfold eventNames. rewrite Hev. reflexivity.
  - apply Hothers. discriminate.
Defined.

(** X8.  What [emit] returns.  Whatever the listener bodies do, an [emit]
    that returns, returns whether the event had listeners when it was
    called: [true] also when its listeners removed every listener on the
    way, [false] only when there was none to call.  An [emit] that throws
    had listeners. *)
Theorem emit_returns_whether_there_were_listeners bodies fuel d evt args w :
  table_ok w ->
  (forall b w',
     emit bodies (S fuel) d evt args w = Returned b w' ->
     b = negb (Nat.eqb (listenerCount evt w) 0) /\
     (b = true <-> listeners evt w <> []) /\
     (b = false -> w' = w)) /\
  (forall err w',
     emit bodies (S fuel) d evt args w = Threw err w' -> listeners evt w <> []).
Proof.
  intros Hok.
  assert (Hnil : listeners evt w <> [] <-> listenerCount evt w <> 0).
  { rewrite listeners_sequence, listenerCount_sequence.
    destruct (sequence_of evt w); simpl; split; congruence. }
  pose proof (emit_dispatch bodies fuel d evt args w Hok) as Hd.
  split.
  - intros b w' He. rewrite He in Hd. destruct Hd as (Hb & _).
    split; [exact Hb|]. rewrite Hnil. split.
    + rewrite Hb. destruct (Nat.eqb_spec (listenerCount evt w) 0); simpl; split;
        congruence.
    + intros ->. destruct (Nat.eqb_spec (listenerCount evt w) 0) as [H0|]; [|done].
      rewrite (emit_none bodies fuel d evt args w H0) in He. congruence.
  - intros err w' He. rewrite He in Hd. destruct Hd as (_ & _ & k & Hk & _).
    apply Hnil. lia.
Qed.

Lemma emit_returns_whether_there_were_listeners_witness :
  table_ok demo_world /\
  exists w',
    emit removing_bodies 1 0 (EvStr "x") [] demo_world = Returned true w' /\
    listeners (EvStr "x") w' = [] /\
    true = negb (Nat.eqb (listenerCount (EvStr "x") demo_world) 0).
Proof.
  assert (Hok : table_ok demo_world) by (apply table_okb_sound; reflexivity).
  split; [exact Hok|]. eexists. split; [reflexivity|]. split; [reflexivity|].
  exact (proj1 (proj1 (emit_returns_whether_there_were_listeners removing_bodies 0 0
                         (EvStr "x") [] demo_world Hok) true _ eq_refl)).
Defined.

(** X9.  No array is ever rewritten.  An array that is in the heap keeps
    its elements at their positions: removal and clearing leave it exactly
    as it is (removal builds a new array), a registration appends at most
    one listener to it, and [emit], whatever the listener bodies do, leaves
    it with at most some listeners appended. *)
Theorem arrays_are_never_rewritten a ls w :
  table_ok w -> heap w !! a = Some ls ->
  (forall evt fn context o, heap (removeListener evt fn context o w) !! a = Some ls) /\
  (forall evt, heap (removeAllListeners evt w) !! a = Some ls) /\
  (forall evt fn context o,
     settled (fun w' => exists more, heap w' !! a = Some (ls ++ more) /\ length more <= 1)
       (addListener evt fn context o w)) /\
  (forall bodies fuel d evt args,
     settled (fun w' => exists more, heap w' !! a = Some (ls ++ more))
       (emit bodies fuel d evt args w)).
Proof.
  intros Hok Ha. split; [|split; [|split]].
  - intros. by apply removeListener_spec.
  - intros. by rewrite (proj1 (removeAllListeners_frame evt w)).
  - intros evt fn context o. unfold addListener.
    assert (Hsame : exists more, heap w !! a = Some (ls ++ more) /\ length more <= 1).
    { exists []. rewrite app_nil_r. simpl. split; [done|lia]. }
    destruct fn; simpl; auto.
    destruct (JsMap.has evt (_events w)); simpl.
    + destruct (JsMap.get evt (_events w)) as [b|]; simpl; auto.
      destruct (decide (a = b)) as [<-|Hne].
      * exists [EE.new id (if truthy context then context else emitter) o].
        rewrite list_lookup_alter_eq, Ha. simpl. split; [done|lia].
      * by rewrite list_lookup_alter_ne.
    + exists []. rewrite app_nil_r. simpl. split; [|lia].
      by rewrite lookup_app_l by (by eapply lookup_lt_Some).
  - intros bodies fuel d evt args.
    pose proof (emit_sound bodies fuel d evt args w Hok) as Hs.
    destruct (emit bodies fuel d evt args w); simpl in *; auto;
      destruct Hs as (_ & Hk & _); by apply Hk.
Qed.

Lemma arrays_are_never_rewritten_witness :
  table_ok demo_world /\
  heap demo_world !! 0 = Some [EE.new 1 emitter false; EE.new 2 emitter true] /\
  heap (removeListener (EvStr "x") (VFun 1) VUndefined false demo_world) !! 0
  = Some [EE.new 1 emitter false; EE.new 2 emitter true] /\
  settled (fun w' => exists more,
             heap w' !! 0 = Some ([EE.new 1 emitter false; EE.new 2 emitter true] ++ more))
    (emit adding_on_bodies 1 0 (EvStr "x") [] demo_world).
Proof.
  assert (Hok : table_ok demo_world) by (apply table_okb_sound; reflexivity).
  destruct (arrays_are_never_rewritten 0 [EE.new 1 emitter false; EE.new 2 emitter true]
              demo_world Hok eq_refl) as (Hrem & _ & _ & Hemit).
  split; [exact Hok|]. split; [reflexivity|]. split; [apply Hrem|apply Hemit].
Defined.

Lemma sweep_persistent d evt args seg :
  forallb persistent seg = true ->
  forall w, sweep d evt args seg w
            = World (_events w) (heap w) (log w ++ entries d args seg).
Proof.
  induction seg as [|l seg IH]; intros Hall w.
  - simpl. rewrite app_nil_r. by destruct w.
  - simpl in Hall. apply andb_prop in Hall as [Hl Hall].
    change (sweep d evt args (l :: seg) w)
      with (sweep d evt args seg (pass d evt args l w)).
    rewrite (IH Hall). unfold pass, select, persistent in *.
    destruct (EE.once l); [discriminate|]. simpl. by rewrite <- app_assoc.
Qed.

(** X10.  [emit] changes the table only through one-shot listeners.  When
    every listener of the event is persistent and the bodies leave the
    registry alone, [emit] returns with the event table and every array
    exactly as they were; all it did was to call the listeners in order. *)
Theorem emit_to_persistent_listeners_keeps_the_table bodies fuel d evt args w :
  table_ok w ->
  forallb persistent (sequence_of evt w) = true ->
  Forall (quiet_at bodies args) (sequence_of evt w) ->
  exists w',
    emit bodies (S fuel) d evt args w
    = Returned (negb (Nat.eqb (listenerCount evt w) 0)) w' /\
    _events w' = _events w /\
    heap w' = heap w /\
    log w' = log w ++ entries d args (sequence_of evt w).
Proof.
  intros Hok Hps Hq. destruct (sequence_of evt w) as [|x ls] eqn:E.
  - exists w. rewrite emit_none by (by rewrite listenerCount_sequence, E).
    rewrite listenerCount_sequence, E. simpl. by rewrite app_nil_r.
  - rewrite (emit_quiet bodies fuel d evt args w (x :: ls) Hok E ltac:(done) Hq).
    rewrite (sweep_persistent d evt args _ Hps), listenerCount_sequence, E.
    eexists. split; [reflexivity|]. done.
Qed.

Lemma emit_to_persistent_listeners_keeps_the_table_witness :
  table_ok unnamed_world /\
  exists w',
    emit quiet_bodies 1 0 (EvStr "x") [VNum 1] unnamed_world = Returned true w' /\
    _events w' = _events unnamed_world /\
    heap w' = heap unnamed_world /\
    log w' = [Invoked (EE.new 2 emitter false) [VNum 1] 0].
Proof.
  assert (Hok : table_ok unnamed_world) by (apply table_okb_sound; reflexivity).
  split; [exact Hok|].
  apply (emit_to_persistent_listeners_keeps_the_table quiet_bodies 0 0 (EvStr "x")
           [VNum 1] unnamed_world Hok eq_refl).
  apply Forall_forall. intros l _ w0. reflexivity.
Defined.

(** X11.  A [once] listener fires once and leaves no trace.  On an event
    without listeners, [once(evt, f, context)] followed by [emit(evt, ...)]
    (the body of [f] leaving the registry alone) calls [f] once, with the
    arguments of the [emit] and the context given (the registry if that is
    falsy), and returns [true]; afterwards every event has the listeners it
    had before the registration, [eventNames()] is what it was, and any
    further [emit(evt, ...)] returns [false] and changes nothing. *)
Theorem once_listener_fires_once_and_leaves bodies fuel d evt f context args w :
  well_formed w ->
  listenerCount evt w = 0 ->
  quiet_at bodies args (listener_for f context true) ->
  exists w1 w2,
    once evt (VFun f) context w = Returned tt w1 /\
    emit bodies (S fuel) d evt args w1 = Returned true w2 /\
    log w2 = log w ++ [Invoked (listener_for f context true) args d] /\
    (forall e, sequence_of e w2 = sequence_of e w) /\
    eventNames w2 = eventNames w /\
    (forall fuel' d' args', emit bodies (S fuel') d' evt args' w2 = Returned false w2).
Proof.
  intros (Hok & Hun & _) Hnone Hq.
  set (N := listener_for f context true) in *.
  assert (Hseq0 : sequence_of evt w = []).
  { rewrite listenerCount_sequence in Hnone. by destruct (sequence_of evt w). }
  assert (Hhas : JsMap.has evt (_events w) = false).
  { apply not_true_is_false. rewrite (table_ok_sequence evt w Hok). congruence. }
  destruct (addListener_function evt f context true w Hok)
    as (w1 & He & T1 & L1 & S1 & _).
  destruct (addListener_others evt f context true w w1 Hok Hun He) as (O1 & N1).
  fold N in S1. rewrite Hseq0 in S1. simpl in S1. rewrite Hhas in N1.
  assert (Hemit := emit_quiet bodies fuel d evt args w1 [N] T1 S1 ltac:(done)
                     ltac:(by constructor)).
  destruct (sweep_spec d evt args [N] w1 T1) as (T2 & L2 & _ & S2 & O2).
  set (w2 := sweep d evt args [N] w1) in *.
  assert (Hgone : sequence_of evt w2 = []).
  { rewrite S2, S1. simpl. unfold spared_by. simpl. by rewrite Nat.eqb_refl. }
  exists w1, w2. split; [exact He|]. split; [exact Hemit|].
  split; [by rewrite L2, L1|]. split; [|split].
  - intros e. destruct (decide (e = evt)) as [->|Hne].
    + by rewrite Hgone, Hseq0.
    + by rewrite O2, O1.
  - change (eventNames w2)
      with (eventNames (removeListener evt (VFun (EE.fn N)) VUndefined true w1)).
    rewrite (removeListener_eventNames _ _ _ _ _ T1), S1.
    unfold after_removal. simpl. rewrite retained_taken. unfold taken. simpl.
    rewrite Nat.eqb_refl. simpl. rewrite N1, List.filter_app. simpl.
    rewrite bool_decide_eq_true_2 by done. simpl. rewrite app_nil_r.
    apply filter_other_names. rewrite eventNames_has, Hhas. discriminate.
  - intros fuel' d' args'. apply emit_none.
    by rewrite listenerCount_sequence, Hgone.
Qed.

Lemma once_listener_fires_once_and_leaves_witness :
  well_formed demo_world /\
  listenerCount (EvStr "y") demo_world = 0 /\
  exists w1 w2,
    once (EvStr "y") (VFun 3) (VObj 7) demo_world = Returned tt w1 /\
    emit quiet_bodies 1 0 (EvStr "y") [VNum 1] w1 = Returned true w2 /\
    log w2 = log demo_world ++ [Invoked (EE.new 3 (VObj 7) true) [VNum 1] 0] /\
    eventNames w2 = eventNames demo_world.
Proof.
  pose proof well_formed_demo as Hwf.
  split; [exact Hwf|]. split; [reflexivity|].
  destruct (once_listener_fires_once_and_leaves quiet_bodies 0 0 (EvStr "y") 3 (VObj 7)
              [VNum 1] demo_world Hwf eq_refl) as (w1 & w2 & H1 & H2 & H3 & _ & H5 & _).
  - intros w0. reflexivity.
  - exists w1, w2. auto.
Defined.

(** ** The whole effect of a quiet dispatch *)

Lemma filter_names_twice evt (names : list EventName) :
  List.filter (fun e => negb (bool_decide (e = evt)))
    (List.filter (fun e => negb (bool_decide (e = evt))) names)
  = List.filter (fun e => negb (bool_decide (e = evt))) names.
Proof.
  rewrite filter_twice. apply List.filter_ext. intros e. by destruct (negb _).
Qed.

Lemma select_eventNames evt l w :
  table_ok w ->
  eventNames (select evt l w)
  = match sequence_of evt (select evt l w) with
    | [] => List.filter (fun e => negb (bool_decide (e = evt))) (eventNames w)
    | _ :: _ => eventNames w
    end.
Proof.
  intros Hok. unfold select. destruct (EE.once l).
  - destruct (removeListener_spec evt (VFun (EE.fn l)) VUndefined true w Hok)
      as (_ & _ & S & _).
    rewrite S. by apply removeListener_eventNames.
  - destruct (sequence_of evt w) eqn:E; [|done].
    symmetry. apply filter_other_names. rewrite eventNames_has.
    rewrite (table_ok_sequence evt w Hok). congruence.
Qed.

Lemma sweep_eventNames d evt args seg :
  forall w, table_ok w ->
  eventNames (sweep d evt args seg w)
  = match sequence_of evt (sweep d evt args seg w) with
    | [] => List.filter (fun e => negb (bool_decide (e = evt))) (eventNames w)
    | _ :: _ => eventNames w
    end.
Proof.
  induction seg as [|l seg IH]; intros w Hok.
  - simpl. destruct (sequence_of evt w) eqn:E; [|done].
    symmetry. apply filter_other_names. rewrite eventNames_has.
    rewrite (table_ok_sequence evt w Hok). congruence.
  - change (sweep d evt args (l :: seg) w)
      with (sweep d evt args seg (pass d evt args l w)).
    destruct (pass_spec d evt args l w Hok) as (T1 & _ & _ & _).
    rewrite (IH _ T1).
    destruct (sweep_spec d evt args seg _ T1) as (_ & _ & _ & S2 & _).
    change (eventNames (pass d evt args l w)) with (eventNames (select evt l w)).
    change (sequence_of evt (pass d evt args l w))
      with (sequence_of evt (select evt l w)) in S2.
    rewrite (select_eventNames evt l w Hok).
    destruct (sequence_of evt (sweep d evt args seg (pass d evt args l w))) eqn:E.
    + destruct (sequence_of evt (select evt l w)); [|done].
      apply filter_names_twice.
    + destruct (sequence_of evt (select evt l w)); [|done].
      rewrite S2 in E. discriminate.
Qed.

(** X13.  What a dispatch to quiet listeners leaves behind.  When the
    bodies leave the registry alone, [emit] returns whether there was a
    listener, and afterwards the event has exactly its persistent listeners,
    in their order; every other event has the listeners it had; and
    [eventNames()] is as before, less the event itself exactly when no
    listener of it is left. *)
Theorem emit_leaves_the_persistent_listeners bodies fuel d evt args w :
  table_ok w ->
  Forall (quiet_at bodies args) (sequence_of evt w) ->
  exists w',
    emit bodies (S fuel) d evt args w
    = Returned (negb (Nat.eqb (listenerCount evt w) 0)) w' /\
    sequence_of evt w' = List.filter persistent (sequence_of evt w) /\
    (forall e, e <> evt -> sequence_of e w' = sequence_of e w) /\
    eventNames w'
    = match List.filter persistent (sequence_of evt w) with
      | [] => List.filter (fun e => negb (bool_decide (e = evt))) (eventNames w)
      | _ :: _ => eventNames w
      end.
Proof.
  intros Hok Hq. destruct (sequence_of evt w) as [|x ls] eqn:E.
  - exists w. rewrite emit_none by (by rewrite listenerCount_sequence, E).
    rewrite listenerCount_sequence, E. simpl. repeat split; auto.
    symmetry. apply filter_other_names. rewrite eventNames_has.
    rewrite (table_ok_sequence evt w Hok). congruence.
  - rewrite (emit_quiet bodies fuel d evt args w (x :: ls) Hok E ltac:(done) Hq).
    destruct (sweep_spec d evt args (x :: ls) w Hok) as (_ & _ & _ & S & O).
    pose proof (sweep_eventNames d evt args (x :: ls) w Hok) as N.
    rewrite E, filter_outlives_self in S. rewrite S in N.
    rewrite listenerCount_sequence, E.
    eexists. split; [reflexivity|]. repeat split; auto.
Qed.

Lemma emit_leaves_the_persistent_listeners_witness :
  table_ok twin_world /\
  exists w',
    emit quiet_bodies 1 0 (EvStr "x") [] twin_world = Returned true w' /\
    sequence_of (EvStr "x") w' = [] /\
    eventNames w' = [].
Proof.
  assert (Hok : table_ok twin_world) by (apply table_okb_sound; reflexivity).
  split; [exact Hok|].
  destruct (emit_leaves_the_persistent_listeners quiet_bodies 0 0 (EvStr "x") []
              twin_world Hok) as (w' & He & Hs & _ & Hn).
  - apply Forall_forall. intros l _ w0. reflexivity.
  - exists w'. split; [exact He|]. split; [exact Hs|exact Hn].
Defined.

(** ** What one call of a body to the registry does to an event's sequence *)

Lemma filter_true {A} (keep : A -> bool) (l : list A) :
  (forall x, keep x = true) -> List.filter keep l = l.
Proof. intros H. apply filter_all. auto. Qed.

Lemma filter_false {A} (l : list A) : List.filter (fun _ => false) l = [].
Proof. by induction l. Qed.

Lemma addListener_effect evt e fn c (o : bool) w :
  well_formed w ->
  exists r w',
    reply_of (addListener e fn c o w) = Some (r, w') /\
    well_formed w' /\ heap_kept w w' /\ log w' = log w /\
    exists added,
      sequence_of evt w' = sequence_of evt w ++ added /\
      (o = false -> Forall (fun x => persistent x = true) added).
Proof.
  intros Hwf. pose proof Hwf as (Hok & Hun & _).
  pose proof (addListener_well_formed e fn c o w Hwf) as Hs.
  destruct (is_function fn) eqn:Hfn.
  - destruct fn; try discriminate.
    destruct (addListener_function e id c o w Hok) as (w' & He & _ & L & S & H).
    destruct (addListener_others e id c o w w' Hok Hun He) as (O & _).
    rewrite He in *. simpl in Hs. exists RThis, w'.
    split; [done|]. split; [exact Hs|]. split; [exact H|]. split; [exact L|].
    destruct (decide (evt = e)) as [->|Hne].
    + exists [listener_for id c o]. split; [done|]. intros ->. by repeat constructor.
    + exists []. rewrite app_nil_r. split; [by apply O|]. by constructor.
  - rewrite addListener_not_function in * by done. simpl in *.
    do 2 eexists. split; [reflexivity|]. split; [exact Hwf|].
    split; [apply heap_kept_refl|]. split; [done|].
    exists []. rewrite app_nil_r. split; [done|]. by constructor.
Qed.

Lemma removeListener_effect evt e fn c o w :
  well_formed w ->
  well_formed (removeListener e fn c o w) /\
  heap_kept w (removeListener e fn c o w) /\
  log (removeListener e fn c o w) = log w /\
  exists keep,
    sequence_of evt (removeListener e fn c o w) = List.filter keep (sequence_of evt w).
Proof.
  intros Hwf. pose proof Hwf as (Hok & _).
  destruct (removeListener_spec e fn c o w Hok) as (_ & L & S & O & H).
  split; [by apply removeListener_well_formed|]. split; [|split; [done|]].
  - intros a ls Ha. exists []. rewrite app_nil_r. auto.
  - destruct (decide (evt = e)) as [->|Hne].
    + rewrite S. unfold after_removal. destruct (truthy fn); [eauto|].
      exists (fun _ => false). by rewrite filter_false.
    + exists (fun _ => true). rewrite O by done. symmetry. by apply filter_true.
Qed.

Lemma removeAllListeners_effect evt x w :
  well_formed w ->
  well_formed (removeAllListeners x w) /\
  heap_kept w (removeAllListeners x w) /\
  log (removeAllListeners x w) = log w /\
  exists keep,
    sequence_of evt (removeAllListeners x w) = List.filter keep (sequence_of evt w).
Proof.
  intros Hwf. split; [by apply removeAllListeners_well_formed|].
  destruct (removeAllListeners_frame x w) as [Hh Hl].
  split; [|split; [done|]].
  - intros a ls Ha. exists []. by rewrite app_nil_r, Hh.
  - assert (Hnone : exists keep, [] = List.filter keep (sequence_of evt w)).
    { exists (fun _ => false). by rewrite filter_false. }
    assert (Hsame : exists keep, sequence_of evt w = List.filter keep (sequence_of evt w)).
    { exists (fun _ => true). symmetry. by apply filter_true. }
    unfold removeAllListeners. destruct (event_given x).
    + destruct x as [e|]; [|done].
      destruct (JsMap.has e (_events w)); [|done].
      unfold sequence_of at 1. unfold array_at. simpl.
      destruct (decide (evt = e)) as [->|Hne].
      * by rewrite JsMapFacts.get_delete_eq.
      * rewrite JsMapFacts.get_delete_ne by done. exact Hsame.
    + exact Hnone.
Qed.

Lemma perform_effect evt emit_rec d o w :
  is_emit o = false -> well_formed w ->
  exists r w',
    perform emit_rec d o w = Some (r, w') /\
    well_formed w' /\ heap_kept w w' /\ log w' = log w /\
    exists keep added,
      sequence_of evt w' = List.filter keep (sequence_of evt w) ++ added /\
      (is_once o = false -> Forall (fun x => persistent x = true) added) /\
      (is_removal o = false -> forall x, keep x = true).
Proof.
  intros Ho Hwf.
  assert (Hsame : exists keep added,
            sequence_of evt w = List.filter keep (sequence_of evt w) ++ added /\
            Forall (fun x => persistent x = true) added /\
            forall x, keep x = true).
  { exists (fun _ => true), []. rewrite app_nil_r.
    split; [symmetry; by apply filter_true|]. split; [constructor|done]. }
  destruct o; try discriminate; simpl.
  1-3: unfold addListener_method, on, once;
    match goal with |- context [addListener ?e ?f ?c ?o ?x] =>
      destruct (addListener_effect evt e f c o x Hwf)
        as (r & w' & -> & T & H & L & added & S & P) end;
    exists r, w'; (split; [done|]); (split; [exact T|]); (split; [exact H|]);
    (split; [exact L|]);
    exists (fun _ => true), added;
    (split; [by rewrite filter_true|]); split; auto; discriminate.
  1-2: unfold off;
    match goal with |- context [removeListener ?e ?f ?c ?o ?x] =>
      destruct (removeListener_effect evt e f c o x Hwf) as (T & H & L & keep & S) end;
    do 2 eexists; (split; [reflexivity|]); (split; [exact T|]); (split; [exact H|]);
    (split; [exact L|]);
    exists keep, []; rewrite app_nil_r; split; [done|]; split; [constructor|discriminate].
  - destruct (removeAllListeners_effect evt evt0 w Hwf) as (T & H & L & keep & S).
    do 2 eexists. split; [reflexivity|]. split; [exact T|]. split; [exact H|].
    split; [exact L|].
    exists keep, []. rewrite app_nil_r. split; [done|]. split; [constructor|discriminate].
  - destruct Hsame as (keep & added & S & P & K).
    do 2 eexists. split; [reflexivity|]. split; [exact Hwf|].
    split; [apply heap_kept_refl|]. split; [done|].
    exists keep, added. auto.
  - destruct Hsame as (keep & added & S & P & K).
    do 2 eexists. split; [reflexivity|]. split; [exact Hwf|].
    split; [apply heap_kept_refl|]. split; [done|].
    exists keep, added. auto.
  - destruct Hsame as (keep & added & S & P & K).
    do 2 eexists. split; [reflexivity|]. split; [exact Hwf|].
    split; [apply heap_kept_refl|]. split; [done|].
    exists keep, added. auto.
Qed.

(** A body that stays out of [emit] comes back or throws, logs nothing, and
    leaves of the sequence of an event what it found, less what it removed,
    followed by what it registered. *)
Lemma run_effect evt emit_rec d ok p :
  (forall o, ok o = true -> is_emit o = false) ->
  within ok p ->
  forall w, well_formed w ->
  exists w',
    (run emit_rec d p w = Returned tt w' \/
     exists err, run emit_rec d p w = Threw err w') /\
    well_formed w' /\ heap_kept w w' /\ log w' = log w /\
    exists keep added,
      sequence_of evt w' = List.filter keep (sequence_of evt w) ++ added /\
      ((forall o, ok o = true -> is_once o = false) ->
       Forall (fun x => persistent x = true) added) /\
      ((forall o, ok o = true -> is_removal o = false) -> forall x, keep x = true).
Proof.
  intros Hok. induction 1 as [|err|o k Ho _ IH]; intros w Hwf; simpl.
  1-2: exists w; (split; [eauto|]); (split; [exact Hwf|]);
    (split; [apply heap_kept_refl|]); (split; [done|]);
    exists (fun _ => true), []; rewrite app_nil_r, filter_true by done;
    split; [done|]; split; [constructor|done].
  destruct (perform_effect evt emit_rec d o w (Hok o Ho) Hwf)
    as (r & w1 & -> & T1 & H1 & L1 & keep1 & added1 & S1 & P1 & K1).
  destruct (IH r w1 T1) as (w' & Hrun & T & H & L & keep2 & added2 & S2 & P2 & K2).
  exists w'. split; [exact Hrun|]. split; [exact T|].
  split; [by eapply heap_kept_trans|]. split; [congruence|].
  exists (fun x => keep1 x && keep2 x), (List.filter keep2 added1 ++ added2).
  split; [|split].
  - by rewrite S2, S1, List.filter_app, filter_twice, app_assoc.
  - intros Hno. apply Forall_app. split; [|by apply P2].
    specialize (P1 (Hno o Ho)). rewrite Forall_forall in P1 |- *.
    intros x Hx. apply P1. apply list_elem_of_In. apply list_elem_of_In in Hx.
    by apply List.filter_In in Hx as [Hx _].
  - intros Hno x. by rewrite K1, K2 by auto.
Qed.

(** ** What becomes of a listener of the sequence, for arbitrary bodies *)

Lemma entries_lookup d args ls i L :
  ls !! i = Some L -> entries d args ls !! i = Some (Invoked L args d).
Proof. intros H. unfold entries. by rewrite list_lookup_fmap, H. Qed.

Lemma emit_reaches bodies fuel d evt args w i L :
  table_ok w ->
  sequence_of evt w !! i = Some L ->
  reaches d args (sequence_of evt w) i L w (emit bodies (S fuel) d evt args w).
Proof.
  intros Hok HL. pose proof (emit_dispatch bodies fuel d evt args w Hok) as Hd.
  destruct (emit bodies (S fuel) d evt args w) as [b w'|err w'|]; [| |done].
  - destruct Hd as (_ & _ & _ & new & Hlog & Hdir & _).
    exists new. split; [done|]. rewrite Hdir. by apply entries_lookup.
  - destruct Hd as (_ & _ & k & Hk & (new & Hlog & Hdir & _) & _).
    rewrite listenerCount_sequence in Hk.
    exists new, k. split; [done|]. split; [done|]. split; [done|]. split.
    + intros Hik. rewrite Hdir. apply entries_lookup.
      rewrite lookup_take_lt by lia. done.
    + intros Hki. rewrite Hdir. unfold entries. rewrite list_lookup_fmap.
      rewrite lookup_take_ge by lia. done.
Qed.

(** When the listeners before [L] neither throw nor emit, every [emit] that
    comes to an end has called [L]. *)
Lemma emit_reaches_after_tame bodies fuel d evt args w i L :
  table_ok w ->
  sequence_of evt w !! i = Some L ->
  Forall (tame_at bodies args) (take i (sequence_of evt w)) ->
  match emit bodies (S fuel) d evt args w with
  | Returned _ w' | Threw _ w' =>
      exists new, log w' = log w ++ new /\
        direct d new !! i = Some (Invoked L args d)
  | OutOfFuel => True
  end.
Proof.
  intros Hok HL Htame.
  pose proof (emit_reaches bodies fuel d evt args w i L Hok HL) as Hr.
  pose proof (emit_dispatch bodies fuel d evt args w Hok) as Hd.
  destruct (emit bodies (S fuel) d evt args w) as [b w'|err w'|]; [done| |done].
  destruct Hd as (_ & _ & k & Hk & (new & Hlog & Hdir & _) & l & wk & Hl & Hc).
  exists new. split; [done|].
  destruct (le_lt_dec i k) as [Hik|Hki].
  - rewrite Hdir. apply entries_lookup. by rewrite lookup_take_lt by lia.
  - exfalso. rewrite Forall_forall in Htame.
    assert (Hin : l ∈ take i (sequence_of evt w)).
    { apply list_elem_of_lookup. exists k. by rewrite lookup_take_lt. }
    destruct (Htame l Hin (record (Invoked l args d) wk)) as [_ Hnr].
    unfold call in Hc. by apply run_no_raise in Hc.
Qed.

(** C3 as stated fails when the listener that removes [L] goes on to throw:
    [on('x', f1); on('x', f2)], the body of [f1] takes [f2] off ['x'] and
    throws.  [emit] throws, and [f2], at position 1 of the sequence in
    flight, is not called. *)
Lemma listener_removed_by_a_thrower_is_not_called :
  sequence_of (EvStr "x") on_pair_world !! 1 = Some (EE.new 2 emitter false) /\
  exists w',
    emit taking_and_throwing_bodies 1 0 (EvStr "x") [] on_pair_world
    = Threw (VStr "boom") w' /\
    sequence_of (EvStr "x") w' = [EE.new 1 emitter false] /\
    log w' = [Invoked (EE.new 1 emitter false) [] 0] /\
    ~ In (Invoked (EE.new 2 emitter false) [] 0) (log w').
Proof.
  split; [reflexivity|]. eexists. split; [reflexivity|]. split; [reflexivity|].
  split; [reflexivity|]. simpl. intros [H|[]]. discriminate.
Qed.

(** C3, amended.  Removal during dispatch does not reach the dispatch in
    flight: the listener [L] at position [i] of the sequence that [emit]
    found is called in its turn, whatever was removed meanwhile, provided
    the listeners called before it return.
    - Whatever the listeners remove, add or inspect (bodies that do not
      throw and do not call [emit] themselves), [emit] returns [true] and
      its [i]-th call is the call of [L].
    - For arbitrary bodies, every [emit] that returns has itself called
      exactly the listeners of that sequence, [L] at position [i].
    - When a listener [K] called before [L] takes the listeners of the
      function of [L] off the event (and the others do nothing), [L] is
      called in its turn although no listener of its function is left in
      the table.
    - For arbitrary bodies, an [emit] that throws has called the listeners
      up to the one that threw: [L] has been called unless that one came
      before it.
    - When the listeners before [L] neither throw nor call [emit], every
      [emit] that comes to an end, returning or throwing, has called [L]. *)
Theorem removed_listener_is_still_called bodies fuel d evt args w :
  table_ok w ->
  (forall i L,
     sequence_of evt w !! i = Some L ->
     Forall (tame_at bodies args) (sequence_of evt w) ->
     exists w',
       emit bodies (S fuel) d evt args w = Returned true w' /\
       log w' = log w ++ entries d args (sequence_of evt w) /\
       log w' !! (length (log w) + i) = Some (Invoked L args d)) /\
  (forall i L b w',
     sequence_of evt w !! i = Some L ->
     emit bodies (S fuel) d evt args w = Returned b w' ->
     exists new,
       log w' = log w ++ new /\
       direct d new = entries d args (sequence_of evt w) /\
       direct d new !! i = Some (Invoked L args d)) /\
  (forall pre K mid L post,
     sequence_of evt w = pre ++ K :: mid ++ L :: post ->
     Forall (quiet_at bodies args) pre ->
     Forall (quiet_at bodies args) (mid ++ L :: post) ->
     (forall w0, bodies (EE.fn K) (EE.context K) args w0
                 = Call (OpOff evt (VFun (EE.fn L)) VUndefined false) (fun _ => Done)) ->
     exists w',
       emit bodies (S fuel) d evt args w = Returned true w' /\
       log w' = log w ++ entries d args (pre ++ K :: mid)
                ++ Invoked L args d :: entries d args post /\
       Forall (fun x => EE.fn x <> EE.fn L) (sequence_of evt w')) /\
  (forall i L,
     sequence_of evt w !! i = Some L ->
     reaches d args (sequence_of evt w) i L w (emit bodies (S fuel) d evt args w)) /\
  (forall i L,
     sequence_of evt w !! i = Some L ->
     Forall (tame_at bodies args) (take i (sequence_of evt w)) ->
     match emit bodies (S fuel) d evt args w with
     | Returned _ w' | Threw _ w' =>
         exists new, log w' = log w ++ new /\
           direct d new !! i = Some (Invoked L args d)
     | OutOfFuel => True
     end).
Proof.
  intros Hok.
  split; [|split; [|split; [|split]]].
  - intros i L HL Hall.
    assert (Hne : sequence_of evt w <> []).
    { intros E. by rewrite E in HL. }
    destruct (emit_tame bodies fuel d evt args w _ Hok eq_refl Hne Hall)
      as (w' & He & _ & _ & Hlog).
    exists w'. repeat split; auto.
    rewrite Hlog, lookup_app_r by lia.
    replace (length (log w) + i - length (log w)) with i by lia.
    by apply entries_lookup.
  - intros i L b w' HL He.
    pose proof (emit_dispatch bodies fuel d evt args w Hok) as Hd.
    rewrite He in Hd. destruct Hd as (_ & _ & _ & new & Hlog & Hdir & _).
    exists new. repeat split; auto. rewrite Hdir. by apply entries_lookup.
  - intros pre K mid L post Hseq Hpre Hpost HK.
    destruct (emit_one_call bodies fuel d evt args w pre K (mid ++ L :: post) _
                Hok Hseq Hpre Hpost HK eq_refl)
      as (r & wK & Hperf & TK & LK & He).
    simpl in Hperf. injection Hperf as _ <-.
    destruct (sweep_spec d evt args (pre ++ [K]) w Hok) as (TpK & _ & _ & _).
    destruct (removeListener_spec evt (VFun (EE.fn L)) VUndefined false _ TpK)
      as (_ & _ & SK & _).
    unfold off in *.
    destruct (sweep_spec d evt args (mid ++ L :: post) _ TK) as (_ & L1 & _ & S1 & _).
    eexists. split; [exact He|]. split.
    + rewrite L1, LK. rewrite <- app_assoc. f_equal.
      rewrite <- entries_app. rewrite <- (app_assoc pre [K]). simpl.
      replace (pre ++ K :: mid ++ L :: post) with ((pre ++ K :: mid) ++ L :: post)
        by (by rewrite <- app_assoc).
      by rewrite entries_app.
    + rewrite S1, SK. apply Forall_forall. intros x Hx.
      apply list_elem_of_In, List.filter_In in Hx as [Hx _].
      unfold after_removal in Hx. simpl in Hx.
      apply List.filter_In in Hx as [_ Hx].
      rewrite retained_taken in Hx. unfold taken in Hx. simpl in Hx.
      rewrite !andb_true_r in Hx.
      by destruct (Nat.eqb_spec (EE.fn x) (EE.fn L)).
  - intros i L HL. by apply emit_reaches.
  - intros i L HL Htame. by apply emit_reaches_after_tame.
Qed.

(** [f1] takes the listeners of [f2] off ['x']. *)
Lemma removed_listener_is_still_called_witness :
  table_ok demo_world /\
  exists w',
    emit taking_bodies 1 0 (EvStr "x") [] demo_world = Returned true w' /\
    log w' = log demo_world
             ++ entries 0 [] ([] ++ EE.new 1 emitter false :: [])
             ++ Invoked (EE.new 2 emitter true) [] 0 :: entries 0 [] [] /\
    Forall (fun x => EE.fn x <> 2) (sequence_of (EvStr "x") w').
Proof.
  assert (Hok : table_ok demo_world) by (apply table_okb_sound; reflexivity).
  split; [exact Hok|].
  apply (proj1 (proj2 (proj2 (removed_listener_is_still_called taking_bodies 0 0
                                (EvStr "x") [] demo_world Hok)))
           [] (EE.new 1 emitter false) [] (EE.new 2 emitter true) []).
  - reflexivity.
  - constructor.
  - repeat constructor.
  - reflexivity.
Defined.

(** ** What [emit] keeps when the bodies stay within a class of operations *)

Section Within.
Variable P : world -> Prop.
Variable ok : op -> bool.
Hypothesis P_perform :
  forall emit_rec d o w r w',
    ok o = true -> is_emit o = false -> P w ->
    perform emit_rec d o w = Some (r, w') -> P w'.
Hypothesis P_select : forall evt l w, P w -> P (select evt l w).
Hypothesis P_record : forall i w, P w -> P (record i w).
Variable bodies : nat -> value -> list value -> world -> prog.
Hypothesis bodies_ok : forall f c a w0, within ok (bodies f c a w0).

Section WithinStep.
Variable emit_rec : nat -> EventName -> list value -> world -> outcome bool.
Hypothesis P_rec : forall d evt args w, P w -> settled P (emit_rec d evt args w).

Lemma run_within d p : within ok p -> forall w, P w -> settled P (run emit_rec d p w).
Proof.
  induction 1 as [|err|o k Ho _ IH]; intros w Hw; simpl; auto.
  destruct (perform emit_rec d o w) as [[r w1]|] eqn:Hp; [|done].
  apply IH. destruct (is_emit o) eqn:He.
  - destruct o; try discriminate. simpl in Hp.
    pose proof (P_rec d evt args w Hw) as Hs.
    destruct (emit_rec d evt args w); simpl in *; [| |discriminate];
      injection Hp as _ <-; exact Hs.
  - by eapply P_perform.
Qed.

Lemma call_within d l args w : P w -> settled P (call bodies emit_rec d l args w).
Proof. intros Hw. unfold call. apply run_within; auto. Qed.

Lemma emit_loop_within d evt args a :
  forall r i w, P w -> settled P (emit_loop bodies emit_rec d evt args a r i w).
Proof.
  induction r as [|r IH]; intros i w Hw; simpl; auto.
  destruct (array_at w a !! i) as [l|]; simpl; auto.
  pose proof (call_within d l args _ (P_select evt l w Hw)) as Hc.
  destruct (call bodies emit_rec d l args (select evt l w)); simpl in *; auto.
Qed.

Lemma emit_body_within d evt args w :
  P w -> settled P (emit_body bodies emit_rec d evt args w).
Proof.
  intros Hw. unfold emit_body.
  destruct (JsMap.get evt (_events w)) as [a|]; simpl; auto.
  destruct (Nat.eqb _ 0); simpl; auto. by apply emit_loop_within.
Qed.
End WithinStep.

Lemma emit_within fuel :
  forall d evt args w, P w -> settled P (emit bodies fuel d evt args w).
Proof.
  induction fuel as [|fuel IH]; intros d evt args w Hw; [done|].
  simpl. by apply emit_body_within.
Qed.
End Within.

(** ** One-shot listeners never come back by themselves *)

Lemma no_shot_filter fs keep ls : no_shot fs ls -> no_shot fs (List.filter keep ls).
Proof.
  unfold no_shot. rewrite !Forall_forall. intros H x Hx. apply H.
  apply list_elem_of_In. apply list_elem_of_In in Hx.
  by apply List.filter_In in Hx as [Hx _].
Qed.

Lemma no_shot_app fs l1 l2 : no_shot fs l1 -> no_shot fs l2 -> no_shot fs (l1 ++ l2).
Proof. intros H1 H2. apply Forall_app. by split. Qed.

Lemma no_shot_persistent fs ls :
  Forall (fun x => persistent x = true) ls -> no_shot fs ls.
Proof.
  intros H. eapply Forall_impl; [exact H|].
  intros x Hx Ho. unfold persistent in Hx. by rewrite Ho in Hx.
Qed.

Lemma no_shot_more fs gs ls : no_shot fs ls -> no_shot gs ls -> no_shot (fs ++ gs) ls.
Proof.
  unfold no_shot. rewrite !Forall_forall. intros H1 H2 x Hx Ho Hin.
  apply in_app_or in Hin as [Hin|Hin]; [by apply (H1 x Hx Ho)|by apply (H2 x Hx Ho)].
Qed.

Lemma no_shot_nil ls : no_shot [] ls.
Proof. apply Forall_forall. intros x _ _ []. Qed.

Lemma select_well_formed evt l w : well_formed w -> well_formed (select evt l w).
Proof.
  intros Hwf. unfold select. destruct (EE.once l); [|done].
  by apply removeListener_well_formed.
Qed.

(** Selecting [l] leaves no one-shot listener of its function. *)
Lemma select_no_shot F d evt l args fs w :
  table_ok w -> no_shot fs (sequence_of evt w) ->
  no_shot (fs ++ shots F d [Invoked l args d]) (sequence_of evt (select evt l w)).
Proof.
  intros Hok Hfs. destruct (select_sequence evt l w Hok) as [-> _].
  apply no_shot_more; [by apply no_shot_filter|].
  apply Forall_forall. intros x Hx Hox Hin.
  apply list_elem_of_In, List.filter_In in Hx as [_ Hsp].
  unfold shots, once_fns in Hin. simpl in Hin. rewrite Nat.eqb_refl in Hin. simpl in Hin.
  destruct (EE.once l) eqn:Hl; simpl in Hin; [|done].
  destruct (F (EE.fn l)); simpl in Hin; [|done].
  destruct Hin as [Hin|[]].
  unfold spared_by in Hsp. rewrite Hl, Hox, Hin, Nat.eqb_refl in Hsp. discriminate.
Qed.

Lemma shots_app F d l1 l2 : shots F d (l1 ++ l2) = shots F d l1 ++ shots F d l2.
Proof.
  unfold shots, once_fns.
  by rewrite direct_app, !List.map_app, List.filter_app, List.map_app, List.filter_app.
Qed.

Lemma shots_deeper F d new : Forall (fun i => S d <= depth i) new -> shots F d new = [].
Proof. intros H. unfold shots. by rewrite (direct_deeper _ _ H). Qed.

Lemma shots_within F d new g : In g (shots F d new) -> F g = true.
Proof. unfold shots. intros H. by apply List.filter_In in H as [_ H]. Qed.

(** A registry without one-shot listeners of the functions [fs] stays so,
    as long as no body registers one of these functions by [once]. *)
Lemma perform_spares evt F fs emit_rec d o w r w' :
  (forall g, In g fs -> F g = true) ->
  not_once_of evt F o = true -> is_emit o = false ->
  well_formed w /\ no_shot fs (sequence_of evt w) ->
  perform emit_rec d o w = Some (r, w') ->
  well_formed w' /\ no_shot fs (sequence_of evt w').
Proof.
  intros HF Ho He [Hwf Hns] Hp.
  destruct (is_once o) eqn:Hon.
  - destruct o; try discriminate. simpl in Hp. unfold once in Hp.
    pose proof Hwf as (Hok & Hun & _).
    pose proof (addListener_well_formed evt0 fn context true w Hwf) as Hs.
    destruct (is_function fn) eqn:Hfn.
    + destruct fn; try discriminate.
      destruct (addListener_function evt0 id context true w Hok)
        as (w1 & Ha & _ & _ & S & _).
      destruct (addListener_others evt0 id context true w w1 Hok Hun Ha) as (O & _).
      rewrite Ha in *. simpl in *. injection Hp as _ <-. split; [exact Hs|].
      destruct (decide (evt = evt0)) as [->|Hne].
      * rewrite S. apply no_shot_app; [done|].
        apply Forall_forall. intros x Hx _ Hin.
        apply list_elem_of_In in Hx as [<-|[]]. simpl in *. apply HF in Hin.
        rewrite bool_decide_eq_true_2 in Ho by done. simpl in Ho.
        by rewrite Hin in Ho.
      * by rewrite O.
    + rewrite addListener_not_function in * by done. simpl in *.
      by injection Hp as _ <-.
  - destruct (perform_effect evt emit_rec d o w He Hwf)
      as (r1 & w1 & Hp1 & T1 & _ & _ & keep & added & S & A & _).
    rewrite Hp1 in Hp. injection Hp as _ <-. split; [exact T1|].
    rewrite S. apply no_shot_app; [by apply no_shot_filter|].
    by apply no_shot_persistent, A.
Qed.

Lemma emit_spares bodies evt F fs fuel :
  (forall f c a w0, within (not_once_of evt F) (bodies f c a w0)) ->
  (forall g, In g fs -> F g = true) ->
  forall d e args w,
    well_formed w /\ no_shot fs (sequence_of evt w) ->
    settled (fun w' => well_formed w' /\ no_shot fs (sequence_of evt w'))
      (emit bodies fuel d e args w).
Proof.
  intros Hb HF.
  apply (emit_within (fun w' => well_formed w' /\ no_shot fs (sequence_of evt w'))
           (not_once_of evt F)); auto.
  - intros emit_rec d o w r w' Ho He Hw. by apply (perform_spares evt F fs).
  - intros e l w [Hwf Hns]. split; [by apply select_well_formed|].
    unfold select. destruct (EE.once l); [|done].
    destruct (removeListener_effect evt e (VFun (EE.fn l)) VUndefined true w Hwf)
      as (_ & _ & _ & keep & ->).
    by apply no_shot_filter.
Qed.

(** The loop of [emit]: when it ends, no one-shot listener of a function of
    [F] that it called itself is left in the sequence of the event. *)
Lemma emit_loop_shots bodies evt F fuel d args a ls :
  (forall f c a0 w0, within (not_once_of evt F) (bodies f c a0 w0)) ->
  forall r i w more fs,
    well_formed w -> heap w !! a = Some (ls ++ more) -> i + r = length ls ->
    (forall g, In g fs -> F g = true) ->
    no_shot fs (sequence_of evt w) ->
    settled (fun w' => exists new,
               log w' = log w ++ new /\ well_formed w' /\
               no_shot (fs ++ shots F d new) (sequence_of evt w'))
      (emit_loop bodies (emit bodies fuel) d evt args a r i w).
Proof.
  intros Hb. induction r as [|r IH]; intros i w more fs Hwf Ha Hlen HF Hns; simpl.
  - exists []. rewrite !app_nil_r. auto.
  - rewrite (array_at_lookup _ _ _ Ha).
    destruct (lookup_lt_is_Some_2 ls i) as [l Hl]; [lia|].
    rewrite (lookup_app_l_Some _ _ _ _ Hl).
    pose proof Hwf as (Hok & _).
    destruct (select_spec evt l w Hok) as (T1 & L1 & H1).
    pose proof (select_well_formed evt l w Hwf) as W1.
    pose proof (select_no_shot F d evt l args fs w Hok Hns) as N1.
    set (fs1 := fs ++ shots F d [Invoked l args d]) in *.
    assert (HF1 : forall g, In g fs1 -> F g = true).
    { intros g Hg. apply in_app_or in Hg as [Hg|Hg]; [auto|by eapply shots_within]. }
    pose proof (call_spec bodies (emit bodies fuel) (emit_sound bodies fuel)
                  d l args (select evt l w) T1) as Hc.
    pose proof (call_within (fun w' => well_formed w' /\ no_shot fs1 (sequence_of evt w'))
                  (not_once_of evt F)
                  (fun emit_rec d0 o w0 r0 w0' Ho He Hw =>
                     perform_spares evt F fs1 emit_rec d0 o w0 r0 w0' HF1 Ho He Hw)
                  (fun i0 w0 Hw => Hw) bodies Hb (emit bodies fuel)
                  (emit_spares bodies evt F fs1 fuel Hb HF1)
                  d l args (select evt l w) (conj W1 N1)) as Hk.
    destruct (call bodies (emit bodies fuel) d l args (select evt l w))
      as [x w2|err w2|]; simpl in *; [| |done].
    + destruct Hc as (T2 & H2 & new & L2 & F2). destruct Hk as [W2 N2].
      destruct (H2 _ _ (H1 _ _ Ha)) as [m2 Ha2]. rewrite <- app_assoc in Ha2.
      specialize (IH (S i) w2 _ fs1 W2 Ha2 ltac:(lia) HF1 N2).
      destruct (emit_loop bodies (emit bodies fuel) d evt args a r (S i) w2)
        as [b w3|err w3|]; simpl in *; [| |done].
      all: destruct IH as (n3 & L3 & W3 & N3);
        exists ((Invoked l args d :: new) ++ n3);
        (split; [by rewrite L3, L2, L1, <- !app_assoc|]); (split; [exact W3|]);
        rewrite shots_app;
        change (Invoked l args d :: new) with ([Invoked l args d] ++ new);
        rewrite shots_app, (shots_deeper F d new F2), app_nil_r, app_assoc;
        exact N3.
    + destruct Hc as (T2 & H2 & new & L2 & F2). destruct Hk as [W2 N2].
      exists (Invoked l args d :: new). split; [by rewrite L2, L1|].
      split; [exact W2|].
      change (Invoked l args d :: new) with ([Invoked l args d] ++ new).
      by rewrite shots_app, (shots_deeper F d new F2), app_nil_r.
Qed.

Lemma emit_shots bodies evt F fuel d args w :
  (forall f c a0 w0, within (not_once_of evt F) (bodies f c a0 w0)) ->
  well_formed w ->
  settled (fun w' => exists new,
             log w' = log w ++ new /\ well_formed w' /\
             no_shot (shots F d new) (sequence_of evt w'))
    (emit bodies (S fuel) d evt args w).
Proof.
  intros Hb Hwf. simpl. unfold emit_body.
  assert (Hsame : exists new, log w = log w ++ new /\ well_formed w /\
                    no_shot (shots F d new) (sequence_of evt w)).
  { exists []. rewrite app_nil_r. split; [done|]. split; [done|]. apply no_shot_nil. }
  destruct (JsMap.get evt (_events w)) as [a|] eqn:Ha; [|exact Hsame].
  destruct (proj1 Hwf _ _ Ha) as (ls & Hls & Hne).
  rewrite (array_at_lookup _ _ _ Hls).
  destruct (Nat.eqb (length ls) 0); [exact Hsame|].
  assert (Hls' : heap w !! a = Some (ls ++ [])) by (by rewrite app_nil_r).
  exact (emit_loop_shots bodies evt F fuel d args a ls Hb (length ls) 0 w [] []
           Hwf Hls' eq_refl (fun g (H : In g []) => match H with end)
           (no_shot_nil _)).
Qed.

(** Later [emit] calls, returning or throwing, call no one-shot listener of
    the functions [fs] themselves. *)
Lemma emit_series_spares bodies evt F fs d :
  (forall f c a0 w0, within (not_once_of evt F) (bodies f c a0 w0)) ->
  (forall g, In g fs -> F g = true) ->
  forall argss fuel w w2,
    well_formed w -> no_shot fs (sequence_of evt w) ->
    emit_series bodies fuel d evt argss w = Some w2 ->
    exists later,
      log w2 = log w ++ later /\
      Forall (fun i => EE.once (who i) = true -> ~ In (EE.fn (who i)) fs)
        (direct d later).
Proof.
  intros Hb HF. induction argss as [|args rest IH]; intros fuel w w2 Hwf Hns; simpl.
  - intros [= <-]. exists []. rewrite app_nil_r. split; [done|]. constructor.
  - destruct fuel as [|fuel]; [discriminate|].
    pose proof (emit_dispatch bodies fuel d evt args w (proj1 Hwf)) as Hd.
    pose proof (emit_spares bodies evt F fs (S fuel) Hb HF d evt args w (conj Hwf Hns))
      as Hs.
    assert (Hsub : forall k, Forall (fun i => EE.once (who i) = true ->
                                       ~ In (EE.fn (who i)) fs)
                     (entries d args (take k (sequence_of evt w)))).
    { intros k. apply Forall_forall. intros i Hi.
      apply list_elem_of_In, in_map_iff in Hi as (x & <- & Hx). simpl.
      unfold no_shot in Hns. rewrite Forall_forall in Hns. apply Hns.
      apply list_elem_of_In, elem_of_take in Hx as (j & Hj & _).
      by eapply list_elem_of_lookup_2. }
    destruct (emit bodies (S fuel) d evt args w) as [b w1|err w1|];
      simpl in Hs; [| |discriminate]; destruct Hs as [W1 N1]; intros Hser;
      destruct (IH (S fuel) w1 w2 W1 N1 Hser) as (later & L2 & F2).
    + destruct Hd as (_ & _ & _ & new & L1 & D1 & _).
      exists (new ++ later). split; [by rewrite L2, L1, <- app_assoc|].
      rewrite direct_app. apply Forall_app. split; [|done].
      rewrite D1, <- (firstn_all (sequence_of evt w)). apply Hsub.
    + destruct Hd as (_ & _ & k & _ & (new & L1 & D1 & _) & _).
      exists (new ++ later). split; [by rewrite L2, L1, <- app_assoc|].
      rewrite direct_app. apply Forall_app. split; [|done].
      rewrite D1. apply Hsub.
Qed.

(** Without [emit] in the bodies, every [emit] comes to an end. *)
Lemma emit_loop_ends bodies emit_rec d evt args a ls :
  (forall f c a0 w0, no_emit (bodies f c a0 w0)) ->
  forall r i w more,
    table_ok w -> heap w !! a = Some (ls ++ more) -> i + r = length ls ->
    exists w', table_ok w' /\
      (emit_loop bodies emit_rec d evt args a r i w = Returned true w' \/
       exists err, emit_loop bodies emit_rec d evt args a r i w = Threw err w').
Proof.
  intros Hb. induction r as [|r IH]; intros i w more Hok Ha Hlen; simpl.
  - exists w. auto.
  - rewrite (array_at_lookup _ _ _ Ha).
    destruct (lookup_lt_is_Some_2 ls i) as [l Hl]; [lia|].
    rewrite (lookup_app_l_Some _ _ _ _ Hl).
    destruct (select_spec evt l w Hok) as (T1 & L1 & H1).
    unfold call.
    set (w0 := record (Invoked l args d) (select evt l w)).
    destruct (run_local emit_rec (S d) _ (Hb (EE.fn l) (EE.context l) args w0) w0 T1)
      as (w2 & [Hrun|[err Hrun]] & T2 & H2 & _); rewrite Hrun.
    + destruct (H2 _ _ (H1 _ _ Ha)) as [m2 Ha2]. rewrite <- app_assoc in Ha2.
      apply (IH (S i) w2 _ T2 Ha2). lia.
    + exists w2. eauto.
Qed.

Lemma emit_ends bodies fuel d evt args w :
  (forall f c a0 w0, no_emit (bodies f c a0 w0)) ->
  table_ok w ->
  exists w', table_ok w' /\
    ((exists b, emit bodies (S fuel) d evt args w = Returned b w') \/
     exists err, emit bodies (S fuel) d evt args w = Threw err w').
Proof.
  intros Hb Hok. simpl. unfold emit_body.
  destruct (JsMap.get evt (_events w)) as [a|] eqn:Ha; [|exists w; eauto].
  destruct (Hok _ _ Ha) as (ls & Hls & Hne).
  rewrite (array_at_lookup _ _ _ Hls).
  destruct (Nat.eqb (length ls) 0); [exists w; eauto|].
  destruct (emit_loop_ends bodies (emit bodies fuel) d evt args a ls Hb
              (length ls) 0 w []) as (w' & T & [H|H]); auto.
  - by rewrite app_nil_r.
  - exists w'. eauto.
  - exists w'. eauto.
Qed.

Lemma emit_series_ends bodies fuel d evt :
  (forall f c a0 w0, no_emit (bodies f c a0 w0)) ->
  forall argss w, table_ok w ->
    exists w2, emit_series bodies (S fuel) d evt argss w = Some w2.
Proof.
  intros Hb. induction argss as [|args rest IH]; intros w Hok.
  - by exists w.
  - cbn [emit_series].
    destruct (emit_ends bodies fuel d evt args w Hb Hok)
      as (w1 & T1 & [[b He]|[err He]]); rewrite He; by apply IH.
Qed.

(** A one-shot listener that registers itself again by [once] is called by
    the next [emit] too. *)
Example one_shot_registered_again_is_called_again :
  exists w1 w2,
    emit renewing_bodies 1 0 (EvStr "x") [VNum 1] demo_world = Returned true w1 /\
    sequence_of (EvStr "x") w1 = [EE.new 1 emitter false; EE.new 2 emitter true] /\
    emit renewing_bodies 1 0 (EvStr "x") [VNum 2] w1 = Returned true w2 /\
    log w2 = [Invoked (EE.new 1 emitter false) [VNum 1] 0;
              Invoked (EE.new 2 emitter true) [VNum 1] 0;
              Invoked (EE.new 1 emitter false) [VNum 2] 0;
              Invoked (EE.new 2 emitter true) [VNum 2] 0].
Proof. do 2 eexists. repeat split; reflexivity. Qed.

(** A one-shot listener that [emit] called itself has its function among
    the [shots] of the log segment. *)
Lemma shots_called F d new i :
  In i (direct d new) -> EE.once (who i) = true -> F (EE.fn (who i)) = true ->
  In (EE.fn (who i)) (shots F d new).
Proof.
  intros Hi Ho HF. unfold shots, once_fns. apply List.filter_In. split; [|done].
  apply in_map_iff. exists (who i). split; [done|].
  apply List.filter_In. split; [|done]. apply in_map_iff. by exists i.
Qed.

Lemma busy_bodies_within f c a w0 :
  within (not_once_of (EvStr "x") (fun _ => true)) (busy_bodies f c a w0).
Proof.
  unfold busy_bodies.
  repeat match goal with
         | |- context [match ?x with _ => _ end] => destruct x
         end; repeat (intros; constructor).
Qed.

Lemma busy_bodies_no_emit f c a w0 : no_emit (busy_bodies f c a w0).
Proof.
  unfold busy_bodies.
  repeat match goal with
         | |- context [match ?x with _ => _ end] => destruct x
         end; repeat (intros; constructor).
Qed.



(** ** A listener registered while [emit] is in flight *)

(** The loop, in two stretches. *)
Lemma emit_loop_app bodies emit_rec d evt args a r1 :
  forall r2 i w,
    emit_loop bodies emit_rec d evt args a (r1 + r2) i w
    = match emit_loop bodies emit_rec d evt args a r1 i w with
      | Returned _ w' => emit_loop bodies emit_rec d evt args a r2 (i + r1) w'
      | Threw err w' => Threw err w'
      | OutOfFuel => OutOfFuel
      end.
Proof.
  induction r1 as [|r1 IH]; intros r2 i w; simpl.
  - by rewrite Nat.add_0_r.
  - destruct (array_at w a !! i) as [l|]; [|done].
    destruct (call bodies emit_rec d l args (select evt l w)); [|done|done].
    rewrite IH. by replace (S i + r1) with (i + S r1) by lia.
Qed.

Lemma take_app_plus {A} (l1 l2 : list A) n :
  take (length l1 + n) (l1 ++ l2) = l1 ++ take n l2.
Proof. induction l1 as [|x l1 IH]; simpl; [done|]. by rewrite IH. Qed.

Lemma drop_past_middle {A} (l1 l2 : list A) x :
  drop (S (length l1)) (l1 ++ x :: l2) = l2.
Proof. induction l1 as [|y l1 IH]; simpl; [done|]. exact IH. Qed.

Lemma not_emit_nor_removal_emit o : not_emit_nor_removal o = true -> is_emit o = false.
Proof. unfold not_emit_nor_removal. by destruct (is_emit o). Qed.

Lemma not_emit_nor_removal_removal o :
  not_emit_nor_removal o = true -> is_removal o = false.
Proof. unfold not_emit_nor_removal. by destruct (is_emit o), (is_removal o). Qed.

(** A body that adds and inspects keeps every listener where it is. *)
Lemma run_adding evt emit_rec d p N :
  within not_emit_nor_removal p ->
  forall w, well_formed w -> In N (sequence_of evt w) ->
  exists w',
    (run emit_rec d p w = Returned tt w' \/
     exists err, run emit_rec d p w = Threw err w') /\
    well_formed w' /\ heap_kept w w' /\ log w' = log w /\
    In N (sequence_of evt w').
Proof.
  intros Hp w Hwf HN.
  destruct (run_effect evt emit_rec d not_emit_nor_removal p
              not_emit_nor_removal_emit Hp w Hwf)
    as (w' & Hrun & T & H & L & keep & added & S & _ & K).
  exists w'. split; [exact Hrun|]. split; [exact T|]. split; [exact H|].
  split; [exact L|].
  rewrite S, filter_true by (apply K, not_emit_nor_removal_removal).
  apply in_or_app. by left.
Qed.

(** A body that registers [g] leaves its listener in the sequence. *)
Lemma run_registers evt g c one emit_rec d p :
  registers evt g c one p ->
  forall w, well_formed w ->
  exists w',
    (run emit_rec d p w = Returned tt w' \/
     exists err, run emit_rec d p w = Threw err w') /\
    well_formed w' /\ heap_kept w w' /\ log w' = log w /\
    In (listener_for g c one) (sequence_of evt w').
Proof.
  induction 1 as [rest Hrest|o k Ho _ IH]; intros w Hwf.
  - pose proof Hwf as (Hok & _).
    destruct (addListener_function evt g c one w Hok) as (w1 & Ha & _ & L1 & S1 & H1).
    pose proof (addListener_well_formed evt (VFun g) c one w Hwf) as W1.
    rewrite Ha in W1. simpl in W1.
    assert (Hp : perform emit_rec d (registration one evt g c) w = Some (RThis, w1)).
    { unfold registration. destruct one; unfold perform, once, on; by rewrite Ha. }
    destruct (run_adding evt emit_rec d (rest RThis) (listener_for g c one)
                (Hrest RThis) w1 W1) as (w' & Hrun & T & H & L & HN).
    { rewrite S1. apply in_or_app. right. by left. }
    exists w'. simpl. rewrite Hp. split; [exact Hrun|]. split; [exact T|].
    split; [by eapply heap_kept_trans|]. split; [congruence|exact HN].
  - destruct (perform_effect evt emit_rec d o w Ho Hwf)
      as (r & w1 & Hp & T1 & H1 & L1 & _).
    destruct (IH r w1 T1) as (w' & Hrun & T & H & L & HN).
    exists w'. simpl. rewrite Hp. split; [exact Hrun|]. split; [exact T|].
    split; [by eapply heap_kept_trans|]. split; [congruence|exact HN].
Qed.

(** The loop over listeners that add and inspect, none of which takes [N]
    away when it is selected: [N] stays. *)
Lemma emit_loop_adding bodies emit_rec d evt args a ls N :
  forall r i w more,
    well_formed w -> heap w !! a = Some (ls ++ more) -> i + r = length ls ->
    Forall (adding_at bodies args) (drop i ls) ->
    Forall (fun l => spared_by l N = true) (drop i ls) ->
    In N (sequence_of evt w) ->
    exists k w',
      k <= r /\
      ((emit_loop bodies emit_rec d evt args a r i w = Returned true w' /\ k = r) \/
       (exists err, emit_loop bodies emit_rec d evt args a r i w = Threw err w')) /\
      log w' = log w ++ entries d args (take k (drop i ls)) /\
      well_formed w' /\ In N (sequence_of evt w').
Proof.
  induction r as [|r IH]; intros i w more Hwf Ha Hlen Hadd Hsp HN.
  - exists 0, w. simpl. rewrite app_nil_r. split; [lia|]. auto.
  - destruct (lookup_lt_is_Some_2 ls i) as [l Hl]; [lia|].
    rewrite (drop_S _ _ _ Hl) in Hadd, Hsp |- *.
    apply Forall_cons in Hadd as [Hl_add Hadd]. apply Forall_cons in Hsp as [Hl_sp Hsp].
    assert (Hat : array_at w a !! i = Some l).
    { rewrite (array_at_lookup _ _ _ Ha). by apply lookup_app_l_Some. }
    rewrite (emit_loop_step bodies emit_rec d evt args a r i w l Hat).
    pose proof Hwf as (Hok & _).
    destruct (select_spec evt l w Hok) as (T1 & L1 & H1).
    destruct (select_sequence evt l w Hok) as (S1 & _).
    pose proof (select_well_formed evt l w Hwf) as W1.
    assert (HN1 : In N (sequence_of evt (select evt l w))).
    { rewrite S1. apply List.filter_In. by split. }
    unfold call. set (w0 := record (Invoked l args d) (select evt l w)).
    destruct (run_adding evt emit_rec (S d) _ N (Hl_add w0) w0 W1 HN1)
      as (w2 & [Hrun|[err Hrun]] & W2 & H2 & L2 & HN2); rewrite Hrun.
    + destruct (H2 _ _ (H1 _ _ Ha)) as [m2 Ha2]. rewrite <- app_assoc in Ha2.
      destruct (IH (S i) w2 _ W2 Ha2 ltac:(lia) Hadd Hsp HN2)
        as (k & w3 & Hk & Hres & L3 & W3 & HN3).
      exists (S k), w3. split; [lia|]. split.
      { destruct Hres as [[He ->]|[err He]]; [left|right]; eauto. }
      split; [|by split].
      rewrite L3, L2. subst w0. simpl. rewrite L1. by rewrite <- app_assoc.
    + exists 1, w2. split; [lia|]. split; [right; eauto|].
      split; [|by split].
      rewrite L2. subst w0. simpl. by rewrite L1.
Qed.

(** What the next [emit] does with the listener at position [j]. *)
Lemma next_emit_calls bodies fuel d evt args w j N :
  table_ok w -> sequence_of evt w !! j = Some N ->
  reaches d args (sequence_of evt w) j N w (emit bodies (S fuel) d evt args w) /\
  (Forall (tame_at bodies args) (take j (sequence_of evt w)) ->
   match emit bodies (S fuel) d evt args w with
   | Returned _ w' | Threw _ w' =>
       exists new, log w' = log w ++ new /\
         direct d new !! j = Some (Invoked N args d)
   | OutOfFuel => True
   end) /\
  (Forall (tame_at bodies args) (sequence_of evt w) ->
   exists w',
     emit bodies (S fuel) d evt args w = Returned true w' /\
     log w' = log w ++ entries d args (sequence_of evt w) /\
     log w' !! (length (log w) + j) = Some (Invoked N args d)).
Proof.
  intros Hok Hj. split; [by apply emit_reaches|]. split.
  - by apply emit_reaches_after_tame.
  - intros Hall.
    assert (Hne : sequence_of evt w <> []).
    { intros E. by rewrite E in Hj. }
    destruct (emit_tame bodies fuel d evt args w _ Hok eq_refl Hne Hall)
      as (w' & He & _ & _ & Hlog).
    exists w'. split; [exact He|]. split; [exact Hlog|].
    rewrite Hlog, lookup_app_r by lia.
    replace (length (log w) + j - length (log w)) with j by lia.
    by apply entries_lookup.
Qed.

(** Dispatch in which the listeners before [L] register, remove and
    inspect, [L] registers [N], and the listeners after [L] add and
    inspect. *)
Lemma emit_registers bodies fuel d evt args w pre L post one g c :
  well_formed w ->
  sequence_of evt w = pre ++ L :: post ->
  Forall (tame_at bodies args) pre ->
  (forall w0, registers evt g c one (bodies (EE.fn L) (EE.context L) args w0)) ->
  Forall (adding_at bodies args) post ->
  Forall (fun l => spared_by l (listener_for g c one) = true) post ->
  exists k w1,
    k <= length post /\
    ((emit bodies (S fuel) d evt args w = Returned true w1 /\ k = length post) \/
     (exists err, emit bodies (S fuel) d evt args w = Threw err w1)) /\
    log w1 = log w ++ entries d args (pre ++ L :: take k post) /\
    well_formed w1 /\ In (listener_for g c one) (sequence_of evt w1).
Proof.
  intros Hwf Hseq Hpre HL Hpost Hsp. pose proof Hwf as (Hok & _).
  set (ls := pre ++ L :: post) in *.
  destruct (sequence_of_lookup evt w ls Hseq) as (a & Ha & Hls).
  { unfold ls. by destruct pre. }
  simpl. unfold emit_body. rewrite Ha, (array_at_lookup _ _ _ Hls).
  assert (Hlen : length ls = length pre + S (length post)).
  { unfold ls. rewrite length_app. reflexivity. }
  rewrite Hlen. destruct (Nat.eqb_spec (length pre + S (length post)) 0) as [|_]; [lia|].
  rewrite emit_loop_app.
  destruct (emit_loop_tame bodies (emit bodies fuel) d evt args a pre Hpre
              (length pre) 0 w (L :: post) Hok Hls eq_refl)
    as (wL & HeL & TL & HkL & LL).
  pose proof (emit_loop_keeps well_formed addListener_well_formed
                removeListener_well_formed removeAllListeners_well_formed
                (fun i w0 H => H) bodies (emit bodies fuel)
                (emit_well_formed bodies fuel) d evt args a (length pre) 0 w Hwf) as WL.
  rewrite HeL in WL |- *. simpl in WL. rewrite drop_0 in LL.
  destruct (HkL _ _ Hls) as [mL HaL].
  assert (Hat : array_at wL a !! (0 + length pre) = Some L).
  { rewrite (array_at_lookup _ _ _ HaL). apply lookup_app_l_Some.
    unfold ls. by apply list_lookup_middle. }
  rewrite (emit_loop_step bodies (emit bodies fuel) d evt args a _ _ wL L Hat).
  destruct (select_spec evt L wL TL) as (T1 & L1 & H1).
  pose proof (select_well_formed evt L wL WL) as W1.
  unfold call. set (w0 := record (Invoked L args d) (select evt L wL)).
  destruct (run_registers evt g c one (emit bodies fuel) (S d) _ (HL w0) w0 W1)
    as (w2 & [Hrun|[err Hrun]] & W2 & H2 & L2 & HN2); rewrite Hrun.
  - destruct (H2 _ _ (H1 _ _ HaL)) as [m2 Ha2]. rewrite <- app_assoc in Ha2.
    assert (Hdrop : drop (S (0 + length pre)) ls = post).
    { unfold ls. simpl. apply drop_past_middle. }
    destruct (emit_loop_adding bodies (emit bodies fuel) d evt args a ls
                (listener_for g c one) (length post) (S (0 + length pre)) w2 _
                W2 Ha2 ltac:(simpl; lia)
                ltac:(by rewrite Hdrop) ltac:(by rewrite Hdrop) HN2)
      as (k & w3 & Hk & Hres & L3 & W3 & HN3).
    exists k, w3. split; [exact Hk|]. split; [exact Hres|]. split; [|by split].
    rewrite L3, L2, Hdrop. subst w0. simpl. rewrite L1, LL.
    rewrite <- !app_assoc. f_equal. unfold entries.
    rewrite List.map_app. simpl. done.
  - exists 0, w2. split; [lia|]. split; [right; eauto|]. split; [|by split].
    rewrite L2. subst w0. simpl. rewrite L1, LL, take_0.
    rewrite <- app_assoc. f_equal. unfold entries. by rewrite List.map_app.
Qed.

(** The listener registered while [emit] is in flight is called by an
    [emit] nested in that call. *)
Example listener_added_is_called_by_a_nested_emit :
  exists w1,
    emit adding_and_emitting_bodies 2 0 (EvStr "x") [VNum 1] on_pair_world
    = Returned true w1 /\
    log w1 = [Invoked (EE.new 1 emitter false) [VNum 1] 0;
              Invoked (EE.new 1 emitter false) [VNum 2] 1;
              Invoked (EE.new 2 emitter false) [VNum 2] 1;
              Invoked (EE.new 3 emitter false) [VNum 2] 1;
              Invoked (EE.new 2 emitter false) [VNum 1] 0].
Proof. eexists. split; reflexivity. Qed.

(** The next [emit] throws before it comes to the listeners registered
    meanwhile. *)
Example listener_added_is_missed_by_a_next_emit_that_throws :
  exists w1 w2,
    emit adding_on_throwing_bodies 1 0 (EvStr "x") [] on_pair_world
    = Threw (VStr "boom") w1 /\
    sequence_of (EvStr "x") w1
    = [EE.new 1 emitter false; EE.new 2 emitter false; EE.new 3 emitter false] /\
    emit adding_on_throwing_bodies 1 0 (EvStr "x") [] w1 = Threw (VStr "boom") w2 /\
    log w2 = [Invoked (EE.new 1 emitter false) [] 0;
              Invoked (EE.new 2 emitter false) [] 0;
              Invoked (EE.new 1 emitter false) [] 0;
              Invoked (EE.new 2 emitter false) [] 0].
Proof. do 2 eexists. repeat split; reflexivity. Qed.

(** A listener called later in the same [emit] takes the new listener off
    again. *)
Example listener_added_then_removed_is_not_called :
  exists w1 w2,
    emit adding_then_taking_bodies 1 0 (EvStr "x") [] on_pair_world
    = Returned true w1 /\
    sequence_of (EvStr "x") w1 = [EE.new 1 emitter false; EE.new 2 emitter false] /\
    emit adding_then_taking_bodies 1 0 (EvStr "x") [] w1 = Returned true w2 /\
    log w2 = [Invoked (EE.new 1 emitter false) [] 0;
              Invoked (EE.new 2 emitter false) [] 0;
              Invoked (EE.new 1 emitter false) [] 0;
              Invoked (EE.new 2 emitter false) [] 0].
Proof. do 2 eexists. repeat split; reflexivity. Qed.

Lemma well_formed_on_pair : well_formed on_pair_world.
Proof.
  exact (addListener_well_formed (EvStr "x") (VFun 2) VUndefined false _
           (addListener_well_formed (EvStr "x") (VFun 1) VUndefined false _
              well_formed_empty)).
Qed.

Lemma well_formed_trio : well_formed trio_world.
Proof.
  exact (addListener_well_formed (EvStr "x") (VFun 4) VUndefined true _
           well_formed_on_pair).
Qed.


